(** * fish_audio_preprocess: loudness normalisation and note counting

    A shallow embedding of

      - [fish_audio_preprocess/utils/loudness_norm.py]
        ([loudness_norm], [loudness_norm_file]) and
      - [fish_audio_preprocess/cli/frequency.py] ([count_midi_from_file],
        [frequency]),

    together with a model of the third-party routines they call:
    pyloudnorm ([normalize.peak], [normalize.loudness], [IIRfilter],
    [Meter.integrated_loudness], [util.valid_audio]), scipy's [lfilter]
    for one biquad section, the numpy reductions involved, soundfile's
    read/write (the output side both at face value and on a container that
    can fail and that encodes the samples), librosa's [hz_to_midi], and for
    the [frequency] command
    [collections.Counter]'s in-place addition, the stable [sorted] and the
    check of [ProcessPoolExecutor] on its worker count.  The command is
    parametrised by what it only calls: the listing of the directory, the
    pitch analysis, the completion order of the tasks and librosa's
    [midi_to_note].

    Numbers.  A numpy [float64] is modelled by [float64] below: a real
    number or one of the IEEE special values [+inf], [-inf], [nan].  The
    special values follow IEEE-754 (division by zero, [inf * 0], [log10 0],
    NaN propagation, comparisons with NaN); finite arithmetic is exact, that
    is, rounding, overflow and the sign of zero are abstracted away.  Python
    [int]s are [Z], Python [float] parameters (targets, block size) are
    finite reals. *)

From Stdlib Require Import String.
From Stdlib Require Import Reals Lra Lia ZArith Bool List.
From Stdlib Require Import Permutation Sorted.
Import ListNotations.

Set Implicit Arguments.

Local Open Scope R_scope.

(** ** Exceptions and results *)

Inductive exn : Type :=
  | ValueError
  | ZeroDivisionError
  | RuntimeError.

Inductive result (A : Type) : Type :=
  | Ok (v : A)
  | Raise (e : exn).

Arguments Ok {A} v.
Arguments Raise {A} e.

(** ** Boolean comparisons on reals *)

Definition Rleb (x y : R) : bool := if Rle_dec x y then true else false.
Definition Rltb (x y : R) : bool := if Rlt_dec x y then true else false.
Definition Reqb (x y : R) : bool := if Req_dec_T x y then true else false.

(** ** numpy float64 scalars *)

Module Np.

Inductive float64 : Type :=
  | Fin (x : R)
  | PInf
  | NInf
  | NaN.

Definition zero : float64 := Fin 0.

Definition isnan (a : float64) : bool :=
  match a with NaN => true | _ => false end.

Definition isinf (a : float64) : bool :=
  match a with PInf | NInf => true | _ => false end.

Definition isfinite (a : float64) : bool :=
  match a with Fin _ => true | _ => false end.

Definition fneg (a : float64) : float64 :=
  match a with
  | Fin x => Fin (- x)
  | PInf => NInf
  | NInf => PInf
  | NaN => NaN
  end.

Definition fabs (a : float64) : float64 :=
  match a with
  | Fin x => Fin (Rabs x)
  | PInf | NInf => PInf
  | NaN => NaN
  end.

Definition fadd (a b : float64) : float64 :=
  match a, b with
  | NaN, _ | _, NaN => NaN
  | Fin x, Fin y => Fin (x + y)
  | PInf, NInf | NInf, PInf => NaN
  | PInf, _ | _, PInf => PInf
  | NInf, _ | _, NInf => NInf
  end.

Definition fsub (a b : float64) : float64 := fadd a (fneg b).

(** An infinity of the sign of [x] times an infinity of the sign given by
    [pos]; [x = 0] gives NaN. *)
Definition inf_times (pos : bool) (x : R) : float64 :=
  if Rltb 0 x then (if pos then PInf else NInf)
  else if Rltb x 0 then (if pos then NInf else PInf)
  else NaN.

Definition fmul (a b : float64) : float64 :=
  match a, b with
  | NaN, _ | _, NaN => NaN
  | Fin x, Fin y => Fin (x * y)
  | Fin x, PInf | PInf, Fin x => inf_times true x
  | Fin x, NInf | NInf, Fin x => inf_times false x
  | PInf, PInf | NInf, NInf => PInf
  | PInf, NInf | NInf, PInf => NInf
  end.

(** numpy's true division: no exception, [x / 0] is an infinity of the sign
    of [x] and [0 / 0] is NaN (the zero divisor is taken as [+0]). *)
Definition fdiv (a b : float64) : float64 :=
  match a, b with
  | NaN, _ | _, NaN => NaN
  | Fin x, Fin y => if Reqb y 0 then inf_times true x else Fin (x / y)
  | Fin _, (PInf | NInf) => Fin 0
  | (PInf | NInf), (PInf | NInf) => NaN
  | PInf, Fin y => if Rleb 0 y then PInf else NInf
  | NInf, Fin y => if Rleb 0 y then NInf else PInf
  end.

(** Python/numpy comparisons: anything compared with NaN is [False]. *)
Definition fle (a b : float64) : bool :=
  match a, b with
  | NaN, _ | _, NaN => false
  | Fin x, Fin y => Rleb x y
  | NInf, _ => true
  | _, PInf => true
  | _, _ => false
  end.

Definition flt (a b : float64) : bool :=
  match a, b with
  | NaN, _ | _, NaN => false
  | Fin x, Fin y => Rltb x y
  | PInf, _ => false
  | _, NInf => false
  | NInf, _ => true
  | _, PInf => true
  end.

Definition fge (a b : float64) : bool := fle b a.
Definition fgt (a b : float64) : bool := flt b a.

Definition feq (a b : float64) : bool :=
  match a, b with
  | Fin x, Fin y => Reqb x y
  | PInf, PInf | NInf, NInf => true
  | _, _ => false
  end.

(** [np.maximum] as used by the [np.max] reduction: NaN propagates. *)
Definition fmax (a b : float64) : float64 :=
  match a, b with
  | NaN, _ | _, NaN => NaN
  | _, _ => if fle a b then b else a
  end.

(** [np.log10]. *)
Definition log10 (a : float64) : float64 :=
  match a with
  | Fin x => if Rltb 0 x then Fin (ln x / ln 10)
             else if Reqb x 0 then NInf else NaN
  | PInf => PInf
  | NInf | NaN => NaN
  end.

(** [np.log2]. *)
Definition log2 (a : float64) : float64 :=
  match a with
  | Fin x => if Rltb 0 x then Fin (ln x / ln 2)
             else if Reqb x 0 then NInf else NaN
  | PInf => PInf
  | NInf | NaN => NaN
  end.

(** [np.power(10.0, a)]. *)
Definition pow10 (a : float64) : float64 :=
  match a with
  | Fin x => Fin (Rpower 10 x)
  | PInf => PInf
  | NInf => Fin 0
  | NaN => NaN
  end.

(** The largest finite double, which [np.nan_to_num] substitutes for
    infinities. *)
Definition float_max : R := (2 - / 2 ^ 52) * 2 ^ 1023.

Definition nan_to_num (a : float64) : float64 :=
  match a with
  | NaN => Fin 0
  | PInf => Fin float_max
  | NInf => Fin (- float_max)
  | Fin x => Fin x
  end.

(** [np.sum] of a sequence, [np.mean] (NaN on an empty sequence, with a
    warning only) and the [np.max] reduction of a non-empty sequence. *)
Definition sum (l : list float64) : float64 := fold_left fadd l zero.

Definition mean (l : list float64) : float64 :=
  fdiv (sum l) (Fin (INR (length l))).

Definition max_of (x : float64) (l : list float64) : float64 :=
  fold_left fmax l x.

(** [np.round]: to the nearest integer, ties to the even one. *)
Definition round_half_even (x : R) : Z :=
  let f := Zfloor x in
  let d := x - IZR f in
  if Rltb d (/ 2) then f
  else if Rltb (/ 2) d then (f + 1)%Z
  else if Z.even f then f else (f + 1)%Z.

(** Python's [int(x)] on a finite float: truncation towards zero. *)
Definition trunc (x : R) : Z :=
  if Rleb 0 x then Zfloor x else (- Zfloor (- x))%Z.

End Np.

Import Np.

(** ** numpy arrays

    An [ndarray] of audio is the list of its frames (rows), each frame the
    list of its channel samples; [shape] is [(shape0, shape1)].  A
    one-dimensional array of [n] samples is represented by its [(n, 1)]
    reshape, which is what [Meter.integrated_loudness] itself works on and
    on which the element-wise operations agree. *)

Definition ndarray : Type := list (list float64).

Definition shape0 (a : ndarray) : nat := length a.

Definition shape1 (a : ndarray) : nat :=
  match a with
  | [] => O
  | f :: _ => length f
  end.

(** [gain * data]. *)
Definition scale (g : float64) (a : ndarray) : ndarray :=
  map (map (fmul g)) a.

(** [np.max(np.abs(data))]: numpy raises [ValueError] on an array without
    elements. *)
Definition amax_abs (a : ndarray) : result float64 :=
  match map fabs (concat a) with
  | [] => Raise ValueError
  | x :: l => Ok (max_of x l)
  end.

(** [data[:, ch]] and the in-place assignment [data[:, ch] = v]. *)
Definition col (ch : nat) (a : ndarray) : list float64 :=
  map (fun f => nth ch f zero) a.

Fixpoint set_nth {A} (n : nat) (x : A) (l : list A) : list A :=
  match l, n with
  | [], _ => []
  | _ :: t, O => x :: t
  | h :: t, S n' => h :: set_nth n' x t
  end.

Fixpoint set_col (ch : nat) (v : list float64) (a : ndarray) : ndarray :=
  match a, v with
  | f :: a', y :: v' => set_nth ch y f :: set_col ch v' a'
  | _, _ => a
  end.

(** Python's [xs[l:u]] for arbitrary integer bounds. *)
Definition clamp_index (i n : Z) : Z :=
  if (i <? 0)%Z then Z.max 0 (i + n) else Z.min i n.

Definition slice {A} (l u : Z) (xs : list A) : list A :=
  let n := Z.of_nat (length xs) in
  let l' := clamp_index l n in
  let u' := clamp_index u n in
  firstn (Z.to_nat (u' - l')) (skipn (Z.to_nat l') xs).

(** [range(n)] and [range(0, stop, step)] for a positive step. *)
Definition range (n : nat) : list Z := map Z.of_nat (seq 0 n).

Definition range_step (stop step : Z) : list Z :=
  map (fun k => (k * step)%Z) (range (Z.to_nat ((stop + step - 1) / step))).

(** ** The program state: a store of array objects and the files on disk

    A location is the identity of a numpy array object.  Arrays are only
    ever allocated, read and (for the meter's private copy) overwritten;
    nothing is freed, so a location allocated during a call is distinct from
    every array that existed before it. *)

Definition loc : Type := nat.

Record sound_file : Type := {
  sf_frames : ndarray;
  sf_samplerate : Z
}.

Record world : Type := {
  heap : list ndarray;
  files : list (string * sound_file)
}.

Definition M (A : Type) : Type := world -> world * result A.

Definition ret {A} (x : A) : M A := fun w => (w, Ok x).

Definition raise {A} (e : exn) : M A := fun w => (w, Raise e).

Definition bind {A B} (m : M A) (k : A -> M B) : M B :=
  fun w =>
    match m w with
    | (w', Ok x) => k x w'
    | (w', Raise e) => (w', Raise e)
    end.

Notation "x <- c1 ;; c2" := (bind c1 (fun x => c2))
  (at level 61, c1 at next level, right associativity).
Notation "c1 ;;; c2" := (bind c1 (fun _ => c2))
  (at level 61, right associativity).

Definition lift {A} (r : result A) : M A := fun w => (w, r).

Definition alloc (a : ndarray) : M loc :=
  fun w => ({| heap := heap w ++ [a]; files := files w |},
            Ok (length (heap w))).

Definition load (l : loc) : M ndarray :=
  fun w =>
    match nth_error (heap w) l with
    | Some a => (w, Ok a)
    | None => (w, Raise RuntimeError)
    end.

Definition store (l : loc) (a : ndarray) : M unit :=
  fun w => ({| heap := set_nth l a (heap w); files := files w |}, Ok tt).

Fixpoint for_each {A} (xs : list A) (body : A -> M unit) : M unit :=
  match xs with
  | [] => ret tt
  | x :: xs' => body x ;;; for_each xs' body
  end.

(** ** pyloudnorm

    pyloudnorm is a third-party package: the repository imports it and
    holds none of its code.  The definitions of this module follow its
    implementation ([normalize.py], [meter.py], [iirfilter.py], [util.py]),
    of which the relevant lines are quoted; only the two filter types the
    K-weighting uses are modelled. *)

Module pyln.

(** [pyloudnorm.normalize.peak(data, target)]:
<<
    current_peak = np.max(np.abs(data))
    gain = np.power(10.0, target/20.0) / current_peak
    output = gain * data
    if np.max(np.abs(output)) >= 1.0: warnings.warn(...)
    return output
>>
    The division is numpy's: a zero peak gives an infinite gain, with a
    warning only. *)
Definition peak_gain (current_peak : float64) (target : R) : float64 :=
  fdiv (pow10 (Fin (target / 20))) current_peak.

Definition normalize_peak (data : loc) (target : R) : M loc :=
  d <- load data ;;
  current_peak <- lift (amax_abs d) ;;
  output <- alloc (scale (peak_gain current_peak target) d) ;;
  _ <- lift (amax_abs (scale (peak_gain current_peak target) d)) ;;
  ret output.

(** [pyloudnorm.normalize.loudness(data, input_loudness, target_loudness)]:
<<
    delta_loudness = target_loudness - input_loudness
    gain = np.power(10.0, delta_loudness/20.0)
    output = gain * data
    if np.max(np.abs(output)) >= 1.0: warnings.warn(...)
    return output
>> *)
Definition loudness_gain (input_loudness : float64) (target : R) : float64 :=
  pow10 (fdiv (fsub (Fin target) input_loudness) (Fin 20)).

Definition normalize_loudness (data : loc) (input_loudness : float64)
    (target_loudness : R) : M loc :=
  d <- load data ;;
  output <- alloc (scale (loudness_gain input_loudness target_loudness) d) ;;
  _ <- lift (amax_abs (scale (loudness_gain input_loudness target_loudness) d)) ;;
  ret output.

(** *** IIRfilter: the two biquad sections of the K-weighting *)

Inductive filter_type : Type := high_shelf | high_pass.

Record IIRfilter : Type := {
  flt_G : R;
  flt_Q : R;
  flt_fc : R;
  flt_rate : Z;
  flt_type : filter_type;
  passband_gain : R
}.

Record coefficients : Type := {
  cb0 : float64; cb1 : float64; cb2 : float64;
  ca0 : float64; ca1 : float64; ca2 : float64
}.

(** [IIRfilter.generate_coefficients], evaluated each time the properties
    [b] and [a] are read.  [fc / rate] is a Python division and raises
    [ZeroDivisionError] on a zero rate; the final division by [a0] is
    numpy's. *)
Definition generate_coefficients (f : IIRfilter) : result coefficients :=
  if (flt_rate f =? 0)%Z then Raise ZeroDivisionError
  else
    let A := Rpower 10 (flt_G f / 40) in
    let w0 := 2 * PI * (flt_fc f / IZR (flt_rate f)) in
    let alpha := sin w0 / (2 * flt_Q f) in
    let '(b0, b1, b2, a0, a1, a2) :=
      match flt_type f with
      | high_shelf =>
          (A * ((A + 1) + (A - 1) * cos w0 + 2 * sqrt A * alpha),
           -2 * A * ((A - 1) + (A + 1) * cos w0),
           A * ((A + 1) + (A - 1) * cos w0 - 2 * sqrt A * alpha),
           (A + 1) - (A - 1) * cos w0 + 2 * sqrt A * alpha,
           2 * ((A - 1) - (A + 1) * cos w0),
           (A + 1) - (A - 1) * cos w0 - 2 * sqrt A * alpha)
      | high_pass =>
          ((1 + cos w0) / 2,
           - (1 + cos w0),
           (1 + cos w0) / 2,
           1 + alpha,
           -2 * cos w0,
           1 - alpha)
      end in
    Ok {| cb0 := fdiv (Fin b0) (Fin a0);
          cb1 := fdiv (Fin b1) (Fin a0);
          cb2 := fdiv (Fin b2) (Fin a0);
          ca0 := fdiv (Fin a0) (Fin a0);
          ca1 := fdiv (Fin a1) (Fin a0);
          ca2 := fdiv (Fin a2) (Fin a0) |}.

(** [scipy.signal.lfilter(b, a, x)] for a second-order section: transposed
    direct form II from a zero state, the coefficients first divided by
    [a[0]]. *)
Fixpoint lfilter_from (b0 b1 b2 a1 a2 : float64) (z0 z1 : float64)
    (x : list float64) : list float64 :=
  match x with
  | [] => []
  | xn :: x' =>
      let yn := fadd z0 (fmul b0 xn) in
      let z0' := fsub (fadd z1 (fmul xn b1)) (fmul yn a1) in
      let z1' := fsub (fmul xn b2) (fmul yn a2) in
      yn :: lfilter_from b0 b1 b2 a1 a2 z0' z1' x'
  end.

Definition lfilter (c : coefficients) (x : list float64) : list float64 :=
  lfilter_from (fdiv (cb0 c) (ca0 c)) (fdiv (cb1 c) (ca0 c))
               (fdiv (cb2 c) (ca0 c)) (fdiv (ca1 c) (ca0 c))
               (fdiv (ca2 c) (ca0 c)) zero zero x.

(** [IIRfilter.apply_filter(data)]:
    [self.passband_gain * scipy.signal.lfilter(self.b, self.a, data)]. *)
Definition apply_filter (f : IIRfilter) (data : list float64)
    : result (list float64) :=
  match generate_coefficients f with
  | Raise e => Raise e
  | Ok c => Ok (map (fmul (Fin (passband_gain f))) (lfilter c data))
  end.

(** *** Meter *)

Record Meter : Type := {
  rate : Z;
  block_size : R
}.

(** [pyln.Meter(rate, block_size=...)] with the default filter class
    ["K-weighting"]; the constructor only stores its arguments. *)
Definition new_Meter (rate : Z) (block_size : R) : M Meter :=
  ret {| rate := rate; block_size := block_size |}.

Definition default_block_size : R := 0.400.

(** [meter._filters], in insertion order. *)
Definition filters (m : Meter) : list IIRfilter :=
  [ {| flt_G := 4; flt_Q := 1 / sqrt 2; flt_fc := 1500;
       flt_rate := rate m; flt_type := high_shelf; passband_gain := 1 |};
    {| flt_G := 0; flt_Q := 0.5; flt_fc := 38;
       flt_rate := rate m; flt_type := high_pass; passband_gain := 1 |} ].

(** [util.valid_audio(data, rate, block_size)]; the type and dtype checks
    hold by typing. *)
Definition valid_audio (d : ndarray) (rate : Z) (block_size : R)
    : result unit :=
  if (5 <? shape1 d)%nat then Raise ValueError
  else if Rltb (INR (shape0 d)) (block_size * IZR rate) then Raise ValueError
  else Ok tt.

(** Channel gains [G = [1.0, 1.0, 1.0, 1.41, 1.41]]. *)
Definition G : list R := [1; 1; 1; 1.41; 1.41].

Definition Gamma_a : float64 := Fin (-70).
Definition step : R := 1 - 0.75.

(** Number of gating blocks:
    [int(np.round(((T - T_g) / (T_g * step))) + 1)] with
    [T = numSamples / rate]; both divisions are Python's. *)
Definition num_blocks (m : Meter) (numSamples : nat) : result Z :=
  if (rate m =? 0)%Z then Raise ZeroDivisionError
  else
    let T := INR numSamples / IZR (rate m) in
    let T_g := block_size m in
    if Reqb (T_g * step) 0 then Raise ZeroDivisionError
    else Ok (round_half_even ((T - T_g) / (T_g * step)) + 1)%Z.

(** [z[i,j]]: the mean square of channel [chan] over block [j]. *)
Definition block_energy (m : Meter) (chan : list float64) (j : Z) : float64 :=
  let T_g := block_size m in
  let l := trunc (T_g * (IZR j * step) * IZR (rate m)) in
  let u := trunc (T_g * (IZR j * step + 1) * IZR (rate m)) in
  fmul (Fin (1 / (T_g * IZR (rate m))))
       (sum (map (fun x => fmul x x) (slice l u chan))).

Definition block_energies (m : Meter) (filtered : ndarray)
    (numChannels numBlocks : nat) : list (list float64) :=
  map (fun i => map (block_energy m (col i filtered)) (range numBlocks))
      (seq 0 numChannels).

Definition z_at (z : list (list float64)) (i j : nat) : float64 :=
  nth j (nth i z []) zero.

(** [-0.691 + 10.0 * np.log10(np.sum([G[i] * v i for i in range(numChannels)]))]. *)
Definition loudness_of (numChannels : nat) (v : nat -> float64) : float64 :=
  fadd (Fin (-0.691))
       (fmul (Fin 10)
             (log10 (sum (map (fun i => fmul (Fin (nth i G 0)) (v i))
                              (seq 0 numChannels))))).

(** The block loudnesses [l], the gating index sets [J_g] and the gated
    means, as in the second half of [integrated_loudness]. *)
Definition block_loudness (z : list (list float64)) (numChannels : nat)
    (j : nat) : float64 :=
  loudness_of numChannels (fun i => z_at z i j).

Definition J_absolute (z : list (list float64)) (numChannels numBlocks : nat)
    : list nat :=
  filter (fun j => fge (block_loudness z numChannels j) Gamma_a)
         (seq 0 numBlocks).

Definition z_avg (z : list (list float64)) (J : list nat) (i : nat)
    : float64 :=
  mean (map (fun j => z_at z i j) J).

Definition Gamma_r (z : list (list float64)) (numChannels numBlocks : nat)
    : float64 :=
  fsub (loudness_of numChannels
          (z_avg z (J_absolute z numChannels numBlocks)))
       (Fin 10).

Definition J_gated (z : list (list float64)) (numChannels numBlocks : nat)
    : list nat :=
  filter (fun j =>
            fgt (block_loudness z numChannels j)
                (Gamma_r z numChannels numBlocks)
            && fgt (block_loudness z numChannels j) Gamma_a)
         (seq 0 numBlocks).

Definition gated_loudness (z : list (list float64))
    (numChannels numBlocks : nat) : float64 :=
  loudness_of numChannels
    (fun i => nan_to_num (z_avg z (J_gated z numChannels numBlocks) i)).

(** The K-weighting pass over the meter's private copy [input_data]:
<<
    for (filter_class, filter_stage) in self._filters.items():
        for ch in range(numChannels):
            input_data[:,ch] = filter_stage.apply_filter(input_data[:,ch])
>> *)
Definition filter_channel (input_data : loc) (f : IIRfilter) (ch : nat)
    : M unit :=
  d <- load input_data ;;
  y <- lift (apply_filter f (col ch d)) ;;
  store input_data (set_col ch y d).

(** [Meter.integrated_loudness(data)]:
<<
    input_data = data.copy()
    util.valid_audio(input_data, self.rate, self.block_size)
    if input_data.ndim == 1:
        input_data = np.reshape(input_data, (input_data.shape[0], 1))
    numChannels = input_data.shape[1]
    numSamples  = input_data.shape[0]
    (K-weighting pass, see above)
    G = [1.0, 1.0, 1.0, 1.41, 1.41]
    T_g = self.block_size
    Gamma_a = -70.0
    overlap = 0.75
    step = 1.0 - overlap
    T = numSamples / self.rate
    numBlocks = int(np.round(((T - T_g) / (T_g * step)))+1)
    j_range = np.arange(0, numBlocks)
    z = np.zeros(shape=(numChannels,numBlocks))
    for i in range(numChannels):
        for j in j_range:
            l = int(T_g * (j * step    ) * self.rate)
            u = int(T_g * (j * step + 1) * self.rate)
            z[i,j] = (1.0 / (T_g * self.rate))
                     * np.sum(np.square(input_data[l:u,i]))
    l = [-0.691 + 10.0 * np.log10(np.sum([G[i] * z[i,j]
             for i in range(numChannels)])) for j in j_range]
    J_g = [j for j,l_j in enumerate(l) if l_j >= Gamma_a]
    z_avg_gated = [np.mean([z[i,j] for j in J_g])
                   for i in range(numChannels)]
    Gamma_r = -0.691 + 10.0 * np.log10(np.sum([G[i] * z_avg_gated[i]
                  for i in range(numChannels)])) - 10.0
    J_g = [j for j,l_j in enumerate(l)
           if (l_j > Gamma_r and l_j > Gamma_a)]
    z_avg_gated = np.nan_to_num(np.array([np.mean([z[i,j] for j in J_g])
                                          for i in range(numChannels)]))
    LUFS = -0.691 + 10.0 * np.log10(np.sum([G[i] * z_avg_gated[i]
               for i in range(numChannels)]))
    return LUFS
>>
    [np.zeros] raises [ValueError] on a negative block count.  By the time
    [z] is filled neither [self.rate] nor [T_g] is zero, so the scalar
    division in [z[i,j]] cannot fail. *)
Definition integrated_loudness (m : Meter) (data : loc) : M float64 :=
  d <- load data ;;
  input_data <- alloc d ;;
  _ <- lift (valid_audio d (rate m) (block_size m)) ;;
  let numChannels := shape1 d in
  let numSamples := shape0 d in
  for_each (filters m)
    (fun f => for_each (seq 0 numChannels) (filter_channel input_data f)) ;;;
  numBlocks <- lift (num_blocks m numSamples) ;;
  if (numBlocks <? 0)%Z then raise ValueError
  else
    filtered <- load input_data ;;
    let z := block_energies m filtered numChannels (Z.to_nat numBlocks) in
    ret (gated_loudness z numChannels (Z.to_nat numBlocks)).

End pyln.

(** ** soundfile

    The disk is a list of [(path, contents)] entries, the most recent
    first: opening a file for writing or appending to it adds the new
    contents in front, and [lookup] returns the first entry of a path.  A
    file's contents are its decoded frames and sample rate (the channel
    count is the width of the frames).

    [open_w] and [write] are soundfile's output side at face value: they
    always succeed and the file keeps the frames exactly as they are handed
    to [f.write].  This is soundfile on a writable path whose format stores
    floating-point samples; the entry of a written path then records the
    sample rate passed to the constructor and the frames passed to
    [f.write], in order.  [loudness_norm_file_on] below takes the container
    as a parameter, with the exceptions of opening and writing and with the
    encoding of the samples. *)

Module sf.

Fixpoint lookup (path : string) (fs : list (string * sound_file))
    : option sound_file :=
  match fs with
  | [] => None
  | (p, c) :: fs' => if String.eqb p path then Some c else lookup path fs'
  end.

(** [sf.read(path)]: the decoded frames, as a new array, and the sample
    rate; a missing or undecodable file raises. *)
Definition read (path : string) : M (loc * Z) :=
  fun w =>
    match lookup path (files w) with
    | None => (w, Raise RuntimeError)
    | Some c =>
        ({| heap := heap w ++ [sf_frames c]; files := files w |},
         Ok (length (heap w), sf_samplerate c))
    end.

(** [sf.SoundFile(path, "w", samplerate=..., channels=...)]: the file is
    created empty. *)
Definition open_w (path : string) (samplerate : Z) : M unit :=
  fun w =>
    ({| heap := heap w;
        files := (path, {| sf_frames := []; sf_samplerate := samplerate |})
                 :: files w |},
     Ok tt).

(** [f.write(chunk)]: the frames are appended. *)
Definition write (path : string) (chunk : ndarray) : M unit :=
  fun w =>
    match lookup path (files w) with
    | None => (w, Raise RuntimeError)
    | Some c =>
        ({| heap := heap w;
            files := (path, {| sf_frames := sf_frames c ++ chunk;
                               sf_samplerate := sf_samplerate c |})
                     :: files w |},
         Ok tt)
    end.

End sf.

(** ** fish_audio_preprocess.utils.loudness_norm *)

Definition default_peak : R := -1.0.
Definition default_loudness : R := -23.0.
Definition default_block_size : R := 0.400.

(** [loudness_norm(audio, rate, peak, loudness, block_size)].  The local
    name [audio] is rebound to the peak-normalised array; the caller's
    array object is [audio0]. *)
Definition loudness_norm (audio0 : loc) (rate : Z)
    (peak loudness block_size : R) : M loc :=
  audio <- pyln.normalize_peak audio0 peak ;;
  meter <- pyln.new_Meter rate block_size ;;
  _loudness <- pyln.integrated_loudness meter audio ;;
  pyln.normalize_loudness audio _loudness loudness.

Definition chunk_size : Z := 100000.

(** [loudness_norm_file(input_file, output_file, peak, loudness,
    block_size)].  The meter is built with the default block size (the
    [block_size] argument is not passed on).  The [except] clause prints
    the error and re-raises it, so the result is that of the [try] body.
    The output side is [sf.open_w] and [sf.write], taken at face value;
    [loudness_norm_file_on] is the function on a container that can fail
    and that encodes. *)
Definition loudness_norm_file (input_file output_file : string)
    (peak loudness block_size : R) : M unit :=
  ar <- sf.read input_file ;;
  let '(audio, rate) := ar in
  meter <- pyln.new_Meter rate pyln.default_block_size ;;
  loudness_pre <- pyln.integrated_loudness meter audio ;;
  audio <- pyln.normalize_loudness audio loudness_pre loudness ;;
  audio <- pyln.normalize_peak audio peak ;;
  a <- load audio ;;
  sf.open_w output_file rate ;;;
  for_each (range_step (Z.of_nat (length a)) chunk_size)
    (fun i => sf.write output_file (slice i (i + chunk_size) a)).

(** *** Calling the functions on a value

    [call_loudness_norm a ...] runs [loudness_norm] in a store holding the
    single array [a] and reads the returned array back. *)

Definition initial_world (a : ndarray) : world :=
  {| heap := [a]; files := [] |}.

Definition call_loudness_norm (a : ndarray) (rate : Z)
    (peak loudness block_size : R) : result ndarray :=
  match loudness_norm 0%nat rate peak loudness block_size (initial_world a) with
  | (w, Ok l) =>
      match nth_error (heap w) l with
      | Some out => Ok out
      | None => Raise RuntimeError
      end
  | (_, Raise e) => Raise e
  end.

(** The loudness that [loudness_norm] measures on its way: that of the
    peak-normalised array. *)
Definition measured_loudness (a : ndarray) (rate : Z)
    (peak block_size : R) : result float64 :=
  snd ((audio <- pyln.normalize_peak 0%nat peak ;;
        meter <- pyln.new_Meter rate block_size ;;
        pyln.integrated_loudness meter audio) (initial_world a)).

(** The meter on a value. *)
Definition call_integrated_loudness (a : ndarray) (rate : Z)
    (block_size : R) : result float64 :=
  snd (pyln.integrated_loudness
         {| pyln.rate := rate; pyln.block_size := block_size |} 0%nat
         (initial_world a)).

(** [call_loudness_norm_file a rate ...] runs [loudness_norm_file] on a
    disk holding the decoded input only and reads the written frames. *)
Definition call_loudness_norm_file (a : ndarray) (rate : Z)
    (peak loudness block_size : R) : result ndarray :=
  let w0 := {| heap := [];
               files := [("in.wav"%string,
                          {| sf_frames := a; sf_samplerate := rate |})] |} in
  match loudness_norm_file "in.wav" "out.wav" peak loudness block_size w0 with
  | (w, Ok _) =>
      match sf.lookup "out.wav" (files w) with
      | Some c => Ok (sf_frames c)
      | None => Raise RuntimeError
      end
  | (_, Raise e) => Raise e
  end.

(** ** fish_audio_preprocess.cli.frequency *)

(** [librosa.hz_to_midi(f)]:
    [12 * (np.log2(f) - np.log2(440.0)) + 69]. *)
Definition hz_to_midi (f : float64) : float64 :=
  fadd (fmul (Fin 12) (fsub (log2 f) (log2 (Fin 440)))) (Fin 69).

(** A [collections.Counter] keyed by floats, as the list of its items in
    insertion order.  A key is found by [==]; a NaN key equals no key (each
    [hz_to_midi] result is a new object), so it always opens a new item. *)
Definition Counter : Type := list (float64 * Z).

(** [counter[k]], which is [0] for a missing key. *)
Fixpoint counter_get (c : Counter) (k : float64) : Z :=
  match c with
  | [] => 0%Z
  | (k', n) :: c' => if feq k' k then n else counter_get c' k
  end.

(** [counter[k] = v]. *)
Fixpoint counter_set (c : Counter) (k : float64) (v : Z) : Counter :=
  match c with
  | [] => [(k, v)]
  | (k', n) :: c' =>
      if feq k' k then (k', v) :: c' else (k', n) :: counter_set c' k v
  end.

(** [counter[k] += 1]. *)
Definition counter_incr (c : Counter) (k : float64) : Counter :=
  counter_set c k (counter_get c k + 1)%Z.

(** [sum(counter.values())]. *)
Definition counter_total (c : Counter) : Z :=
  fold_right (fun kv acc => (snd kv + acc)%Z) 0%Z c.

(** The test of the loop body: [np.isinf(i) or np.isnan(i) or i == 0]. *)
Definition skipped (i : float64) : bool :=
  isinf i || isnan i || feq i zero.

Section Frequency.

(** [pm.Sound(str(file)).to_pitch_ac().selected_array["frequency"]]:
    Praat's pitch track of the file, one frequency per analysis frame. *)
Variable pitch_frequencies : string -> result (list float64).

Definition count_frames (f0 : list float64) : Counter :=
  fold_left
    (fun counter i =>
       if skipped i then counter
       else counter_incr counter (hz_to_midi i))
    f0 [].

Definition count_midi_from_file (file : string) : result Counter :=
  match pitch_frequencies file with
  | Raise e => Raise e
  | Ok f0 => Ok (count_frames f0)
  end.

End Frequency.

(** ** Value-level readings of the library routines

    The same computations on array values, without the store; the run
    lemmas below relate them to the stateful definitions. *)

(** The array [normalize.peak] returns. *)
Definition peak_value (d : ndarray) (target : R) : result ndarray :=
  match amax_abs d with
  | Raise e => Raise e
  | Ok p => Ok (scale (pyln.peak_gain p target) d)
  end.

(** One filter over the listed channels: the array reached and whether the
    pass completed. *)
Fixpoint filter_channels (f : pyln.IIRfilter) (chs : list nat) (d : ndarray)
    : ndarray * result unit :=
  match chs with
  | [] => (d, Ok tt)
  | ch :: chs' =>
      match pyln.apply_filter f (col ch d) with
      | Raise e => (d, Raise e)
      | Ok y => filter_channels f chs' (set_col ch y d)
      end
  end.

Fixpoint filter_stages (fs : list pyln.IIRfilter) (chs : list nat)
    (d : ndarray) : ndarray * result unit :=
  match fs with
  | [] => (d, Ok tt)
  | f :: fs' =>
      match filter_channels f chs d with
      | (d', Ok _) => filter_stages fs' chs d'
      | (d', Raise e) => (d', Raise e)
      end
  end.

(** What [integrated_loudness] leaves in its private copy, and its result. *)
Definition measure_copy (m : pyln.Meter) (d : ndarray)
    : ndarray * result float64 :=
  match pyln.valid_audio d (pyln.rate m) (pyln.block_size m) with
  | Raise e => (d, Raise e)
  | Ok _ =>
      match filter_stages (pyln.filters m) (seq 0 (shape1 d)) d with
      | (d', Raise e) => (d', Raise e)
      | (d', Ok _) =>
          (d',
           match pyln.num_blocks m (shape0 d) with
           | Raise e => Raise e
           | Ok numBlocks =>
               if (numBlocks <? 0)%Z then Raise ValueError
               else
                 Ok (pyln.gated_loudness
                       (pyln.block_energies m d' (shape1 d)
                          (Z.to_nat numBlocks))
                       (shape1 d) (Z.to_nat numBlocks))
           end)
      end
  end.

Definition measure (m : pyln.Meter) (d : ndarray) : result float64 :=
  snd (measure_copy m d).

(** [loudness_norm] as a function of the array value. *)
Definition loudness_norm_value (a : ndarray) (rate : Z)
    (peak loudness block_size : R) : result ndarray :=
  match peak_value a peak with
  | Raise e => Raise e
  | Ok a1 =>
      match measure {| pyln.rate := rate; pyln.block_size := block_size |} a1 with
      | Raise e => Raise e
      | Ok L => Ok (scale (pyln.loudness_gain L loudness) a1)
      end
  end.

(** ** The gain the specification describes

    Section 4.5 of the specification: the loudness gain
    [10^((target - L)/20)] from the loudness [L] of the input (unity when
    [L] is [-inf]), the peak gain that brings the input's peak to the
    target, and their minimum as the one gain applied. *)
Definition spec_g_loud (L : float64) (target : R) : float64 :=
  match L with
  | NInf => Fin 1
  | _ => pyln.loudness_gain L target
  end.

Definition spec_g_peak (current_peak : float64) (target : R) : float64 :=
  match current_peak with
  | Fin x => if Reqb x 0 then Fin 1 else pyln.peak_gain current_peak target
  | _ => pyln.peak_gain current_peak target
  end.

Definition fmin (a b : float64) : float64 := if fle a b then a else b.

Definition spec_normalize (a : ndarray) (rate : Z)
    (peak loudness block_size : R) : result ndarray :=
  match call_integrated_loudness a rate block_size, amax_abs a with
  | Ok L, Ok p =>
      Ok (scale (fmin (spec_g_loud L loudness) (spec_g_peak p peak)) a)
  | Raise e, _ | _, Raise e => Raise e
  end.

(** ** Test signals *)

(** A single-channel array with the given finite samples. *)
Definition mono (xs : list R) : ndarray := map (fun x => [Fin x]) xs.

(** An array of [n] frames of [c] channels, every sample being [v]. *)
Definition full (n c : nat) (v : float64) : ndarray := repeat (repeat v c) n.

(** The linear gain of the K-weighting at the sample rates where both of
    its sections degenerate (see [kweighting_degenerate]): the square of
    the shelf amplitude [A = 10^(4/40)]. *)
Definition K_shelf : R := Rpower 10 (4 / 40) * Rpower 10 (4 / 40).

(** ** Block loudness of a single-channel measurement *)

(** [-0.691 + 10 log10 p] for a positive power [p]. *)
Definition lufs (p : R) : R := -0.691 + 10 * (ln p / ln 10).

(** The loudness [-0.691 + 10.0 * np.log10(np.sum([G[0] * e]))] of one
    block of power [e] when there is a single channel. *)
Definition block_lufs (e : float64) : float64 :=
  pyln.loudness_of 1 (fun _ => e).

(** ** Finite and silent buffers *)

(** Every sample is a finite number. *)
Definition all_finite (a : ndarray) : Prop :=
  Forall (fun x => isfinite x = true) (concat a).

(** Digital silence: every sample is zero. *)
Definition silent (a : ndarray) : Prop :=
  Forall (fun x => x = Fin 0) (concat a).

(** [data[i, ch]] when the indices are in range. *)
Definition sample (a : ndarray) (i ch : nat) : option float64 :=
  match nth_error a i with
  | Some f => nth_error f ch
  | None => None
  end.

(** A value that is a finite zero, and one that is NaN or a finite zero:
    what silence turns into inside the meter. *)
Definition is_zero (x : float64) : Prop := exists r, x = Fin r /\ r = 0.

Definition nan_or_zero (x : float64) : Prop := x = NaN \/ is_zero x.

(** The block power whose loudness is [l] LUFS: [10^((l + 0.691)/10)]. *)
Definition power_of_lufs (l : R) : R := Rpower 10 ((l + 0.691) / 10).

(** The pitch frames that [count_midi_from_file] does not skip. *)
Definition surviving (f0 : list float64) : list float64 :=
  filter (fun i => negb (skipped i)) f0.

(** The K-weighted signal the meter computes from [a], and its block powers
    (empty when the block count cannot be computed). *)
Definition kweighted (m : pyln.Meter) (a : ndarray) : ndarray :=
  fst (filter_stages (pyln.filters m) (seq 0 (shape1 a)) a).

Definition num_blocks_nat (m : pyln.Meter) (a : ndarray) : nat :=
  match pyln.num_blocks m (shape0 a) with
  | Ok nb => Z.to_nat nb
  | Raise _ => 0%nat
  end.

Definition block_powers (m : pyln.Meter) (a : ndarray)
    : list (list float64) :=
  pyln.block_energies m (kweighted m a) (shape1 a) (num_blocks_nat m a).

(** The loudness of block [j] of [a] as the meter sees it. *)
Definition raw_block_loudness (m : pyln.Meter) (a : ndarray) (j : nat)
    : float64 :=
  pyln.block_loudness (block_powers m a) (shape1 a) j.

(** Adding [d] dB to a block loudness does not move it across the absolute
    gate, in either comparison the meter makes. *)
Definition gate_stable (l : float64) (d : R) : Prop :=
  fge (fadd l (Fin d)) pyln.Gamma_a = fge l pyln.Gamma_a
  /\ fgt (fadd l (Fin d)) pyln.Gamma_a = fgt l pyln.Gamma_a.

(** A gain of 6.02 dB, and a sample whose one-second block at 1 Hz measures
    -72 LUFS, below the absolute gate. *)
Definition gain_6dB : R := Rpower 10 (6.02 / 20).

Definition quiet_sample : R := Rpower 10 (-71.309 / 20) / K_shelf.

(** A two-block signal at 2 Hz with blocks of two seconds (four samples,
    hop of one sample): block 0 is samples 0..3, block 1 is samples 1..4.
    The first sample puts block 0 at -80 LUFS, the last one puts block 1
    at -20 LUFS. *)
Definition sample_for_lufs (l : R) : R :=
  2 * Rpower 10 ((l + 0.691) / 20) / K_shelf.

Definition two_block_signal : ndarray :=
  mono [sample_for_lufs (-80); 0; 0; 0; sample_for_lufs (-20)].

(** ** Frame conditions on the store *)

(** Every array of [h] is still there, unchanged, in [h']. *)
Definition unchanged_on (h h' : list ndarray) : Prop :=
  forall l, (l < length h)%nat -> nth_error h' l = nth_error h l.

(** A returned location is an array allocated after [h] was taken. *)
Definition fresh_result (h h' : list ndarray) (r : result loc) : Prop :=
  match r with
  | Ok l => (length h <= l < length h')%nat
  | Raise _ => True
  end.

(** ** The file-based path on array values *)

(** The frames [loudness_norm_file] hands to [f.write], as a function of
    the decoded input: the loudness gain computed from the meter's reading
    of the samples as read (default block size), then the peak
    normalisation of the gained samples. *)
Definition loudness_norm_file_value (a : ndarray) (rate : Z)
    (peak loudness : R) : result ndarray :=
  match measure {| pyln.rate := rate;
                   pyln.block_size := pyln.default_block_size |} a with
  | Raise e => Raise e
  | Ok L => peak_value (scale (pyln.loudness_gain L loudness) a) peak
  end.

(** ** Counters: distinct keys and positive counts *)

(** No two items have keys that compare equal with [==]. *)
Fixpoint distinct_keys (c : Counter) : Prop :=
  match c with
  | [] => True
  | (k, _) :: c' =>
      Forall (fun kv => feq k (fst kv) = false) c' /\ distinct_keys c'
  end.

Definition positive_counts (c : Counter) : Prop :=
  Forall (fun kv => (1 <= snd kv)%Z) c.

(** The frames with a negative frequency: they pass the test of the loop
    and [np.log2] maps them to NaN. *)
Definition negative_frames (f0 : list float64) : list float64 :=
  filter (fun i => flt i zero && negb (isinf i)) f0.

(** The items of a counter whose key is NaN. *)
Definition nan_items (c : Counter) : list (float64 * Z) :=
  filter (fun kv => isnan (fst kv)) c.

(** ** The [frequency] command *)

(** [counter[k] += n]. *)
Definition counter_add (c : Counter) (k : float64) (n : Z) : Counter :=
  counter_set c k (counter_get c k + n)%Z.

(** [Counter._keep_positive]: the items whose count is not [> 0] are
    deleted. *)
Definition keep_positive (c : Counter) : Counter :=
  filter (fun kv => (0 <? snd kv)%Z) c.

(** [counter += other], that is [Counter.__iadd__]:
<<
    for elem, count in other.items():
        self[elem] += count
    return self._keep_positive()
>> *)
Definition counter_iadd (c other : Counter) : Counter :=
  keep_positive
    (fold_left (fun acc kv => counter_add acc (fst kv) (snd kv)) other c).

(** Python's [sorted] is stable, with [reverse=True] as well.  The stable
    sort of a list is unique; it is computed here by insertion, [lt y x]
    telling that [y] sorts strictly before [x]. *)
Fixpoint insert_stable {A} (lt : A -> A -> bool) (x : A) (l : list A)
    : list A :=
  match l with
  | [] => [x]
  | y :: l' => if lt y x then y :: insert_stable lt x l' else x :: y :: l'
  end.

Definition sorted_stable {A} (lt : A -> A -> bool) (l : list A) : list A :=
  fold_right (insert_stable lt) [] l.

(** [sorted(counter.items(), key=lambda kv: kv[1], reverse=True)]. *)
Definition by_count_desc (y x : float64 * Z) : bool := (snd x <? snd y)%Z.

Definition sorted_by_count (c : Counter) : list (float64 * Z) :=
  sorted_stable by_count_desc c.

(** A list comprehension whose element expression can raise: the first
    exception ends it. *)
Fixpoint traverse {A B} (f : A -> result B) (l : list A) : result (list B) :=
  match l with
  | [] => Ok []
  | x :: l' =>
      match f x with
      | Raise e => Raise e
      | Ok y =>
          match traverse f l' with
          | Raise e => Raise e
          | Ok ys => Ok (y :: ys)
          end
      end
  end.

(** [xs.index(x)]: [ValueError] when [x] is not in the list. *)
Fixpoint index (x : string) (xs : list string) : result nat :=
  match xs with
  | [] => Raise ValueError
  | y :: xs' =>
      if String.eqb y x then Ok O
      else match index x xs' with
           | Raise e => Raise e
           | Ok n => Ok (S n)
           end
  end.

(** What the command shows: the lines it logs and the bar chart. *)
Inductive output : Type :=
  | InfoFound (n : nat)
  | InfoNote (note : string) (count : Z)
  | Plot (labels : list string) (heights : list Z).

(** The exceptions of the command: those of the routines it calls, and the
    [AttributeError] of an attribute access. *)
Inductive cli_exn : Type :=
  | Propagated (e : exn)
  | AttributeError.

Inductive outcome : Type :=
  | Returned
  | Raised (e : cli_exn).

(** [ProcessPoolExecutor(max_workers=num_workers)]: [ValueError] unless
    [max_workers > 0] (the further upper bound that applies on Windows is
    not modelled). *)
Definition ProcessPoolExecutor (max_workers : Z) : result unit :=
  if (max_workers <=? 0)%Z then Raise ValueError else Ok tt.

(** [notes.items()] where [notes] is a list: a list has no attribute
    [items]. *)
Definition list_items (notes : list (string * Z))
    : cli_exn + list (string * Z) :=
  inl AttributeError.

Section FrequencyCommand.

(** [list_files(input_dir, {".wav"}, recursive=recursive)], of
    [fish_audio_preprocess.utils.file]: the paths found. *)
Variable list_files : string -> bool -> list string.

Variable pitch_frequencies : string -> result (list float64).

(** [as_completed(tasks)]: the submitted tasks in the order in which they
    finish; a task is identified with its file. *)
Variable as_completed : list string -> list string.

(** [librosa.midi_to_note(midi, cents=...)] on a scalar. *)
Variable midi_to_note : bool -> float64 -> result string.

(** The collecting loop:
<<
    for task in tqdm(as_completed(tasks), ...):
        counter += task.result()
>>
    [task.result()] re-raises the exception of the task. *)
Fixpoint collect (tasks : list string) (counter : Counter) : result Counter :=
  match tasks with
  | [] => Ok counter
  | file :: tasks' =>
      match count_midi_from_file pitch_frequencies file with
      | Raise e => Raise e
      | Ok c => collect tasks' (counter_iadd counter c)
      end
  end.

(** [[(librosa.midi_to_note(x[0], cents=...), x[1]) for x in midi]]. *)
Definition to_notes (cents : bool) (midi : list (float64 * Z))
    : result (list (string * Z)) :=
  traverse (fun x => match midi_to_note cents (fst x) with
                     | Raise e => Raise e
                     | Ok note => Ok (note, snd x)
                     end) midi.

(** [librosa.midi_to_note(list(range(0, 300)), cents=True)]. *)
Definition key_notes : result (list string) :=
  traverse (midi_to_note true) (map (fun i => Fin (IZR i)) (range 300)).

(** [sorted(items, key=lambda kv: key_notes.index(kv[0]))]: the keys are
    computed first, in order. *)
Definition sorted_by_key_notes (kn : list string) (items : list (string * Z))
    : result (list (string * Z)) :=
  match traverse (fun kv => match index (fst kv) kn with
                            | Raise e => Raise e
                            | Ok n => Ok (n, kv)
                            end) items with
  | Raise e => Raise e
  | Ok keyed =>
      Ok (map snd (sorted_stable (fun y x => (fst y <? fst x)%nat) keyed))
  end.

(** [frequency(input_dir, recursive, visualize, num_workers, detail)]:
    what it shows, in order, and how it ends. *)
Definition frequency (input_dir : string) (recursive visualize : bool)
    (num_workers : Z) (detail : bool) : list output * outcome :=
  let files := list_files input_dir recursive in
  let found := [InfoFound (length files)] in
  match ProcessPoolExecutor num_workers with
  | Raise e => (found, Raised (Propagated e))
  | Ok _ =>
      match collect (as_completed files) [] with
      | Raise e => (found, Raised (Propagated e))
      | Ok counter =>
          let midi := sorted_by_count counter in
          match to_notes detail midi with
          | Raise e => (found, Raised (Propagated e))
          | Ok notes =>
              let shown :=
                if detail then found
                else found ++ map (fun nc => InfoNote (fst nc) (snd nc)) notes in
              if negb visualize then (shown, Returned)
              else
                match key_notes with
                | Raise e => (shown, Raised (Propagated e))
                | Ok kn =>
                    if negb detail then
                      match list_items notes with
                      | inl e => (shown, Raised e)
                      | inr items =>
                          match sorted_by_key_notes kn items with
                          | Raise e => (shown, Raised (Propagated e))
                          | Ok data =>
                              (shown ++ [Plot (map fst notes) (map snd data)],
                               Returned)
                          end
                      end
                    else (shown, Returned)
                end
          end
      end
  end.

End FrequencyCommand.

(** The pitch frames of the listed files, one file after the other; a file
    whose analysis fails contributes none. *)
Definition all_frames (pitch_frequencies : string -> result (list float64))
    (files : list string) : list float64 :=
  concat (map (fun f => match pitch_frequencies f with
                        | Ok f0 => f0
                        | Raise _ => []
                        end) files).

(** ** The gating procedure as the specification words it

    Section 4.3 of the specification, on the block powers [z] of [c]
    channels and [nb] blocks: the absolute gate discards the blocks whose
    loudness is below -70 LUFS; the relative gate discards, further, the
    blocks below the loudness of the mean power of the survivors minus 10;
    the result is the loudness of the mean power of the blocks that survive
    both gates, and [-inf] when none does.  A block is discarded when it is
    below a threshold, so a block exactly on a threshold survives. *)

Definition spec_absolute_survivors (z : list (list float64)) (c nb : nat)
    : list nat :=
  filter (fun j => negb (flt (pyln.block_loudness z c j) (Fin (-70))))
         (seq 0 nb).

Definition spec_relative_threshold (z : list (list float64)) (c nb : nat)
    : float64 :=
  fsub (pyln.loudness_of c
          (fun i => mean (map (fun j => pyln.z_at z i j)
                              (spec_absolute_survivors z c nb))))
       (Fin 10).

Definition spec_survivors (z : list (list float64)) (c nb : nat) : list nat :=
  filter (fun j =>
            negb (flt (pyln.block_loudness z c j) (Fin (-70)))
            && negb (flt (pyln.block_loudness z c j)
                         (spec_relative_threshold z c nb)))
         (seq 0 nb).

Definition spec_gated_loudness (z : list (list float64)) (c nb : nat)
    : float64 :=
  match spec_survivors z c nb with
  | [] => NInf
  | J => pyln.loudness_of c (fun i => mean (map (fun j => pyln.z_at z i j) J))
  end.

(** The procedure on the block powers the meter computes from [a]. *)
Definition spec_integrated_loudness (a : ndarray) (rate : Z) (block_size : R)
    : float64 :=
  let m := {| pyln.rate := rate; pyln.block_size := block_size |} in
  spec_gated_loudness (block_powers m a) (shape1 a) (num_blocks_nat m a).

(** A sample whose one-second block at 1 Hz measures exactly -70 LUFS. *)
Definition gate_sample : R := Rpower 10 (-69.309 / 20) / K_shelf.

(** ** The output file on a container that can fail and that encodes *)

(** Lines 42-48 of [loudness_norm_file]: the part of the [try] body that
    runs before the output is opened.  It returns the array to be written
    and the sample rate of the input. *)
Definition loudness_norm_file_buffer (input_file : string)
    (peak loudness : R) : M (loc * Z) :=
  ar <- sf.read input_file ;;
  let '(audio, rate) := ar in
  meter <- pyln.new_Meter rate pyln.default_block_size ;;
  loudness_pre <- pyln.integrated_loudness meter audio ;;
  audio <- pyln.normalize_loudness audio loudness_pre loudness ;;
  audio <- pyln.normalize_peak audio peak ;;
  ret (audio, rate).

(** What libsndfile does behind [sf.SoundFile(path, "w", ...)] and
    [f.write], as far as the caller can tell.

    - [open_error path samplerate channels]: the exception that
      [sf.SoundFile(path, "w", samplerate=..., channels=...)] raises, if
      any (no format known for the extension, a path that cannot be
      created, a rate or channel count the format rejects), and whether the
      file was created or truncated all the same.
    - [write_error path c chunk]: the exception that [f.write(chunk)]
      raises, if any, on the file whose contents so far are [c], and the
      number of frames of the chunk that were stored before it.
    - [stored path x]: what a reader of the file gets back for a sample [x]
      handed to [f.write].  The source passes no [subtype], so the samples
      are stored in the default subtype of the format chosen by the
      extension: 16-bit integers for a .wav file, which quantises and clips
      and has no NaN. *)
Record container : Type := {
  output_exn : Type;
  open_error : string -> Z -> nat -> option (output_exn * bool);
  write_error : string -> sound_file -> ndarray -> option (output_exn * nat);
  stored : string -> float64 -> float64
}.

(** A container on which nothing fails and every sample is stored as it is
    handed over (a floating-point subtype).  [sf.open_w] and [sf.write]
    above are soundfile on this container. *)
Definition lossless : container :=
  {| output_exn := Empty_set;
     open_error := fun _ _ _ => None;
     write_error := fun _ _ _ => None;
     stored := fun _ x => x |}.

Definition encode (k : container) (path : string) (frames : ndarray)
    : ndarray :=
  map (map (stored k path)) frames.

Definition extend (k : container) (path : string) (c : sound_file)
    (frames : ndarray) : sound_file :=
  {| sf_frames := sf_frames c ++ encode k path frames;
     sf_samplerate := sf_samplerate c |}.

(** The writing loop on the open file, whose contents so far are [c]:
<<
    for i in range(0, len(audio), chunk_size):
        chunk = audio[i : i + chunk_size]
        f.write(chunk)
>>
    with the disk after it and the exception that ended it, if any. *)
Fixpoint write_chunks (k : container) (path : string) (c : sound_file)
    (chunks : list ndarray) (F : list (string * sound_file))
    : list (string * sound_file) * option (output_exn k) :=
  match chunks with
  | [] => (F, None)
  | chunk :: chunks' =>
      match write_error k path c chunk with
      | Some (e, n) =>
          ((path, extend k path c (firstn n chunk)) :: F, Some e)
      | None =>
          write_chunks k path (extend k path c chunk) chunks'
            ((path, extend k path c chunk) :: F)
      end
  end.

(** How a call ends: normally, with an exception of the computation, or
    with an exception of soundfile's output side.  The [except] clause
    prints the exception and re-raises it. *)
Inductive ended (E : Type) : Type :=
  | Completed
  | Raising (e : exn)
  | RaisingOutput (e : E).

Arguments Completed {E}.
Arguments Raising {E} e.
Arguments RaisingOutput {E} e.

(** [loudness_norm_file(input_file, output_file, peak, loudness,
    block_size)] on the container [k].  The channel count passed to
    [sf.SoundFile] is the width of the array. *)
Definition loudness_norm_file_on (k : container)
    (input_file output_file : string) (peak loudness block_size : R)
    : world -> world * ended (output_exn k) :=
  fun w =>
    match loudness_norm_file_buffer input_file peak loudness w with
    | (w1, Raise e) => (w1, Raising e)
    | (w1, Ok (audio, rate)) =>
        match nth_error (heap w1) audio with
        | None => (w1, Raising RuntimeError)
        | Some a =>
            let c0 := {| sf_frames := []; sf_samplerate := rate |} in
            match open_error k output_file rate (shape1 a) with
            | Some (e, created) =>
                ({| heap := heap w1;
                    files := if created then (output_file, c0) :: files w1
                             else files w1 |},
                 RaisingOutput e)
            | None =>
                let '(F, r) :=
                  write_chunks k output_file c0
                    (map (fun i => slice i (i + chunk_size) a)
                         (range_step (Z.of_nat (length a)) chunk_size))
                    ((output_file, c0) :: files w1) in
                ({| heap := heap w1; files := F |},
                 match r with
                 | None => Completed
                 | Some e => RaisingOutput e
                 end)
            end
        end
    end.

(** * Lemmas *)

Unset Implicit Arguments.

(** ** Comparisons *)

Lemma Rleb_true x y : x <= y -> Rleb x y = true.
Proof. intros H; unfold Rleb; destruct (Rle_dec x y); [reflexivity | contradiction]. Qed.

Lemma Rleb_false x y : y < x -> Rleb x y = false.
Proof. intros H; unfold Rleb; destruct (Rle_dec x y); [lra | reflexivity]. Qed.

Lemma Rltb_true x y : x < y -> Rltb x y = true.
Proof. intros H; unfold Rltb; destruct (Rlt_dec x y); [reflexivity | contradiction]. Qed.

Lemma Rltb_false x y : y <= x -> Rltb x y = false.
Proof. intros H; unfold Rltb; destruct (Rlt_dec x y); [lra | reflexivity]. Qed.

Lemma Reqb_true x y : x = y -> Reqb x y = true.
Proof. intros H; unfold Reqb; destruct (Req_dec_T x y); [reflexivity | contradiction]. Qed.

Lemma Reqb_false x y : x <> y -> Reqb x y = false.
Proof. intros H; unfold Reqb; destruct (Req_dec_T x y); [contradiction | reflexivity]. Qed.

Lemma Reqb_spec x y : Reqb x y = true <-> x = y.
Proof. unfold Reqb; destruct (Req_dec_T x y); split; intros; try easy. Qed.

(** ** The store *)

Lemma nth_error_snoc A (h : list A) (a : A) :
  nth_error (h ++ [a]) (length h) = Some a.
Proof. rewrite nth_error_app2, Nat.sub_diag by lia. reflexivity. Qed.

Lemma set_nth_snoc A (h : list A) (a b : A) :
  set_nth (length h) b (h ++ [a]) = h ++ [b].
Proof. induction h as [|x h IH]; simpl; [reflexivity | now rewrite IH]. Qed.

Lemma nth_error_old A (h t : list A) (l : nat) :
  (l < length h)%nat -> nth_error (h ++ t) l = nth_error h l.
Proof. intros H; now apply nth_error_app1. Qed.

(** ** Shapes *)

Lemma concat_scale_nil g a : concat (scale g a) = [] <-> concat a = [].
Proof.
  unfold scale. induction a as [|f a IH]; simpl; [tauto|].
  destruct f; simpl; [exact IH | split; discriminate].
Qed.

Lemma amax_abs_ok_iff a : (exists p, amax_abs a = Ok p) <-> concat a <> [].
Proof.
  unfold amax_abs. destruct (concat a) as [|x l]; simpl; split.
  - intros [p H]; discriminate.
  - intros H; now elim H.
  - intros _; discriminate.
  - intros _; eexists; reflexivity.
Qed.

Lemma amax_abs_scale_ok g a p :
  amax_abs a = Ok p -> exists q, amax_abs (scale g a) = Ok q.
Proof.
  intros H. apply amax_abs_ok_iff. rewrite concat_scale_nil.
  apply amax_abs_ok_iff. eauto.
Qed.

Lemma shape0_scale g a : shape0 (scale g a) = shape0 a.
Proof. unfold shape0, scale. now rewrite length_map. Qed.

Lemma shape1_scale g a : shape1 (scale g a) = shape1 a.
Proof. destruct a; simpl; [reflexivity | now rewrite length_map]. Qed.

(** ** Running the library routines *)

Lemma normalize_peak_run (h : list ndarray) F data (d : ndarray) target :
  nth_error h data = Some d ->
  pyln.normalize_peak data target {| heap := h; files := F |} =
  match peak_value d target with
  | Raise e => ({| heap := h; files := F |}, Raise e)
  | Ok a1 => ({| heap := h ++ [a1]; files := F |}, Ok (length h))
  end.
Proof.
  intros Hd. unfold pyln.normalize_peak, peak_value, bind, load, lift, alloc, ret.
  simpl. rewrite Hd. destruct (amax_abs d) as [p|e] eqn:Hp; [|reflexivity].
  destruct (amax_abs_scale_ok (pyln.peak_gain p target) _ _ Hp) as [q Hq].
  now rewrite Hq.
Qed.

Lemma normalize_loudness_run (h : list ndarray) F data (d : ndarray) L target :
  nth_error h data = Some d -> concat d <> [] ->
  pyln.normalize_loudness data L target {| heap := h; files := F |} =
  ({| heap := h ++ [scale (pyln.loudness_gain L target) d]; files := F |},
   Ok (length h)).
Proof.
  intros Hd Hne. unfold pyln.normalize_loudness, bind, load, lift, alloc, ret.
  cbn [heap files]. rewrite Hd.
  apply amax_abs_ok_iff in Hne. destruct Hne as [p Hp].
  destruct (amax_abs_scale_ok (pyln.loudness_gain L target) _ _ Hp) as [q Hq].
  now rewrite Hq.
Qed.

Lemma filter_channel_run (h : list ndarray) F (d : ndarray) f ch :
  pyln.filter_channel (length h) f ch {| heap := h ++ [d]; files := F |} =
  match pyln.apply_filter f (col ch d) with
  | Raise e => ({| heap := h ++ [d]; files := F |}, Raise e)
  | Ok y => ({| heap := h ++ [set_col ch y d]; files := F |}, Ok tt)
  end.
Proof.
  unfold pyln.filter_channel, bind, load, lift, store. simpl.
  rewrite nth_error_snoc.
  destruct (pyln.apply_filter f (col ch d)); [|reflexivity].
  cbn [heap files]. now rewrite set_nth_snoc.
Qed.

Lemma filter_channels_run (h : list ndarray) F f chs : forall d : ndarray,
  for_each chs (pyln.filter_channel (length h) f)
    {| heap := h ++ [d]; files := F |} =
  ({| heap := h ++ [fst (filter_channels f chs d)]; files := F |},
   snd (filter_channels f chs d)).
Proof.
  induction chs as [|ch chs IH]; intros d; simpl; [reflexivity|].
  unfold bind. rewrite filter_channel_run.
  destruct (pyln.apply_filter f (col ch d)); [apply IH | reflexivity].
Qed.

Lemma filter_stages_run (h : list ndarray) F chs fs : forall d : ndarray,
  for_each fs
    (fun f => for_each chs (pyln.filter_channel (length h) f))
    {| heap := h ++ [d]; files := F |} =
  ({| heap := h ++ [fst (filter_stages fs chs d)]; files := F |},
   snd (filter_stages fs chs d)).
Proof.
  induction fs as [|f fs IH]; intros d; simpl; [reflexivity|].
  unfold bind. rewrite filter_channels_run.
  destruct (filter_channels f chs d) as [d' [[]|e]]; simpl; [apply IH | reflexivity].
Qed.

Lemma integrated_loudness_run (h : list ndarray) F m data (d : ndarray) :
  nth_error h data = Some d ->
  pyln.integrated_loudness m data {| heap := h; files := F |} =
  ({| heap := h ++ [fst (measure_copy m d)]; files := F |},
   snd (measure_copy m d)).
Proof.
  intros Hd. unfold pyln.integrated_loudness, measure_copy.
  unfold bind at 1. unfold load at 1. cbn [heap files]. rewrite Hd.
  unfold bind at 1. unfold alloc at 1. cbn [heap files].
  unfold bind at 1. unfold lift at 1.
  destruct (pyln.valid_audio d (pyln.rate m) (pyln.block_size m)) as [[]|e];
    [|reflexivity].
  unfold bind at 1. rewrite filter_stages_run.
  destruct (filter_stages (pyln.filters m) (seq 0 (shape1 d)) d)
    as [d' [[]|e]]; cbn [fst snd]; [|reflexivity].
  unfold bind at 1. unfold lift at 1.
  destruct (pyln.num_blocks m (shape0 d)) as [nb|e]; [|reflexivity].
  destruct (nb <? 0)%Z; [reflexivity|].
  unfold bind, load, ret. cbn [heap files]. now rewrite nth_error_snoc.
Qed.

Lemma peak_value_nonempty d target a1 :
  peak_value d target = Ok a1 -> concat a1 <> [].
Proof.
  unfold peak_value. destruct (amax_abs d) as [p|e] eqn:Hp; [|discriminate].
  intros H; injection H as <-. rewrite concat_scale_nil.
  apply amax_abs_ok_iff; eauto.
Qed.

(** [loudness_norm] run from a store [h] in which [audio0] holds [a]: the
    arrays it allocates, in order, are the peak-normalised array, the
    meter's private copy and the returned array. *)
Lemma loudness_norm_run (h : list ndarray) F audio0 (a : ndarray)
    rate peak loudness block_size :
  nth_error h audio0 = Some a ->
  loudness_norm audio0 rate peak loudness block_size
    {| heap := h; files := F |} =
  match peak_value a peak with
  | Raise e => ({| heap := h; files := F |}, Raise e)
  | Ok a1 =>
      let mc := measure_copy
                  {| pyln.rate := rate; pyln.block_size := block_size |} a1 in
      match snd mc with
      | Raise e => ({| heap := h ++ [a1; fst mc]; files := F |}, Raise e)
      | Ok L =>
          ({| heap := h ++ [a1; fst mc;
                            scale (pyln.loudness_gain L loudness) a1];
              files := F |},
           Ok (length h + 2)%nat)
      end
  end.
Proof.
  intros Ha. unfold loudness_norm.
  unfold bind at 1. rewrite (@normalize_peak_run h F audio0 a peak Ha).
  destruct (peak_value a peak) as [a1|e] eqn:Hp; [|reflexivity].
  unfold bind at 1. unfold pyln.new_Meter, ret at 1.
  unfold bind at 1.
  rewrite (@integrated_loudness_run (h ++ [a1]) F _ (length h) a1)
    by apply nth_error_snoc.
  cbv zeta.
  destruct (snd (measure_copy _ a1)) as [L|e] eqn:HL.
  - rewrite (@normalize_loudness_run _ F (length h) a1).
    + rewrite <- !app_assoc. cbn [app].
      rewrite length_app. reflexivity.
    + rewrite <- app_assoc. cbn [app]. rewrite nth_error_app2 by lia.
      now rewrite Nat.sub_diag.
    + eapply peak_value_nonempty; eauto.
  - rewrite <- !app_assoc. reflexivity.
Qed.

Lemma call_loudness_norm_eq a rate peak loudness block_size :
  call_loudness_norm a rate peak loudness block_size =
  loudness_norm_value a rate peak loudness block_size.
Proof.
  unfold call_loudness_norm, loudness_norm_value, initial_world, measure.
  rewrite (@loudness_norm_run [a] [] 0%nat a) by reflexivity.
  destruct (peak_value a peak) as [a1|e]; [|reflexivity].
  cbv zeta.
  destruct (snd (measure_copy _ a1)) as [L|e]; reflexivity.
Qed.

Lemma measured_loudness_eq a rate peak block_size :
  measured_loudness a rate peak block_size =
  match peak_value a peak with
  | Raise e => Raise e
  | Ok a1 =>
      measure {| pyln.rate := rate; pyln.block_size := block_size |} a1
  end.
Proof.
  unfold measured_loudness, initial_world, measure.
  unfold bind at 1.
  rewrite (@normalize_peak_run [a] [] 0%nat a) by reflexivity.
  destruct (peak_value a peak) as [a1|e]; [|reflexivity].
  unfold bind at 1. unfold pyln.new_Meter, ret at 1.
  rewrite (@integrated_loudness_run ([a] ++ [a1]) [] _ 1%nat a1) by reflexivity.
  reflexivity.
Qed.

Lemma call_integrated_loudness_eq a rate block_size :
  call_integrated_loudness a rate block_size =
  measure {| pyln.rate := rate; pyln.block_size := block_size |} a.
Proof.
  unfold call_integrated_loudness, initial_world, measure.
  now rewrite (@integrated_loudness_run [a] [] _ 0%nat a) by reflexivity.
Qed.

(** ** Rounding *)

Lemma round_half_even_bounds x :
  x - / 2 <= IZR (round_half_even x) <= x + / 2.
Proof.
  unfold round_half_even. pose proof (Zfloor_bound x) as [Hl Hu].
  unfold Rltb.
  destruct (Rlt_dec (x - IZR (Zfloor x)) (/ 2)) as [H1|H1]; [lra|].
  destruct (Rlt_dec (/ 2) (x - IZR (Zfloor x))) as [H2|H2].
  - rewrite plus_IZR. lra.
  - destruct (Z.even (Zfloor x)); [|rewrite plus_IZR]; lra.
Qed.

Lemma round_half_even_IZR z : round_half_even (IZR z) = z.
Proof.
  unfold round_half_even. rewrite ZfloorZ.
  rewrite Rltb_true; [reflexivity | lra].
Qed.

Lemma trunc_eq z x : (0 <= z)%Z -> IZR z <= x < IZR z + 1 -> trunc x = z.
Proof.
  intros Hz Hx. unfold trunc. apply IZR_le in Hz.
  rewrite Rleb_true by lra. now apply Zfloor_eq.
Qed.

(** ** The meter rejects parameters of opposite sign or zero *)

Lemma num_blocks_negative m n nb :
  IZR (pyln.rate m) * pyln.block_size m < 0 ->
  pyln.num_blocks m n = Ok nb -> (nb < 0)%Z.
Proof.
  intros Hneg. unfold pyln.num_blocks.
  destruct (pyln.rate m =? 0)%Z eqn:Hr; [discriminate|].
  destruct (Reqb (pyln.block_size m * pyln.step) 0); [discriminate|].
  intros H; injection H as <-.
  set (x := (INR n / IZR (pyln.rate m) - pyln.block_size m) /
            (pyln.block_size m * pyln.step)).
  assert (Hx : x <= -4).
  { unfold x, pyln.step.
    set (r := IZR (pyln.rate m)) in *. set (b := pyln.block_size m) in *.
    assert (Hr0 : r <> 0) by (intros E; rewrite E in Hneg; lra).
    assert (Hb0 : b <> 0) by (intros E; rewrite E in Hneg; lra).
    replace (1 - 0.75) with (/ 4) by lra.
    replace ((INR n / r - b) / (b * / 4))
      with (4 * (INR n / (r * b)) - 4) by (field; split; assumption).
    assert (Hn : 0 <= INR n) by apply pos_INR.
    assert (Hq : INR n / (r * b) <= 0).
    { unfold Rdiv. assert (/ (r * b) < 0) by now apply Rinv_lt_0_compat.
      nra. }
    lra. }
  pose proof (round_half_even_bounds x) as [_ Hu].
  apply lt_IZR. rewrite plus_IZR. lra.
Qed.

Lemma measure_rejects m d :
  IZR (pyln.rate m) * pyln.block_size m <= 0 ->
  exists e, measure m d = Raise e.
Proof.
  intros Hle. unfold measure, measure_copy.
  destruct (pyln.valid_audio d (pyln.rate m) (pyln.block_size m)) as [[]|e];
    [|eexists; reflexivity].
  destruct (filter_stages (pyln.filters m) (seq 0 (shape1 d)) d)
    as [d' [[]|e]]; [|eexists; reflexivity].
  cbn [snd].
  destruct (pyln.num_blocks m (shape0 d)) as [nb|e] eqn:Hnb;
    [|eexists; reflexivity].
  destruct (Rle_lt_or_eq_dec _ _ Hle) as [Hlt|Heq].
  - apply (num_blocks_negative _ _ _ Hlt) in Hnb.
    apply Z.ltb_lt in Hnb. rewrite Hnb. eexists; reflexivity.
  - exfalso. unfold pyln.num_blocks in Hnb.
    destruct (pyln.rate m =? 0)%Z eqn:Hr; [discriminate|].
    apply Z.eqb_neq in Hr.
    assert (IZR (pyln.rate m) <> 0) by (intros E; apply Hr; now apply eq_IZR).
    assert (Hb : pyln.block_size m = 0).
    { apply Rmult_integral in Heq. tauto. }
    rewrite Hb, Rmult_0_l, Reqb_true in Hnb by reflexivity. discriminate.
Qed.

(** ** The meter accepts every long-enough buffer under positive parameters *)

Lemma generate_coefficients_ok f :
  pyln.flt_rate f <> 0%Z -> exists c, pyln.generate_coefficients f = Ok c.
Proof.
  intros H. unfold pyln.generate_coefficients.
  apply Z.eqb_neq in H. rewrite H.
  destruct (pyln.flt_type f); eexists; reflexivity.
Qed.

Lemma apply_filter_ok f x :
  pyln.flt_rate f <> 0%Z -> exists y, pyln.apply_filter f x = Ok y.
Proof.
  intros H. unfold pyln.apply_filter.
  destruct (generate_coefficients_ok f H) as [c ->]. eexists; reflexivity.
Qed.

Lemma filter_channels_ok f chs :
  pyln.flt_rate f <> 0%Z ->
  forall d, snd (filter_channels f chs d) = Ok tt.
Proof.
  intros H. induction chs as [|ch chs IH]; intros d; simpl; [reflexivity|].
  destruct (apply_filter_ok f (col ch d) H) as [y ->]. apply IH.
Qed.

Lemma filter_stages_ok fs chs :
  Forall (fun f => pyln.flt_rate f <> 0%Z) fs ->
  forall d, snd (filter_stages fs chs d) = Ok tt.
Proof.
  induction 1 as [|f fs Hf _ IH]; intros d; simpl; [reflexivity|].
  pose proof (filter_channels_ok f chs Hf d) as Hs.
  destruct (filter_channels f chs d) as [d' r]. simpl in Hs. subst r.
  apply IH.
Qed.

Lemma filters_rate m :
  pyln.rate m <> 0%Z ->
  Forall (fun f => pyln.flt_rate f <> 0%Z) (pyln.filters m).
Proof. intros H. unfold pyln.filters. repeat constructor; exact H. Qed.

Lemma num_blocks_positive m n :
  0 < IZR (pyln.rate m) -> 0 < pyln.block_size m ->
  pyln.block_size m * IZR (pyln.rate m) <= INR n ->
  exists nb, pyln.num_blocks m n = Ok nb /\ (1 <= nb)%Z.
Proof.
  intros Hr Hb Hn. unfold pyln.num_blocks.
  assert (Hr0 : (pyln.rate m =? 0)%Z = false).
  { apply Z.eqb_neq. intros E. rewrite E in Hr. lra. }
  rewrite Hr0. unfold pyln.step.
  rewrite Reqb_false by nra.
  eexists; split; [reflexivity|].
  set (x := (INR n / IZR (pyln.rate m) - pyln.block_size m) /
            (pyln.block_size m * (1 - 0.75))).
  assert (Hx : 0 <= x).
  { unfold x. apply Rmult_le_pos.
    - assert (pyln.block_size m <= INR n / IZR (pyln.rate m)).
      { apply Rmult_le_reg_r with (IZR (pyln.rate m)); [assumption|].
        unfold Rdiv. rewrite Rmult_assoc, Rinv_l by lra. lra. }
      lra.
    - left. apply Rinv_0_lt_compat. nra. }
  pose proof (round_half_even_bounds x) as [Hl _].
  assert (-1 < IZR (round_half_even x)) by lra.
  apply lt_IZR in H. lia.
Qed.

Lemma measure_ok_iff m d :
  0 < IZR (pyln.rate m) -> 0 < pyln.block_size m ->
  (exists L, measure m d = Ok L) <->
  (shape1 d <= 5)%nat /\
  pyln.block_size m * IZR (pyln.rate m) <= INR (shape0 d).
Proof.
  intros Hr Hb. unfold measure, measure_copy, pyln.valid_audio.
  assert (Hr0 : pyln.rate m <> 0%Z) by (intros E; rewrite E in Hr; lra).
  destruct (5 <? shape1 d)%nat eqn:Hc.
  { apply Nat.ltb_lt in Hc. split; [intros [L H]; discriminate | lia]. }
  apply Nat.ltb_ge in Hc.
  unfold Rltb.
  destruct (Rlt_dec (INR (shape0 d)) (pyln.block_size m * IZR (pyln.rate m)))
    as [Hs|Hs].
  { split; [intros [L H]; discriminate | lra]. }
  pose proof (filter_stages_ok _ (seq 0 (shape1 d)) (filters_rate m Hr0) d) as Hf.
  destruct (filter_stages (pyln.filters m) (seq 0 (shape1 d)) d) as [d' r].
  simpl in Hf. subst r. cbn [snd].
  destruct (@num_blocks_positive m (shape0 d) Hr Hb) as [nb [-> Hnb]]; [lra|].
  assert (Hnb' : (nb <? 0)%Z = false) by (apply Z.ltb_ge; lia).
  rewrite Hnb'. split; [intros _; split; [assumption | lra] | intros _; eauto].
Qed.

Lemma peak_value_shape d target a1 :
  peak_value d target = Ok a1 -> shape0 a1 = shape0 d /\ shape1 a1 = shape1 d.
Proof.
  unfold peak_value. destruct (amax_abs d); [|discriminate].
  intros H; injection H as <-. split; [apply shape0_scale | apply shape1_scale].
Qed.

Lemma peak_value_ok_iff d target :
  (exists a1, peak_value d target = Ok a1) <-> concat d <> [].
Proof.
  rewrite <- amax_abs_ok_iff. unfold peak_value.
  destruct (amax_abs d) as [p|e]; split; intros [x H]; try discriminate; eauto.
Qed.

(** ** Short buffers *)

Lemma measure_short m d :
  (shape1 d <= 5)%nat ->
  INR (shape0 d) < pyln.block_size m * IZR (pyln.rate m) ->
  measure_copy m d = (d, Raise ValueError).
Proof.
  intros Hc Hs. unfold measure_copy, pyln.valid_audio.
  apply Nat.ltb_ge in Hc. rewrite Hc. now rewrite Rltb_true.
Qed.

Example short_buffer_raises :
  call_loudness_norm [[Fin 1]] 2 default_peak default_loudness 1
  = Raise ValueError.
Proof.
  rewrite call_loudness_norm_eq. unfold loudness_norm_value, peak_value.
  cbn [amax_abs concat app map].
  unfold measure. rewrite measure_short; [reflexivity | cbn; lia | cbn; lra].
Qed.

(** ** Powers of ten and decibels *)

Lemma pow10_pos y : 0 < Rpower 10 y.
Proof. unfold Rpower. apply exp_pos. Qed.

Lemma ln10_pos : 0 < ln 10.
Proof. rewrite <- ln_1. apply ln_increasing; lra. Qed.

Lemma log10_pow10 y : ln (Rpower 10 y) / ln 10 = y.
Proof. rewrite ln_Rpower. field. pose proof ln10_pos. lra. Qed.

Lemma log10_nonneg x : 1 <= x -> 0 <= ln x / ln 10.
Proof.
  intros H. pose proof ln10_pos.
  apply Rmult_le_pos; [|left; now apply Rinv_0_lt_compat].
  destruct H as [H | <-]; [|rewrite ln_1; lra].
  left. rewrite <- ln_1. apply ln_increasing; lra.
Qed.

Lemma pow10_le_1 y : y <= 0 -> Rpower 10 y <= 1.
Proof.
  intros H. rewrite <- (Rpower_O 10) by lra.
  destruct H as [H | ->]; [left; apply Rpower_lt; lra | lra].
Qed.

Lemma pow10_ge_1 y : 0 <= y -> 1 <= Rpower 10 y.
Proof.
  intros H. rewrite <- (Rpower_O 10) at 1 by lra.
  destruct H as [H | <-]; [left; apply Rpower_lt; lra | lra].
Qed.

(** ** Peak normalisation of a single finite sample *)

Lemma peak_value_single x target :
  x <> 0 ->
  peak_value [[Fin x]] target
  = Ok [[Fin (Rpower 10 (target / 20) / Rabs x * x)]].
Proof.
  intros Hx. unfold peak_value, pyln.peak_gain. cbn.
  rewrite Reqb_false; [reflexivity | now apply Rabs_no_R0].
Qed.

Lemma peak_value_one target :
  peak_value [[Fin 1]] target = Ok [[Fin (Rpower 10 (target / 20))]].
Proof.
  rewrite peak_value_single by lra. rewrite Rabs_R1.
  do 4 f_equal. field.
Qed.

(** ** A zero sample rate *)

Lemma measure_copy_rate_zero m d :
  pyln.rate m = 0%Z -> (1 <= shape1 d <= 5)%nat ->
  measure_copy m d = (d, Raise ZeroDivisionError).
Proof.
  intros Hr [Hc1 Hc5]. unfold measure_copy, pyln.valid_audio.
  apply Nat.ltb_ge in Hc5. rewrite Hc5, Hr.
  rewrite Rltb_false by (rewrite Rmult_0_r; apply pos_INR).
  destruct (shape1 d) as [|c]; [lia|].
  cbn [seq pyln.filters filter_stages filter_channels].
  unfold pyln.apply_filter, pyln.generate_coefficients.
  cbn [pyln.flt_rate]. rewrite Hr. reflexivity.
Qed.

Lemma loudness_norm_dangling (h : list ndarray) F audio0
    rate peak loudness block_size :
  nth_error h audio0 = None ->
  loudness_norm audio0 rate peak loudness block_size
    {| heap := h; files := F |} =
  ({| heap := h; files := F |}, Raise RuntimeError).
Proof.
  intros Ha. unfold loudness_norm, pyln.normalize_peak, bind, load.
  cbv beta. cbn [heap files]. now rewrite Ha.
Qed.

(** * The claims *)

(** ** C9 *)

(** C9 (loudness_norm never mutates its input).  Whatever the store, the
    arguments and the outcome, every array that existed before the call
    (the caller's [audio0] among them) holds the same samples afterwards,
    no file is touched, and a returned array is a location allocated during
    the call, hence different from [audio0] and from every earlier array. *)
Theorem loudness_norm_preserves_input :
  forall (w : world) (audio0 : loc) (rate : Z) (peak loudness block_size : R),
    let run := loudness_norm audio0 rate peak loudness block_size w in
    unchanged_on (heap w) (heap (fst run))
    /\ files (fst run) = files w
    /\ fresh_result (heap w) (heap (fst run)) (snd run)
    /\ (forall out, snd run = Ok out -> out <> audio0).
Proof.
  intros [h F] audio0 rate peak loudness block_size run.
  assert (Hun : forall t, unchanged_on h (h ++ t)).
  { intros t l Hl. now apply nth_error_old. }
  assert (Hun0 : unchanged_on h h) by (intros l _; reflexivity).
  destruct (nth_error h audio0) as [a|] eqn:Ha.
  - assert (Hlt : (audio0 < length h)%nat).
    { apply nth_error_Some. rewrite Ha. discriminate. }
    subst run. rewrite (loudness_norm_run h F audio0 a _ _ _ _ Ha).
    destruct (peak_value a peak) as [a1|e]; cbn [fst snd heap files].
    + cbv zeta.
      destruct (snd (measure_copy _ a1)) as [L|e]; cbn [fst snd heap files].
      * split; [apply Hun|]. split; [reflexivity|]. split.
        -- cbn [fresh_result]. rewrite length_app. cbn [length]. lia.
        -- intros out H; injection H as <-. lia.
      * split; [apply Hun|]. split; [reflexivity|]. split; [exact I|].
        intros out H; discriminate.
    + split; [exact Hun0|]. split; [reflexivity|]. split; [exact I|].
      intros out H; discriminate.
  - subst run. rewrite (loudness_norm_dangling h F audio0 _ _ _ _ Ha).
    cbn [fst snd heap files].
    split; [exact Hun0|]. split; [reflexivity|]. split; [exact I|].
    intros out H; discriminate.
Qed.

(** ** C4 *)

(** C4, counterexample.  With [rate = 0] and the default targets, the call
    on the one-sample buffer [[1.0]] does fail, but only inside the meter:
    by then the peak gain [10^(-1/20)] has been computed and applied, and
    the store holds the peak-normalised array next to the untouched
    input. *)
Lemma zero_rate_fails_after_peak_gain :
  let run := loudness_norm 0%nat 0 default_peak default_loudness
               default_block_size (initial_world [[Fin 1]]) in
  snd run = Raise ZeroDivisionError
  /\ nth_error (heap (fst run)) 0 = Some [[Fin 1]]
  /\ nth_error (heap (fst run)) 1
     = Some [[Fin (Rpower 10 (default_peak / 20))]]
  /\ heap (fst run) <> heap (initial_world [[Fin 1]]).
Proof.
  cbv zeta. unfold initial_world.
  rewrite (loudness_norm_run [ [[Fin 1]] ] [] 0%nat [[Fin 1]]) by reflexivity.
  rewrite peak_value_one. cbv zeta.
  rewrite measure_copy_rate_zero by (cbn; try reflexivity; lia).
  cbn [fst snd heap app].
  split; [reflexivity|]. split; [reflexivity|]. split; [reflexivity|].
  discriminate.
Qed.

(** C4, as amended.  [loudness_norm] validates nothing up front.  On a
    non-empty buffer with [rate <= 0] or [block_size <= 0], the first thing
    it does is peak normalisation: the peak gain is computed and applied
    into a new array (location 1), the input (location 0) staying as it
    was.  Unless both parameters are negative the call then fails inside
    the meter, returning no buffer (with both negative it can return, see
    [negative_parameters_accepted]). *)
Theorem nonpositive_parameters_fail_after_peak :
  forall (a : ndarray) (rate : Z) (peak loudness block_size : R),
    concat a <> [] ->
    (rate <= 0)%Z \/ block_size <= 0 ->
    let run := loudness_norm 0%nat rate peak loudness block_size
                 (initial_world a) in
    nth_error (heap (fst run)) 0 = Some a
    /\ (exists a1, peak_value a peak = Ok a1
                   /\ nth_error (heap (fst run)) 1 = Some a1)
    /\ (~ ((rate < 0)%Z /\ block_size < 0) -> exists e, snd run = Raise e).
Proof.
  intros a rate peak loudness block_size Hne Hinv run. subst run.
  unfold initial_world.
  rewrite (loudness_norm_run [a] [] 0%nat a) by reflexivity.
  destruct (proj2 (peak_value_ok_iff a peak) Hne) as [a1 Ha1]. rewrite Ha1.
  cbv zeta.
  set (m := {| pyln.rate := rate; pyln.block_size := block_size |}).
  destruct (snd (measure_copy m a1)) as [L|e] eqn:HL; cbn [fst snd heap app].
  - split; [reflexivity|]. split; [exists a1; split; reflexivity|].
    intros Hnot. exfalso.
    assert (Hprod : IZR (pyln.rate m) * pyln.block_size m <= 0).
    { cbn [pyln.rate pyln.block_size m].
      destruct (Z_lt_le_dec rate 0) as [Hr|Hr];
        destruct (Rlt_le_dec block_size 0) as [Hb|Hb].
      - tauto.
      - apply IZR_lt in Hr. nra.
      - apply IZR_le in Hr. nra.
      - destruct Hinv as [Hr'|Hb'].
        + assert (rate = 0%Z) by lia. subst rate. lra.
        + assert (block_size = 0) by lra. subst block_size. lra. }
    destruct (measure_rejects m a1 Hprod) as [e He].
    unfold measure in He. congruence.
  - split; [reflexivity|]. split; [exists a1; split; reflexivity|].
    intros _. exists e. reflexivity.
Qed.

(** The amended statement at [rate = 0] on the buffer [[1.0]]. *)
Lemma nonpositive_parameters_witness :
  let run := loudness_norm 0%nat 0 default_peak default_loudness
               default_block_size (initial_world [[Fin 1]]) in
  nth_error (heap (fst run)) 0 = Some [[Fin 1]]
  /\ (exists a1, peak_value [[Fin 1]] default_peak = Ok a1
                 /\ nth_error (heap (fst run)) 1 = Some a1)
  /\ (~ ((0 < 0)%Z /\ default_block_size < 0) -> exists e, snd run = Raise e).
Proof.
  apply (nonpositive_parameters_fail_after_peak
           [[Fin 1]] 0 default_peak default_loudness default_block_size).
  - discriminate.
  - left. lia.
Defined.

(** ** C3 *)

(** C3, counterexample.  Both parameters are valid ([rate = 2 > 0],
    [block_size = 1 > 0]) and the buffer has one frame, less than the two
    frames of one block: the call raises [ValueError]. *)
Lemma short_buffer_raises_ValueError :
  (0 < 2)%Z /\ 0 < 1 /\
  call_loudness_norm [[Fin 1]] 2 default_peak default_loudness 1
  = Raise ValueError.
Proof.
  split; [lia|]. split; [lra|]. apply short_buffer_raises.
Qed.

(** C3, as amended.  Under valid parameters ([rate > 0], [block_size > 0])
    [loudness_norm] returns a buffer exactly when the input has at least one
    sample, at most five channels and at least [block_size * rate] frames;
    silence and clipping make no difference.  Every other buffer, one
    shorter than a block included, raises [ValueError]. *)
Theorem loudness_norm_returns_iff :
  forall (a : ndarray) (rate : Z) (peak loudness block_size : R),
    (0 < rate)%Z -> 0 < block_size ->
    ((exists out, call_loudness_norm a rate peak loudness block_size = Ok out)
     <-> concat a <> []
         /\ (shape1 a <= 5)%nat
         /\ block_size * IZR rate <= INR (shape0 a))
    /\ (forall e, call_loudness_norm a rate peak loudness block_size = Raise e
                  -> e = ValueError).
Proof.
  intros a rate peak loudness block_size Hr Hb.
  rewrite call_loudness_norm_eq. unfold loudness_norm_value.
  set (m := {| pyln.rate := rate; pyln.block_size := block_size |}).
  assert (Hr' : 0 < IZR (pyln.rate m)) by (apply IZR_lt in Hr; exact Hr).
  assert (Hb' : 0 < pyln.block_size m) by exact Hb.
  pose proof (peak_value_ok_iff a peak) as Hpk.
  destruct (peak_value a peak) as [a1|e] eqn:Hp.
  - destruct (peak_value_shape a peak a1 Hp) as [Hs0 Hs1].
    pose proof (measure_ok_iff m a1 Hr' Hb') as Hm.
    rewrite Hs0, Hs1 in Hm. cbn [pyln.rate pyln.block_size m] in Hm.
    assert (Hne : concat a <> []) by (apply Hpk; eauto).
    destruct (measure m a1) as [L|e] eqn:HL.
    + split; [|intros e H; discriminate].
      split; [intros _|intros _; eauto].
      split; [exact Hne|]. apply Hm. eauto.
    + split.
      * split; [intros [out H]; discriminate|].
        intros [_ H]. apply Hm in H. destruct H as [L H]. discriminate.
      * intros e' H. injection H as <-.
        (* the meter's only failure here is a validity check *)
        unfold measure, measure_copy in HL.
        destruct (pyln.valid_audio a1 (pyln.rate m) (pyln.block_size m))
          as [[]|e0] eqn:Hv.
        -- exfalso.
           assert (Hr0 : pyln.rate m <> 0%Z) by (cbn; lia).
           pose proof (filter_stages_ok _ (seq 0 (shape1 a1))
                         (filters_rate m Hr0) a1) as Hf.
           destruct (filter_stages (pyln.filters m) (seq 0 (shape1 a1)) a1)
             as [d' r]. simpl in Hf. subst r. cbn [snd] in HL.
           unfold pyln.valid_audio in Hv.
           destruct (5 <? shape1 a1)%nat; [discriminate|].
           unfold Rltb in Hv.
           destruct (Rlt_dec (INR (shape0 a1))
                       (pyln.block_size m * IZR (pyln.rate m))) as [Hlt|Hge];
             [discriminate|].
           destruct (num_blocks_positive m (shape0 a1) Hr' Hb')
             as [nb [Hnb Hpos]]; [lra|].
           rewrite Hnb in HL.
           assert (Hnb' : (nb <? 0)%Z = false) by (apply Z.ltb_ge; lia).
           rewrite Hnb' in HL. discriminate.
        -- cbn [snd] in HL. injection HL as <-.
           unfold pyln.valid_audio in Hv.
           destruct (5 <? shape1 a1)%nat; [congruence|].
           destruct (Rltb _ _); congruence.
  - split.
    + split; [intros [out H]; discriminate|].
      intros [Hne _]. apply Hpk in Hne. destruct Hne as [a1 H]. discriminate.
    + intros e' H. injection H as <-.
      unfold peak_value, amax_abs in Hp.
      destruct (map fabs (concat a)); [congruence | discriminate].
Qed.

(** The amended statement on the buffer [[1.0]] at [rate = 1],
    [block_size = 1]. *)
Lemma loudness_norm_returns_witness :
  ((exists out, call_loudness_norm [[Fin 1]] 1 default_peak default_loudness 1
                = Ok out)
   <-> concat [[Fin 1]] <> []
       /\ (shape1 [[Fin 1]] <= 5)%nat
       /\ 1 * IZR 1 <= INR (shape0 [[Fin 1]]))
  /\ (forall e, call_loudness_norm [[Fin 1]] 1 default_peak default_loudness 1
                = Raise e -> e = ValueError).
Proof.
  apply (loudness_norm_returns_iff [[Fin 1]] 1 default_peak default_loudness 1).
  - lia.
  - lra.
Defined.

(** ** Scaling by a positive finite constant *)

Ltac rdecide :=
  unfold inf_times, Rltb, Rleb, Reqb in *;
  repeat match goal with
         | |- context [Rlt_dec ?a ?b] => destruct (Rlt_dec a b)
         | |- context [Rle_dec ?a ?b] => destruct (Rle_dec a b)
         | |- context [Req_dec_T ?a ?b] => destruct (Req_dec_T a b)
         end.

Lemma fabs_scale k x :
  0 < k -> fabs (fmul (Fin k) x) = fmul (Fin k) (fabs x).
Proof.
  intros Hk. destruct x; cbn; try reflexivity.
  - rewrite Rabs_mult, (Rabs_pos_eq k) by lra. reflexivity.
  - rdecide; try reflexivity; lra.
  - rdecide; try reflexivity; lra.
Qed.

Lemma fle_scale k x y :
  0 < k -> fle (fmul (Fin k) x) (fmul (Fin k) y) = fle x y.
Proof.
  intros Hk. destruct x, y; cbn; rdecide; try reflexivity; try lra;
    exfalso; nra.
Qed.

Lemma fmax_scale k x y :
  0 < k -> fmax (fmul (Fin k) x) (fmul (Fin k) y) = fmul (Fin k) (fmax x y).
Proof.
  intros Hk. unfold fmax.
  rewrite (fle_scale k x y Hk).
  destruct x, y; cbn; rdecide; try reflexivity; try lra.
Qed.

Lemma max_of_scale k l :
  0 < k ->
  forall x, max_of (fmul (Fin k) x) (map (fmul (Fin k)) l)
            = fmul (Fin k) (max_of x l).
Proof.
  intros Hk. unfold max_of.
  induction l as [|y l IH]; intros x; cbn [map fold_left]; [reflexivity|].
  rewrite fmax_scale by assumption. apply IH.
Qed.

Lemma concat_scale g a : concat (scale g a) = map (fmul g) (concat a).
Proof. unfold scale. now rewrite concat_map. Qed.

Lemma amax_abs_scale k a :
  0 < k ->
  amax_abs (scale (Fin k) a)
  = match amax_abs a with
    | Ok p => Ok (fmul (Fin k) p)
    | Raise e => Raise e
    end.
Proof.
  intros Hk. unfold amax_abs. rewrite concat_scale, map_map.
  destruct (concat a) as [|x l]; cbn [map]; [reflexivity|].
  rewrite (fabs_scale k x Hk).
  replace (map (fun y => fabs (fmul (Fin k) y)) l)
    with (map (fmul (Fin k)) (map fabs l)).
  - now rewrite max_of_scale.
  - rewrite map_map. apply map_ext. intros y. symmetry. now apply fabs_scale.
Qed.

(** The peak gain absorbs a positive input gain, special values included. *)
Lemma peak_gain_absorbs k p t x :
  0 < k ->
  fmul (pyln.peak_gain (fmul (Fin k) p) t) (fmul (Fin k) x)
  = fmul (pyln.peak_gain p t) x.
Proof.
  intros Hk. unfold pyln.peak_gain. cbn [pow10].
  pose proof (pow10_pos (t / 20)) as HP.
  set (P := Rpower 10 (t / 20)) in *.
  assert (Hsign : forall q, 0 < q -> 0 < P / q /\ 0 < P / (k * q)).
  { intros q Hq. split; apply Rdiv_lt_0_compat; nra. }
  assert (Hsign' : forall q, q < 0 -> P / q < 0 /\ P / (k * q) < 0).
  { intros q Hq. unfold Rdiv. split.
    - assert (/ q < 0) by now apply Rinv_lt_0_compat. nra.
    - assert (/ (k * q) < 0) by (apply Rinv_lt_0_compat; nra). nra. }
  destruct p as [q| | |].
  - destruct (Rtotal_order q 0) as [Hq|[Hq|Hq]].
    + destruct (Hsign' q Hq).
      destruct x as [y| | |]; cbn; rdecide; cbn; rdecide;
        try reflexivity; try lra; try (exfalso; nra);
        try (f_equal; field; nra).
    + subst q.
      destruct x as [y| | |]; cbn; rdecide; cbn; rdecide;
        try reflexivity; try lra; try (exfalso; nra).
    + destruct (Hsign q Hq).
      destruct x as [y| | |]; cbn; rdecide; cbn; rdecide;
        try reflexivity; try lra; try (exfalso; nra);
        try (f_equal; field; nra).
  - destruct x as [y| | |]; cbn; rdecide; cbn; rdecide;
      try reflexivity; try lra; try (exfalso; nra); try (f_equal; ring).
  - destruct x as [y| | |]; cbn; rdecide; cbn; rdecide;
      try reflexivity; try lra; try (exfalso; nra); try (f_equal; ring).
  - destruct x as [y| | |]; reflexivity.
Qed.

Lemma scale_scale_peak k p t a :
  0 < k ->
  scale (pyln.peak_gain (fmul (Fin k) p) t) (scale (Fin k) a)
  = scale (pyln.peak_gain p t) a.
Proof.
  intros Hk. unfold scale. rewrite map_map. apply map_ext. intros f.
  rewrite map_map. apply map_ext. intros x. now apply peak_gain_absorbs.
Qed.

Lemma peak_value_scale k a t :
  0 < k -> peak_value (scale (Fin k) a) t = peak_value a t.
Proof.
  intros Hk. unfold peak_value. rewrite amax_abs_scale by assumption.
  destruct (amax_abs a) as [p|e]; [|reflexivity].
  now rewrite scale_scale_peak.
Qed.

(** ** The K-weighting at degenerate sample rates

    When [fc / rate] is an integer for both sections ([rate] is 1 or 2 Hz,
    up to sign), [w0] is a multiple of [2 pi]: [sin w0 = 0], [cos w0 = 1],
    and each section has numerator [g * (1, -2, 1)] over denominator
    [(1, -2, 1)], which passes a finite signal through with gain [g]. *)

Lemma sin_cos_2PI_nat (n : nat) :
  sin (2 * PI * INR n) = 0 /\ cos (2 * PI * INR n) = 1.
Proof.
  replace (2 * PI * INR n) with (0 + 2 * INR n * PI) by ring.
  rewrite sin_period, cos_period, sin_0, cos_0. split; reflexivity.
Qed.

Lemma sin_cos_2PI_Z (k : Z) :
  sin (2 * PI * IZR k) = 0 /\ cos (2 * PI * IZR k) = 1.
Proof.
  destruct (Z_le_gt_dec 0 k) as [Hk|Hk].
  - rewrite <- (Z2Nat.id k Hk), <- INR_IZR_INZ. apply sin_cos_2PI_nat.
  - replace (2 * PI * IZR k) with (- (2 * PI * IZR (- k)))
      by (rewrite opp_IZR; ring).
    rewrite sin_neg, cos_neg.
    assert (Hk' : (0 <= - k)%Z) by lia.
    rewrite <- (Z2Nat.id (- k) Hk'), <- INR_IZR_INZ.
    destruct (sin_cos_2PI_nat (Z.to_nat (- k))) as [-> ->].
    split; [ring | reflexivity].
Qed.

Lemma fdiv_fin u v : v <> 0 -> fdiv (Fin u) (Fin v) = Fin (u / v).
Proof. intros H. cbn. now rewrite Reqb_false. Qed.

Lemma lfilter_from_passthrough g b0 b1 b2 a1 a2 :
  b0 = g -> b1 = -2 * g -> b2 = g -> a1 = -2 -> a2 = 1 ->
  forall xs z0 z1, z0 = 0 -> z1 = 0 ->
    pyln.lfilter_from (Fin b0) (Fin b1) (Fin b2) (Fin a1) (Fin a2)
                      (Fin z0) (Fin z1) (map Fin xs)
    = map (fun x => Fin (g * x)) xs.
Proof.
  intros Hb0 Hb1 Hb2 Ha1 Ha2.
  induction xs as [|x xs IH]; intros z0 z1 Hz0 Hz1; [reflexivity|].
  cbn. f_equal.
  - f_equal. subst. ring.
  - apply IH; subst; ring.
Qed.

Lemma apply_filter_degenerate f k xs :
  pyln.flt_rate f <> 0%Z ->
  pyln.flt_fc f / IZR (pyln.flt_rate f) = IZR k ->
  pyln.passband_gain f = 1 ->
  pyln.apply_filter f (map Fin xs)
  = Ok (map (fun x =>
               Fin (match pyln.flt_type f with
                    | pyln.high_shelf =>
                        Rpower 10 (pyln.flt_G f / 40)
                        * Rpower 10 (pyln.flt_G f / 40)
                    | pyln.high_pass => 1
                    end * x)) xs).
Proof.
  intros Hr Hk Hg. unfold pyln.apply_filter, pyln.generate_coefficients.
  apply Z.eqb_neq in Hr. rewrite Hr, Hk, Hg.
  destruct (sin_cos_2PI_Z k) as [Hs Hc]. rewrite Hs, Hc.
  assert (Hz : 0 / (2 * pyln.flt_Q f) = 0) by (unfold Rdiv; ring).
  rewrite Hz.
  pose proof (pow10_pos (pyln.flt_G f / 40)) as HA.
  set (A := Rpower 10 (pyln.flt_G f / 40)) in *.
  destruct (pyln.flt_type f); unfold pyln.lfilter;
    cbn [pyln.cb0 pyln.cb1 pyln.cb2 pyln.ca0 pyln.ca1 pyln.ca2].
  - set (a0 := A + 1 - (A - 1) * 1 + 2 * sqrt A * 0).
    assert (Ha0 : a0 = 2) by (unfold a0; ring).
    assert (Ha0' : a0 / a0 = 1) by (rewrite Ha0; field).
    rewrite !(fdiv_fin _ a0) by lra.
    rewrite !(fdiv_fin _ (a0 / a0)) by lra.
    unfold zero.
    rewrite (lfilter_from_passthrough (A * A)); try reflexivity;
      try (rewrite Ha0', Ha0; field).
    rewrite map_map. f_equal. apply map_ext. intros x. cbn. f_equal. ring.
  - set (a0 := 1 + 0).
    assert (Ha0 : a0 = 1) by (unfold a0; ring).
    assert (Ha0' : a0 / a0 = 1) by (rewrite Ha0; field).
    rewrite !(fdiv_fin _ a0) by lra.
    rewrite !(fdiv_fin _ (a0 / a0)) by lra.
    unfold zero.
    rewrite (lfilter_from_passthrough 1); try reflexivity;
      try (rewrite Ha0', Ha0; field).
    rewrite map_map. f_equal. apply map_ext. intros x. cbn. f_equal. ring.
Qed.

Lemma col_mono xs : col 0 (mono xs) = map Fin xs.
Proof. unfold col, mono. rewrite map_map. reflexivity. Qed.

Lemma set_col_mono ys : forall xs,
  length ys = length xs -> set_col 0 (map Fin ys) (mono xs) = mono ys.
Proof.
  induction ys as [|y ys IH]; intros [|x xs] H; try discriminate; [reflexivity|].
  cbn. f_equal. apply IH. now injection H.
Qed.

Lemma kweighting_degenerate m k1 k2 xs :
  pyln.rate m <> 0%Z ->
  1500 / IZR (pyln.rate m) = IZR k1 ->
  38 / IZR (pyln.rate m) = IZR k2 ->
  filter_stages (pyln.filters m) [0%nat] (mono xs)
  = (mono (map (Rmult K_shelf) xs), Ok tt).
Proof.
  intros Hr H1 H2.
  cbn [pyln.filters filter_stages filter_channels].
  rewrite col_mono.
  rewrite (apply_filter_degenerate _ k1) by (try exact Hr; try exact H1; reflexivity).
  cbn [pyln.flt_type pyln.flt_G].
  rewrite <- (map_map (fun x => Rpower 10 (4 / 40) * Rpower 10 (4 / 40) * x) Fin).
  rewrite set_col_mono by (now rewrite length_map).
  rewrite col_mono.
  rewrite (apply_filter_degenerate _ k2) by (try exact Hr; try exact H2; reflexivity).
  cbn [pyln.flt_type].
  rewrite <- (map_map (fun x => 1 * x) Fin).
  rewrite set_col_mono by (now rewrite !length_map).
  f_equal. f_equal. rewrite map_map. apply map_ext. intros x.
  unfold K_shelf. ring.
Qed.

(** ** Gating of a single-channel measurement *)

Lemma filter_map_S A (Q : A -> bool) (d e : A) (es : list A) (l : list nat) :
  filter (fun j => Q (nth j (e :: es) d)) (map S l)
  = map S (filter (fun j => Q (nth j es d)) l).
Proof.
  induction l as [|j l IHl]; [reflexivity|].
  simpl. destruct (Q (nth j es d)); simpl; now rewrite <- IHl.
Qed.

Lemma filter_seq_nth A (Q : A -> bool) (d : A) (es : list A) :
  map (fun j => nth j es d)
      (filter (fun j => Q (nth j es d)) (seq 0 (length es)))
  = filter Q es.
Proof.
  induction es as [|e es IH]; [reflexivity|].
  change (seq 0 (length (e :: es))) with (0%nat :: seq 1 (length es)).
  rewrite <- seq_shift. cbn [filter].
  change (nth 0 (e :: es) d) with e.
  rewrite filter_map_S.
  destruct (Q e); cbn [map]; rewrite map_map.
  - change (nth 0 (e :: es) d) with e. f_equal. exact IH.
  - exact IH.
Qed.

Lemma loudness_of_mono v : pyln.loudness_of 1 v = block_lufs (v 0%nat).
Proof. reflexivity. Qed.

Lemma block_loudness_mono es j :
  pyln.block_loudness [es] 1 j = block_lufs (nth j es zero).
Proof. reflexivity. Qed.

Lemma gated_loudness_mono es :
  pyln.gated_loudness [es] 1 (length es)
  = block_lufs
      (nan_to_num
         (mean
            (filter
               (fun e =>
                  fgt (block_lufs e)
                      (fsub (block_lufs
                               (mean (filter
                                        (fun e => fge (block_lufs e) pyln.Gamma_a)
                                        es)))
                            (Fin 10))
                  && fgt (block_lufs e) pyln.Gamma_a)
               es))).
Proof.
  assert (HJ : forall Q : float64 -> bool,
             pyln.z_avg [es]
               (filter (fun j => Q (nth j es zero)) (seq 0 (length es))) 0%nat
             = mean (filter Q es)).
  { intros Q. unfold pyln.z_avg.
    change (fun j => pyln.z_at [es] 0 j) with (fun j => nth j es zero).
    now rewrite filter_seq_nth. }
  assert (HGr : pyln.Gamma_r [es] 1 (length es)
                = fsub (block_lufs
                          (mean (filter
                                   (fun e => fge (block_lufs e) pyln.Gamma_a)
                                   es)))
                       (Fin 10)).
  { unfold pyln.Gamma_r. rewrite loudness_of_mono. do 2 f_equal.
    apply (HJ (fun e => fge (block_lufs e) pyln.Gamma_a)). }
  unfold pyln.gated_loudness. rewrite loudness_of_mono. do 2 f_equal.
  unfold pyln.J_gated. rewrite HGr.
  set (Gr := fsub _ (Fin 10)).
  apply (HJ (fun e => fgt (block_lufs e) Gr
                      && fgt (block_lufs e) pyln.Gamma_a)).
Qed.

Lemma block_lufs_fin p : 0 < p -> block_lufs (Fin p) = Fin (lufs p).
Proof.
  intros Hp. unfold block_lufs, pyln.loudness_of, lufs. cbn.
  replace (0 + 1 * p) with p by ring.
  now rewrite Rltb_true.
Qed.

Lemma block_lufs_zero v : v = 0 -> block_lufs (Fin v) = NInf.
Proof.
  intros ->. unfold block_lufs, pyln.loudness_of. cbn.
  replace (0 + 1 * 0) with 0 by ring.
  rewrite Rltb_false, Reqb_true by lra. cbn.
  unfold inf_times. rewrite Rltb_true by lra. reflexivity.
Qed.

Lemma fgt_fge a b : fge a b = false -> fgt a b = false.
Proof.
  unfold fge, fgt. destruct a, b; cbn; try reflexivity; try discriminate.
  unfold Rleb, Rltb. destruct (Rle_dec x0 x), (Rlt_dec x0 x);
    try reflexivity; try discriminate; lra.
Qed.

Lemma filter_two_kinds A (Q : A -> bool) (x : A) (es : list A) :
  Q x = true ->
  Forall (fun e => Q e = false \/ e = x) es ->
  exists k, filter Q es = repeat x k /\ (In x es -> (1 <= k)%nat).
Proof.
  intros Hx. induction 1 as [|e es He _ [k [IH Hk]]].
  - exists 0%nat. split; [reflexivity | intros []].
  - cbn [filter]. destruct He as [He | ->].
    + rewrite He. exists k. split; [exact IH|].
      intros [H|H]; [subst e; congruence | auto].
    + rewrite Hx. exists (S k). split; [cbn; now rewrite IH | intros _; lia].
Qed.

Lemma sum_repeat_fin p k : forall a,
  fold_left fadd (repeat (Fin p) k) (Fin a) = Fin (a + INR k * p).
Proof.
  induction k as [|k IH]; intros a.
  - cbn. f_equal. ring.
  - cbn [repeat fold_left fadd]. rewrite IH, S_INR. f_equal. ring.
Qed.

Lemma mean_repeat_fin p k :
  (1 <= k)%nat -> mean (repeat (Fin p) k) = Fin p.
Proof.
  intros Hk. unfold mean, sum, zero. rewrite sum_repeat_fin, repeat_length.
  assert (0 < INR k) by (apply lt_0_INR; lia).
  rewrite fdiv_fin by lra. f_equal. field. lra.
Qed.

(** Blocks that all either fail the absolute gate or carry the same power
    [p], itself above the gate: the integrated loudness is that of [p]. *)
Lemma gated_loudness_single_level es p :
  0 < p -> -70 < lufs p ->
  Forall (fun e => fge (block_lufs e) pyln.Gamma_a = false \/ e = Fin p) es ->
  In (Fin p) es ->
  pyln.gated_loudness [es] 1 (length es) = Fin (lufs p).
Proof.
  intros Hp Hl Hes Hin. rewrite gated_loudness_mono.
  assert (Hbp : block_lufs (Fin p) = Fin (lufs p)) by now apply block_lufs_fin.
  destruct (filter_two_kinds _ (fun e => fge (block_lufs e) pyln.Gamma_a)
              (Fin p) es) as [k [Hk Hk1]].
  { rewrite Hbp. cbn. apply Rleb_true. lra. }
  { exact Hes. }
  rewrite Hk, mean_repeat_fin by auto. rewrite Hbp. cbn [fsub fneg fadd].
  destruct (filter_two_kinds _
              (fun e => fgt (block_lufs e) (Fin (lufs p + - (10)))
                        && fgt (block_lufs e) pyln.Gamma_a)
              (Fin p) es) as [k' [Hk' Hk1']].
  { rewrite Hbp. cbn. rewrite !Rltb_true by lra. reflexivity. }
  { eapply Forall_impl; [|exact Hes]. cbv beta. intros e [He|He]; [left|now right].
    rewrite (fgt_fge _ _ He). apply andb_false_r. }
  rewrite Hk', mean_repeat_fin by auto. cbn [nan_to_num]. exact Hbp.
Qed.

Lemma gated_loudness_single_block p :
  0 < p -> -70 < lufs p -> pyln.gated_loudness [[Fin p]] 1 1 = Fin (lufs p).
Proof.
  intros Hp Hl. apply (gated_loudness_single_level [Fin p]); try assumption.
  - constructor; [now right | constructor].
  - now left.
Qed.

(** ** The meter on a one-sample signal at 1 Hz *)

Lemma K_shelf_pos : 0 < K_shelf.
Proof. unfold K_shelf. pose proof (pow10_pos (4 / 40)). nra. Qed.

Lemma K_shelf_pow : K_shelf = Rpower 10 (1 / 5).
Proof. unfold K_shelf. rewrite <- Rpower_plus. f_equal. lra. Qed.

(** Block of one second at 1 Hz: a single block, the sample itself. *)
Lemma measure_copy_unit_block_power y :
  measure_copy {| pyln.rate := 1; pyln.block_size := 1 |} (mono [y])
  = (mono [K_shelf * y],
     Ok (pyln.gated_loudness [[Fin (K_shelf * y * (K_shelf * y))]] 1 1)).
Proof.
  unfold measure_copy, pyln.valid_audio.
  cbn [pyln.rate pyln.block_size shape1 shape0 mono map length Nat.ltb Nat.leb].
  rewrite Rltb_false by (cbn; lra).
  change (seq 0 1) with [0%nat].
  pose proof (kweighting_degenerate
                {| pyln.rate := 1; pyln.block_size := 1 |} 1500 38 [y]) as HK.
  cbn [pyln.rate mono map] in HK.
  rewrite HK by (try discriminate; lra).
  f_equal. unfold pyln.num_blocks. cbn [pyln.rate pyln.block_size Z.eqb].
  unfold pyln.step at 1. rewrite Reqb_false by lra.
  replace ((INR 1 / 1 - 1) / (1 * pyln.step)) with (IZR 0)
    by (unfold pyln.step; cbn [INR]; lra).
  rewrite round_half_even_IZR.
  change (0 + 1 <? 0)%Z with false. change (Z.to_nat (0 + 1)) with 1%nat.
  unfold pyln.block_energies, range. cbn [seq map Z.of_nat col nth].
  unfold pyln.block_energy. cbn [pyln.rate pyln.block_size].
  rewrite (trunc_eq 0) by (try lia; unfold pyln.step; lra).
  rewrite (trunc_eq 1) by (try lia; unfold pyln.step; lra).
  change (slice 0 1 [Fin (K_shelf * y)]) with [Fin (K_shelf * y)].
  cbn [map sum fold_left fmul fadd zero].
  set (p := 1 / (1 * 1) * (0 + K_shelf * y * (K_shelf * y))).
  assert (Hp : p = K_shelf * y * (K_shelf * y)) by (unfold p; field).
  now rewrite Hp.
Qed.

Lemma K_shelf_square_pos y : y <> 0 -> 0 < K_shelf * y * (K_shelf * y).
Proof.
  intros Hy. pose proof K_shelf_pos. assert (K_shelf * y <> 0) by nra. nra.
Qed.

Lemma measure_copy_unit_block y :
  y <> 0 ->
  -70 < lufs (K_shelf * y * (K_shelf * y)) ->
  measure_copy {| pyln.rate := 1; pyln.block_size := 1 |} (mono [y])
  = (mono [K_shelf * y], Ok (Fin (lufs (K_shelf * y * (K_shelf * y))))).
Proof.
  intros Hy Hl. rewrite measure_copy_unit_block_power. do 2 f_equal.
  apply gated_loudness_single_block; [now apply K_shelf_square_pos | exact Hl].
Qed.

Lemma lufs_pow10 y : lufs (Rpower 10 y) = -0.691 + 10 * y.
Proof. unfold lufs. now rewrite log10_pow10. Qed.

Lemma K_shelf_peak_power t :
  K_shelf * Rpower 10 (t / 20) * (K_shelf * Rpower 10 (t / 20))
  = Rpower 10 (2 / 5 + t / 10).
Proof.
  rewrite K_shelf_pow, <- !Rpower_plus. f_equal. lra.
Qed.

(** [loudness_norm] on the one-sample buffer [[1.0]] at 1 Hz with a block
    of one second: the peak target cancels and the sample comes out at
    [10^((loudness - 3.309)/20)]. *)
Lemma loudness_norm_unit_sample peak loudness :
  -73.309 < peak ->
  call_loudness_norm [[Fin 1]] 1 peak loudness 1
  = Ok [[Fin (Rpower 10 ((loudness - 3.309) / 20))]].
Proof.
  intros Hpk. rewrite call_loudness_norm_eq. unfold loudness_norm_value.
  rewrite peak_value_one. unfold measure.
  change [[Fin (Rpower 10 (peak / 20))]] with (mono [Rpower 10 (peak / 20)]).
  pose proof (pow10_pos (peak / 20)) as HP.
  rewrite measure_copy_unit_block;
    [| lra | rewrite K_shelf_peak_power, lufs_pow10; lra].
  cbn [snd]. rewrite K_shelf_peak_power, lufs_pow10.
  unfold pyln.loudness_gain. cbn [fsub fneg fadd].
  rewrite fdiv_fin by lra. cbn [pow10 scale mono map fmul].
  do 4 f_equal. rewrite <- Rpower_plus. f_equal. lra.
Qed.

(** Two negative parameters are accepted: with [rate = -1] and
    [block_size = -1] every product the meter forms is that of [rate = 1],
    [block_size = 1], and the call returns the same buffer. *)
Lemma measure_copy_negative_unit_block_power y :
  measure_copy {| pyln.rate := -1; pyln.block_size := -1 |} (mono [y])
  = (mono [K_shelf * y],
     Ok (pyln.gated_loudness [[Fin (K_shelf * y * (K_shelf * y))]] 1 1)).
Proof.
  unfold measure_copy, pyln.valid_audio.
  cbn [pyln.rate pyln.block_size shape1 shape0 mono map length Nat.ltb Nat.leb].
  rewrite Rltb_false by (cbn; lra).
  change (seq 0 1) with [0%nat].
  pose proof (kweighting_degenerate
                {| pyln.rate := -1; pyln.block_size := -1 |}
                (-1500) (-38) [y]) as HK.
  cbn [pyln.rate mono map] in HK.
  rewrite HK by (try discriminate; lra).
  f_equal. unfold pyln.num_blocks. cbn [pyln.rate pyln.block_size Z.eqb].
  unfold pyln.step at 1. rewrite Reqb_false by lra.
  replace ((INR 1 / -1 - -1) / (-1 * pyln.step)) with (IZR 0)
    by (unfold pyln.step; cbn [INR]; lra).
  rewrite round_half_even_IZR.
  change (0 + 1 <? 0)%Z with false. change (Z.to_nat (0 + 1)) with 1%nat.
  unfold pyln.block_energies, range. cbn [seq map Z.of_nat col nth].
  unfold pyln.block_energy. cbn [pyln.rate pyln.block_size].
  rewrite (trunc_eq 0) by (try lia; unfold pyln.step; lra).
  rewrite (trunc_eq 1) by (try lia; unfold pyln.step; lra).
  change (slice 0 1 [Fin (K_shelf * y)]) with [Fin (K_shelf * y)].
  cbn [map sum fold_left fmul fadd zero].
  set (p := 1 / (-1 * -1) * (0 + K_shelf * y * (K_shelf * y))).
  assert (Hp : p = K_shelf * y * (K_shelf * y)) by (unfold p; field).
  now rewrite Hp.
Qed.

Example negative_parameters_accepted :
  call_loudness_norm [[Fin 1]] (-1) default_peak default_loudness (-1)
  = Ok [[Fin (Rpower 10 ((default_loudness - 3.309) / 20))]].
Proof.
  rewrite call_loudness_norm_eq. unfold loudness_norm_value.
  rewrite peak_value_one. unfold measure.
  change [[Fin (Rpower 10 (default_peak / 20))]]
    with (mono [Rpower 10 (default_peak / 20)]).
  pose proof (pow10_pos (default_peak / 20)) as HP.
  rewrite measure_copy_negative_unit_block_power. cbn [snd].
  rewrite gated_loudness_single_block.
  - rewrite K_shelf_peak_power, lufs_pow10.
    unfold pyln.loudness_gain. cbn [fsub fneg fadd].
    rewrite fdiv_fin by lra. cbn [pow10 scale mono map fmul].
    do 4 f_equal. rewrite <- Rpower_plus. f_equal.
    unfold default_peak. lra.
  - apply K_shelf_square_pos. lra.
  - rewrite K_shelf_peak_power, lufs_pow10. unfold default_peak. lra.
Qed.

(** The raw meter on the same buffer. *)
Lemma integrated_loudness_unit_sample :
  call_integrated_loudness [[Fin 1]] 1 1 = Ok (Fin 3.309).
Proof.
  rewrite call_integrated_loudness_eq. unfold measure.
  change [[Fin 1]] with (mono [1]).
  assert (HK : K_shelf * 1 * (K_shelf * 1) = Rpower 10 (2 / 5)).
  { rewrite K_shelf_pow, !Rmult_1_r, <- Rpower_plus. f_equal. lra. }
  rewrite measure_copy_unit_block; [| lra | rewrite HK, lufs_pow10; lra].
  cbn [snd]. rewrite HK, lufs_pow10. do 2 f_equal. lra.
Qed.

(** ** The peak of a finite buffer *)

Lemma fold_fmax_finite l :
  Forall (fun x => isfinite x = true) l ->
  forall m, 0 <= m ->
    exists M, fold_left fmax (map fabs l) (Fin m) = Fin M
              /\ m <= M
              /\ (M = 0 -> Forall (fun x => x = Fin 0) l).
Proof.
  induction 1 as [|x l Hx _ IH]; intros m Hm.
  - exists m. cbn. repeat split; [lra | constructor].
  - destruct x as [v| | |]; try discriminate.
    cbn [map fold_left fabs]. pose proof (Rabs_pos v) as Hv.
    unfold fmax, fle, Rleb. destruct (Rle_dec m (Rabs v)) as [Hle|Hgt].
    + destruct (IH (Rabs v) Hv) as [M [HM [HmM H0]]].
      exists M. split; [exact HM|]. split; [lra|].
      intros HM0. constructor; [|auto].
      f_equal. assert (Rabs v = 0) by lra.
      destruct (Req_dec v 0) as [E|E]; [exact E|].
      now apply Rabs_no_R0 in E.
    + destruct (IH m Hm) as [M [HM [HmM H0]]].
      exists M. split; [exact HM|]. split; [lra|].
      intros HM0. lra.
Qed.

Lemma amax_abs_finite a :
  all_finite a -> ~ silent a ->
  exists M, amax_abs a = Ok (Fin M) /\ 0 < M.
Proof.
  unfold all_finite, silent, amax_abs. intros Hf Hs.
  destruct (concat a) as [|x l]; [elim Hs; constructor|].
  inversion Hf as [|? ? Hx Hl]; subst.
  destruct x as [v| | |]; try discriminate.
  cbn [map fabs]. unfold max_of.
  destruct (fold_fmax_finite l Hl (Rabs v) (Rabs_pos v)) as [M [HM [Hle H0]]].
  exists M. split; [now rewrite HM|].
  pose proof (Rabs_pos v).
  destruct (Req_dec M 0) as [E|E]; [|lra].
  exfalso. apply Hs. constructor; [|auto].
  f_equal. assert (Rabs v = 0) by lra.
  destruct (Req_dec v 0) as [E'|E']; [exact E'|].
  now apply Rabs_no_R0 in E'.
Qed.

Lemma pow10_le_1_iff y : Rpower 10 y <= 1 <-> y <= 0.
Proof.
  split; [|apply pow10_le_1].
  intros H. destruct (Rle_lt_dec y 0) as [Hy|Hy]; [exact Hy|].
  exfalso. assert (1 < Rpower 10 y).
  { rewrite <- (Rpower_O 10) by lra. apply Rpower_lt; lra. }
  lra.
Qed.

Lemma measured_loudness_unit_sample peak :
  -73.309 < peak ->
  measured_loudness [[Fin 1]] 1 peak 1 = Ok (Fin (3.309 + peak)).
Proof.
  intros Hpk. rewrite measured_loudness_eq, peak_value_one. unfold measure.
  change [[Fin (Rpower 10 (peak / 20))]] with (mono [Rpower 10 (peak / 20)]).
  pose proof (pow10_pos (peak / 20)) as HP.
  rewrite measure_copy_unit_block;
    [| lra | rewrite K_shelf_peak_power, lufs_pow10; lra].
  cbn [snd]. rewrite K_shelf_peak_power, lufs_pow10. do 2 f_equal. lra.
Qed.

Lemma loudness_norm_unit_sample_10 :
  call_loudness_norm [[Fin 1]] 1 (-1) 23.309 1 = Ok [[Fin 10]].
Proof.
  rewrite loudness_norm_unit_sample by lra.
  replace ((23.309 - 3.309) / 20) with 1 by lra.
  now rewrite Rpower_1 by lra.
Qed.

(** ** C1 *)

(** C1, counterexample.  One sample [1.0] at 1 Hz, block of one second,
    peak target -1 dB, loudness target 23.309 LUFS: the returned sample is
    [10], far above the peak ceiling [10^(-1/20) < 1], even with a
    tolerance of [1]. *)
Lemma peak_ceiling_exceeded :
  call_loudness_norm [[Fin 1]] 1 (-1) 23.309 1 = Ok [[Fin 10]]
  /\ amax_abs [[Fin 10]] = Ok (Fin 10)
  /\ Rpower 10 (-1 / 20) + 1 < 10.
Proof.
  split; [|split].
  - exact loudness_norm_unit_sample_10.
  - cbn. now rewrite Rabs_pos_eq by lra.
  - pose proof (pow10_le_1 (-1 / 20)). lra.
Qed.

(** C1, as amended.  On a finite, non-silent buffer for which the meter
    (run on the peak-normalised samples) reports a finite loudness [l], the
    returned buffer has maximum absolute sample exactly
    [10^(peak/20) * 10^((loudness - l)/20)].  The loudness gain is applied
    last and is not capped: the result stays within [10^(peak/20)] exactly
    when [loudness <= l]. *)
Theorem peak_after_loudness_norm :
  forall (a : ndarray) (rate : Z) (peak loudness block_size l : R),
    all_finite a -> ~ silent a ->
    measured_loudness a rate peak block_size = Ok (Fin l) ->
    exists out,
      call_loudness_norm a rate peak loudness block_size = Ok out
      /\ amax_abs out
         = Ok (Fin (Rpower 10 (peak / 20) * Rpower 10 ((loudness - l) / 20)))
      /\ (Rpower 10 (peak / 20) * Rpower 10 ((loudness - l) / 20)
          <= Rpower 10 (peak / 20)
          <-> loudness <= l).
Proof.
  intros a rate peak loudness block_size l Hfin Hns HL.
  destruct (amax_abs_finite a Hfin Hns) as [M [HM HMpos]].
  rewrite measured_loudness_eq in HL.
  rewrite call_loudness_norm_eq. unfold loudness_norm_value.
  unfold peak_value in *. rewrite HM in *. rewrite HL.
  pose proof (pow10_pos (peak / 20)) as HP.
  pose proof (pow10_pos ((loudness - l) / 20)) as Hg.
  eexists. split; [reflexivity|]. split.
  - unfold pyln.loudness_gain, pyln.peak_gain. cbn [fsub fneg fadd pow10].
    rewrite !fdiv_fin by lra. cbn [pow10].
    replace ((loudness + - l) / 20) with ((loudness - l) / 20) by lra.
    rewrite amax_abs_scale by assumption.
    rewrite amax_abs_scale by (apply Rdiv_lt_0_compat; lra).
    rewrite HM. cbn [fmul]. do 2 f_equal. field. lra.
  - pose proof (pow10_le_1_iff ((loudness - l) / 20)) as [H1 H2].
    split; intros H.
    + assert (Rpower 10 ((loudness - l) / 20) <= 1) by nra.
      apply H1 in H0. lra.
    + assert (Rpower 10 ((loudness - l) / 20) <= 1) by (apply H2; lra).
      nra.
Qed.

(** The amended statement on the buffer of the counterexample. *)
Lemma peak_after_loudness_norm_witness :
  exists out,
    call_loudness_norm [[Fin 1]] 1 (-1) 23.309 1 = Ok out
    /\ amax_abs out
       = Ok (Fin (Rpower 10 (-1 / 20) * Rpower 10 ((23.309 - 2.309) / 20)))
    /\ (Rpower 10 (-1 / 20) * Rpower 10 ((23.309 - 2.309) / 20)
        <= Rpower 10 (-1 / 20)
        <-> 23.309 <= 2.309).
Proof.
  apply (peak_after_loudness_norm [[Fin 1]] 1 (-1) 23.309 1 2.309).
  - repeat constructor.
  - intros H. inversion H as [|? ? H1 _]. injection H1. lra.
  - rewrite measured_loudness_unit_sample by lra. do 2 f_equal. lra.
Defined.

(** ** Composing two gains *)

Lemma fmul_assoc a b c : fmul a (fmul b c) = fmul (fmul a b) c.
Proof.
  destruct a as [x| | |], b as [y| | |], c as [z| | |]; cbn;
    try reflexivity;
    try (f_equal; ring);
    rdecide; cbn; rdecide;
    try reflexivity; try lra; try (exfalso; nra);
    try (exfalso;
         match goal with
         | H : ~ 0 < ?y, H' : ~ ?y < 0 |- _ =>
             assert (Hz : y = 0) by lra; try rewrite Hz in *; nra
         end).
Qed.

Lemma scale_scale g h a : scale g (scale h a) = scale (fmul g h) a.
Proof.
  unfold scale. rewrite map_map. apply map_ext. intros f.
  rewrite map_map. apply map_ext. intros x. apply fmul_assoc.
Qed.

Lemma sample_scale g a i ch x :
  sample a i ch = Some x -> sample (scale g a) i ch = Some (fmul g x).
Proof.
  unfold sample, scale. rewrite nth_error_map.
  destruct (nth_error a i) as [f|]; [|discriminate]. cbn.
  rewrite nth_error_map. now intros ->.
Qed.

(** ** C5 *)

(** C5, counterexample.  On the one-sample buffer [[1.0]] (1 Hz, block of
    one second, peak -1 dB, loudness target 23.309 LUFS) the raw loudness is
    3.309 LUFS, so [g_loud = 10] and the peak-capping gain is
    [10^(-1/20) < 1]; their minimum would leave the sample at [10^(-1/20)],
    but [loudness_norm] returns [10]. *)
Lemma gain_is_not_the_minimum :
  call_loudness_norm [[Fin 1]] 1 (-1) 23.309 1 = Ok [[Fin 10]]
  /\ spec_normalize [[Fin 1]] 1 (-1) 23.309 1
     = Ok [[Fin (Rpower 10 (-1 / 20))]]
  /\ Rpower 10 (-1 / 20) < 10.
Proof.
  pose proof (pow10_le_1 (-1 / 20)) as HP.
  pose proof (pow10_pos (-1 / 20)) as HP0.
  split; [exact loudness_norm_unit_sample_10|]. split; [|lra].
  unfold spec_normalize. rewrite integrated_loudness_unit_sample.
  cbn [amax_abs concat app map fabs max_of fold_left].
  rewrite Rabs_R1.
  unfold spec_g_loud, spec_g_peak, pyln.loudness_gain, pyln.peak_gain.
  rewrite Reqb_false by lra. cbn [fsub fneg fadd pow10].
  rewrite !fdiv_fin by lra. cbn [pow10].
  replace ((23.309 + - (3.309)) / 20) with 1 by lra.
  rewrite Rpower_1 by lra.
  unfold fmin. cbn [fle]. rewrite Rleb_false by lra.
  cbn [scale map fmul]. do 4 f_equal. field.
Qed.

(** C5, as amended.  Whenever [loudness_norm] returns, its result is the
    input with every sample of every channel multiplied by one and the same
    scalar: the product [g_loud * g_peak] of the peak-normalising gain
    [g_peak = 10^(peak/20) / max|audio|] and the loudness gain
    [g_loud = 10^((loudness - L)/20)], where [L] is the loudness measured
    on the peak-normalised samples.  No minimum is taken. *)
Theorem one_uniform_gain :
  forall (a : ndarray) (rate : Z) (peak loudness block_size : R)
         (out : ndarray),
    call_loudness_norm a rate peak loudness block_size = Ok out ->
    exists p L,
      amax_abs a = Ok p
      /\ measured_loudness a rate peak block_size = Ok L
      /\ out = scale (fmul (pyln.loudness_gain L loudness)
                           (pyln.peak_gain p peak)) a
      /\ (forall i ch x,
            sample a i ch = Some x ->
            sample out i ch
            = Some (fmul (fmul (pyln.loudness_gain L loudness)
                               (pyln.peak_gain p peak)) x)).
Proof.
  intros a rate peak loudness block_size out.
  rewrite call_loudness_norm_eq, measured_loudness_eq.
  unfold loudness_norm_value, peak_value.
  destruct (amax_abs a) as [p|e]; [|discriminate].
  destruct (measure _ _) as [L|e]; [|discriminate].
  intros H; injection H as <-.
  exists p, L. split; [reflexivity|]. split; [reflexivity|].
  rewrite scale_scale. split; [reflexivity|].
  intros i ch x Hx. now apply sample_scale.
Qed.

(** The amended statement on the buffer of the counterexample. *)
Lemma one_uniform_gain_witness :
  exists p L,
    amax_abs [[Fin 1]] = Ok p
    /\ measured_loudness [[Fin 1]] 1 (-1) 1 = Ok L
    /\ [[Fin 10]] = scale (fmul (pyln.loudness_gain L 23.309)
                                (pyln.peak_gain p (-1))) [[Fin 1]]
    /\ (forall i ch x,
          sample [[Fin 1]] i ch = Some x ->
          sample [[Fin 10]] i ch
          = Some (fmul (fmul (pyln.loudness_gain L 23.309)
                             (pyln.peak_gain p (-1))) x)).
Proof.
  apply (one_uniform_gain [[Fin 1]] 1 (-1) 23.309 1 [[Fin 10]]).
  exact loudness_norm_unit_sample_10.
Defined.

(** ** Silence *)

Lemma concat_full n c v : concat (full n c v) = repeat v (n * c).
Proof.
  unfold full. induction n as [|n IH]; [reflexivity|].
  cbn [repeat concat]. rewrite IH. cbn [Nat.mul]. now rewrite repeat_app.
Qed.

Lemma scale_full g n c v : scale g (full n c v) = full n c (fmul g v).
Proof.
  unfold scale, full. rewrite map_repeat. f_equal. apply map_repeat.
Qed.

Lemma fold_fmax_repeat r k :
  fold_left fmax (repeat (Fin r) k) (Fin r) = Fin r.
Proof.
  induction k as [|k IH]; [reflexivity|].
  cbn [repeat fold_left]. unfold fmax at 2, fle.
  rewrite Rleb_true by lra. exact IH.
Qed.

Lemma amax_abs_zeros n c :
  (1 <= n)%nat -> (1 <= c)%nat ->
  amax_abs (full n c (Fin 0)) = Ok (Fin (Rabs 0)).
Proof.
  intros Hn Hc. unfold amax_abs. rewrite concat_full, map_repeat.
  destruct (n * c)%nat as [|k] eqn:E; [nia|].
  cbn [repeat fabs]. unfold max_of. now rewrite fold_fmax_repeat.
Qed.

(** Peak normalisation of silence: the gain is [+inf] and every sample
    becomes [inf * 0 = nan]. *)
Lemma peak_value_zeros n c target :
  (1 <= n)%nat -> (1 <= c)%nat ->
  pyln.peak_gain (Fin (Rabs 0)) target = PInf
  /\ peak_value (full n c (Fin 0)) target = Ok (full n c NaN).
Proof.
  intros Hn Hc.
  assert (Hg : pyln.peak_gain (Fin (Rabs 0)) target = PInf).
  { unfold pyln.peak_gain. cbn [pow10 fdiv]. rewrite Rabs_R0.
    rewrite Reqb_true by reflexivity. unfold inf_times.
    now rewrite Rltb_true by apply pow10_pos. }
  split; [exact Hg|].
  unfold peak_value. rewrite amax_abs_zeros, Hg, scale_full by assumption.
  cbn [fmul]. unfold inf_times. now rewrite !Rltb_false by lra.
Qed.

(** A filter turns NaN samples into NaN samples, whatever its coefficients. *)
Lemma lfilter_from_nan b0 b1 b2 a1 a2 n :
  forall z0 z1,
    pyln.lfilter_from b0 b1 b2 a1 a2 z0 z1 (repeat NaN n) = repeat NaN n.
Proof.
  induction n as [|n IH]; intros z0 z1; [reflexivity|].
  cbn [repeat pyln.lfilter_from].
  assert (Hy : fadd z0 (fmul b0 NaN) = NaN).
  { destruct b0; cbn; destruct z0; reflexivity. }
  rewrite Hy. f_equal. apply IH.
Qed.

Lemma apply_filter_nan f n :
  pyln.flt_rate f <> 0%Z ->
  pyln.apply_filter f (repeat NaN n) = Ok (repeat NaN n).
Proof.
  intros Hr. unfold pyln.apply_filter.
  destruct (generate_coefficients_ok f Hr) as [c ->].
  unfold pyln.lfilter. rewrite lfilter_from_nan, map_repeat. reflexivity.
Qed.

Lemma col_full n c v ch :
  (ch < c)%nat -> col ch (full n c v) = repeat v n.
Proof.
  intros H. unfold col, full. rewrite map_repeat. f_equal.
  apply nth_repeat_lt. exact H.
Qed.

Lemma set_nth_repeat A (v : A) c : forall ch,
  set_nth ch v (repeat v c) = repeat v c.
Proof.
  induction c as [|c IH]; intros [|ch]; cbn; try reflexivity.
  now rewrite IH.
Qed.

Lemma set_col_full n c v ch :
  set_col ch (repeat v n) (full n c v) = full n c v.
Proof.
  unfold full. induction n as [|n IH]; [reflexivity|].
  cbn [repeat set_col]. rewrite set_nth_repeat. f_equal. exact IH.
Qed.

Lemma filter_channels_nan f n c chs :
  pyln.flt_rate f <> 0%Z ->
  Forall (fun ch => (ch < c)%nat) chs ->
  filter_channels f chs (full n c NaN) = (full n c NaN, Ok tt).
Proof.
  intros Hr. induction 1 as [|ch chs Hch _ IH]; [reflexivity|].
  cbn [filter_channels]. rewrite col_full by assumption.
  rewrite apply_filter_nan by assumption. now rewrite set_col_full.
Qed.

Lemma filter_stages_nan fs n c chs :
  Forall (fun f => pyln.flt_rate f <> 0%Z) fs ->
  Forall (fun ch => (ch < c)%nat) chs ->
  filter_stages fs chs (full n c NaN) = (full n c NaN, Ok tt).
Proof.
  intros Hfs Hchs. induction Hfs as [|f fs Hf _ IH]; [reflexivity|].
  cbn [filter_stages]. now rewrite filter_channels_nan.
Qed.

Lemma is_zero_mul c x : is_zero x -> is_zero (fmul (Fin c) x).
Proof.
  intros [r [-> ->]]. exists (c * 0). split; [reflexivity | ring].
Qed.

Lemma nan_or_zero_mul c x : nan_or_zero x -> nan_or_zero (fmul (Fin c) x).
Proof.
  intros [-> | H]; [now left | right; now apply is_zero_mul].
Qed.

Lemma is_zero_sum l :
  Forall is_zero l -> forall acc, is_zero acc -> is_zero (fold_left fadd l acc).
Proof.
  induction 1 as [|x l [r [-> ->]] _ IH]; intros acc Hacc; [exact Hacc|].
  cbn [fold_left]. apply IH. destruct Hacc as [s [-> ->]].
  exists (0 + 0). split; [reflexivity | ring].
Qed.

Lemma nan_or_zero_sum l :
  Forall nan_or_zero l ->
  forall acc, nan_or_zero acc -> nan_or_zero (fold_left fadd l acc).
Proof.
  induction 1 as [|x l Hx _ IH]; intros acc Hacc; [exact Hacc|].
  cbn [fold_left]. apply IH.
  destruct Hacc as [-> | [s [-> ->]]]; [now left|].
  destruct Hx as [-> | [r [-> ->]]]; [now left|].
  right. exists (0 + 0). split; [reflexivity | ring].
Qed.

Lemma is_zero_zero : is_zero zero.
Proof. exists 0. split; reflexivity. Qed.

(** The loudness formula on powers that are all zero is [-inf]; on powers
    that are NaN or zero it is NaN or [-inf], below every gate. *)
Lemma loudness_of_zero c v :
  (forall i, is_zero (v i)) -> pyln.loudness_of c v = NInf.
Proof.
  intros Hv. unfold pyln.loudness_of, sum.
  destruct (is_zero_sum (map (fun i => fmul (Fin (nth i pyln.G 0)) (v i))
                             (seq 0 c))) with (acc := zero)
    as [r [-> ->]].
  - apply Forall_forall. intros x Hx. apply in_map_iff in Hx.
    destruct Hx as [i [<- _]]. apply is_zero_mul, Hv.
  - apply is_zero_zero.
  - cbn [log10]. rewrite Rltb_false, Reqb_true by lra.
    cbn [fmul]. unfold inf_times. rewrite Rltb_true by lra. reflexivity.
Qed.

Lemma loudness_of_dead c v :
  (forall i, nan_or_zero (v i)) ->
  pyln.loudness_of c v = NaN \/ pyln.loudness_of c v = NInf.
Proof.
  intros Hv. unfold pyln.loudness_of, sum.
  destruct (nan_or_zero_sum (map (fun i => fmul (Fin (nth i pyln.G 0)) (v i))
                                 (seq 0 c))) with (acc := zero)
    as [-> | [r [-> ->]]].
  - apply Forall_forall. intros x Hx. apply in_map_iff in Hx.
    destruct Hx as [i [<- _]]. apply nan_or_zero_mul, Hv.
  - right. apply is_zero_zero.
  - left. reflexivity.
  - right. cbn [log10]. rewrite Rltb_false, Reqb_true by lra.
    cbn [fmul]. unfold inf_times. rewrite Rltb_true by lra. reflexivity.
Qed.

Lemma z_at_dead z i j :
  Forall (Forall nan_or_zero) z -> nan_or_zero (pyln.z_at z i j).
Proof.
  intros Hz. unfold pyln.z_at.
  assert (Hrow : Forall nan_or_zero (nth i z [])).
  { destruct (nth_in_or_default i z []) as [Hin | ->]; [|constructor].
    eapply Forall_forall in Hz; eauto. }
  destruct (nth_in_or_default j (nth i z []) zero) as [Hin | ->].
  - eapply Forall_forall in Hrow; eauto.
  - right. apply is_zero_zero.
Qed.

Lemma filter_none A (Q : A -> bool) l :
  (forall x, Q x = false) -> filter Q l = [].
Proof.
  intros H. induction l as [|x l IH]; [reflexivity|].
  cbn. now rewrite H.
Qed.

Lemma mean_nil : mean [] = NaN.
Proof.
  unfold mean, sum. cbn. rewrite Reqb_true by reflexivity.
  unfold inf_times. now rewrite !Rltb_false by lra.
Qed.

(** When every block power is NaN or zero no block passes a gate and the
    integrated loudness is [-inf]. *)
Lemma gated_loudness_dead z c nb :
  Forall (Forall nan_or_zero) z -> pyln.gated_loudness z c nb = NInf.
Proof.
  intros Hz.
  assert (Hbl : forall j, fge (pyln.block_loudness z c j) pyln.Gamma_a = false).
  { intros j. unfold pyln.block_loudness.
    destruct (loudness_of_dead c (fun i => pyln.z_at z i j)) as [-> | ->];
      try reflexivity.
    intros i. now apply z_at_dead. }
  unfold pyln.gated_loudness, pyln.J_gated.
  rewrite filter_none.
  - apply loudness_of_zero. intros i. unfold pyln.z_avg. cbn [map].
    rewrite mean_nil. apply is_zero_zero.
  - intros j. rewrite (fgt_fge _ _ (Hbl j)). apply andb_false_r.
Qed.

Lemma fold_fadd_nan l : fold_left fadd l NaN = NaN.
Proof. induction l as [|x l IH]; [reflexivity | exact IH]. Qed.

Lemma sum_squares_nan l :
  Forall (fun x => x = NaN) l ->
  nan_or_zero (sum (map (fun x => fmul x x) l)).
Proof.
  intros H. unfold sum. destruct H as [|x l -> _].
  - right. apply is_zero_zero.
  - left. cbn [map fold_left fmul fadd zero]. apply fold_fadd_nan.
Qed.

Lemma Forall_take A (P : A -> Prop) n : forall xs,
  Forall P xs -> Forall P (firstn n xs).
Proof.
  induction n as [|n IH]; intros xs H; [constructor|].
  destruct H; cbn; constructor; auto.
Qed.

Lemma Forall_drop A (P : A -> Prop) n : forall xs,
  Forall P xs -> Forall P (skipn n xs).
Proof.
  induction n as [|n IH]; intros xs H; [exact H|].
  destruct H; cbn; [constructor | auto].
Qed.

Lemma slice_Forall A (P : A -> Prop) l u xs :
  Forall P xs -> Forall P (slice l u xs).
Proof.
  intros H. unfold slice. now apply Forall_take, Forall_drop.
Qed.

Lemma block_energy_nan m n j :
  nan_or_zero (pyln.block_energy m (repeat NaN n) j).
Proof.
  unfold pyln.block_energy. apply nan_or_zero_mul, sum_squares_nan.
  apply slice_Forall. apply Forall_forall. intros x Hx.
  now apply repeat_spec in Hx.
Qed.

Lemma block_energies_nan m n c nb :
  Forall (Forall nan_or_zero)
         (pyln.block_energies m (full n c NaN) c nb).
Proof.
  unfold pyln.block_energies. apply Forall_forall. intros row Hrow.
  apply in_map_iff in Hrow. destruct Hrow as [i [<- Hi]].
  apply in_seq in Hi. rewrite col_full by lia.
  apply Forall_forall. intros e He. apply in_map_iff in He.
  destruct He as [j [<- _]]. apply block_energy_nan.
Qed.

Lemma shape_full n c v :
  (1 <= n)%nat -> shape0 (full n c v) = n /\ shape1 (full n c v) = c.
Proof.
  intros Hn. unfold shape0, shape1, full. rewrite repeat_length.
  destruct n; [lia|]. cbn. now rewrite repeat_length.
Qed.

(** The meter on an all-NaN buffer that passes its validity check. *)
Lemma measure_copy_nan m n c :
  (1 <= n)%nat -> (1 <= c <= 5)%nat ->
  0 < IZR (pyln.rate m) -> 0 < pyln.block_size m ->
  pyln.block_size m * IZR (pyln.rate m) <= INR n ->
  measure_copy m (full n c NaN) = (full n c NaN, Ok NInf).
Proof.
  intros Hn [Hc1 Hc5] Hr Hb Hlen. unfold measure_copy, pyln.valid_audio.
  destruct (shape_full n c NaN Hn) as [-> ->].
  apply Nat.ltb_ge in Hc5. rewrite Hc5.
  rewrite Rltb_false by lra.
  assert (Hr0 : pyln.rate m <> 0%Z) by (intros E; rewrite E in Hr; lra).
  rewrite filter_stages_nan;
    [| now apply filters_rate
     | apply Forall_forall; intros ch Hch; apply in_seq in Hch; lia].
  destruct (num_blocks_positive m n Hr Hb Hlen) as [nb [-> Hnb]].
  assert (Hnb' : (nb <? 0)%Z = false) by (apply Z.ltb_ge; lia).
  rewrite Hnb'. do 2 f_equal.
  apply gated_loudness_dead, block_energies_nan.
Qed.

Lemma loudness_gain_of_silence target : pyln.loudness_gain NInf target = PInf.
Proof.
  unfold pyln.loudness_gain. cbn [fsub fneg fadd fdiv].
  rewrite Rleb_true by lra. reflexivity.
Qed.

Lemma fmul_nan_r g : fmul g NaN = NaN.
Proof. destruct g; reflexivity. Qed.

Lemma loudness_norm_value_zeros n c rate peak loudness block_size :
  (1 <= n)%nat -> (1 <= c <= 5)%nat ->
  (0 < rate)%Z -> 0 < block_size ->
  block_size * IZR rate <= INR n ->
  loudness_norm_value (full n c (Fin 0)) rate peak loudness block_size
  = Ok (full n c NaN).
Proof.
  intros Hn Hc Hr Hb Hlen. unfold loudness_norm_value, measure.
  destruct (peak_value_zeros n c peak Hn (proj1 Hc)) as [_ ->].
  rewrite measure_copy_nan; try assumption.
  - cbn [snd]. now rewrite scale_full, fmul_nan_r.
  - cbn. now apply IZR_lt in Hr.
Qed.

(** ** C2 *)

(** C2, counterexample.  One channel, one zero sample, 1 Hz, block of one
    second, default targets: the returned sample is NaN, not zero. *)
Lemma silence_returns_nan :
  call_loudness_norm [[Fin 0]] 1 default_peak default_loudness 1
  = Ok [[NaN]].
Proof.
  rewrite call_loudness_norm_eq.
  apply (loudness_norm_value_zeros 1 1); try lia; cbn; lra.
Qed.

(** C2, as amended.  For an all-zero buffer that the meter accepts (one to
    five channels, at least [block_size * rate] frames, positive
    parameters), [loudness_norm] returns a buffer of the same shape in which
    every sample is NaN.  The peak stage divides by the zero peak: its gain
    is [+inf] and [inf * 0] is NaN.  The loudness measured on the way is
    [-inf], and the loudness gain derived from it is [+inf]. *)
Theorem silence_becomes_nan :
  forall (n c : nat) (rate : Z) (peak loudness block_size : R),
    (1 <= c <= 5)%nat -> (0 < rate)%Z -> 0 < block_size ->
    block_size * IZR rate <= INR n ->
    call_loudness_norm (full n c (Fin 0)) rate peak loudness block_size
    = Ok (full n c NaN)
    /\ measured_loudness (full n c (Fin 0)) rate peak block_size = Ok NInf
    /\ (exists p, amax_abs (full n c (Fin 0)) = Ok (Fin p) /\ p = 0
                  /\ pyln.peak_gain (Fin p) peak = PInf)
    /\ pyln.loudness_gain NInf loudness = PInf.
Proof.
  intros n c rate peak loudness block_size Hc Hr Hb Hlen.
  assert (Hr' : 0 < IZR rate) by now apply IZR_lt in Hr.
  assert (Hn : (1 <= n)%nat).
  { destruct n; [|lia]. cbn in Hlen. nra. }
  split; [|split; [|split]].
  - rewrite call_loudness_norm_eq. now apply loudness_norm_value_zeros.
  - rewrite measured_loudness_eq.
    destruct (peak_value_zeros n c peak Hn (proj1 Hc)) as [_ ->].
    unfold measure. now rewrite measure_copy_nan.
  - exists (Rabs 0). split; [now apply amax_abs_zeros|].
    split; [apply Rabs_R0|]. now apply peak_value_zeros with (n := n) (c := c).
  - apply loudness_gain_of_silence.
Qed.

(** The amended statement on two seconds of stereo silence at 2 Hz with
    the default targets and a block of one second. *)
Lemma silence_becomes_nan_witness :
  call_loudness_norm (full 4 2 (Fin 0)) 2 default_peak default_loudness 1
  = Ok (full 4 2 NaN)
  /\ measured_loudness (full 4 2 (Fin 0)) 2 default_peak 1 = Ok NInf
  /\ (exists p, amax_abs (full 4 2 (Fin 0)) = Ok (Fin p) /\ p = 0
                /\ pyln.peak_gain (Fin p) default_peak = PInf)
  /\ pyln.loudness_gain NInf default_loudness = PInf.
Proof.
  apply (silence_becomes_nan 4 2 2 default_peak default_loudness 1).
  - lia.
  - lia.
  - lra.
  - cbn. lra.
Defined.

(** ** A two-block signal through the meter *)

Lemma lufs_power_of_lufs l : lufs (power_of_lufs l) = l.
Proof. unfold power_of_lufs. rewrite lufs_pow10. lra. Qed.

Lemma K_sample_for_lufs l :
  K_shelf * sample_for_lufs l * (K_shelf * sample_for_lufs l)
  = 4 * Rpower 10 ((l + 0.691) / 10).
Proof.
  unfold sample_for_lufs. pose proof K_shelf_pos.
  replace (K_shelf * (2 * Rpower 10 ((l + 0.691) / 20) / K_shelf))
    with (2 * Rpower 10 ((l + 0.691) / 20)) by (field; lra).
  replace ((l + 0.691) / 10) with ((l + 0.691) / 20 + (l + 0.691) / 20)
    by lra.
  rewrite Rpower_plus. ring.
Qed.

Lemma two_block_signal_powers :
  measure_copy {| pyln.rate := 2; pyln.block_size := 2 |} two_block_signal
  = (mono (map (Rmult K_shelf)
               [sample_for_lufs (-80); 0; 0; 0; sample_for_lufs (-20)]),
     Ok (pyln.gated_loudness
           [[Fin (Rpower 10 ((-80 + 0.691) / 10));
             Fin (Rpower 10 ((-20 + 0.691) / 10))]] 1 2)).
Proof.
  unfold measure_copy, pyln.valid_audio, two_block_signal.
  cbn [pyln.rate pyln.block_size shape1 shape0 mono map length Nat.ltb Nat.leb].
  rewrite Rltb_false by (cbn; lra).
  change (seq 0 1) with [0%nat].
  pose proof (kweighting_degenerate
                {| pyln.rate := 2; pyln.block_size := 2 |} 750 19
                [sample_for_lufs (-80); 0; 0; 0; sample_for_lufs (-20)]) as HK.
  cbn [pyln.rate mono map] in HK.
  rewrite HK by (try discriminate; lra).
  f_equal. unfold pyln.num_blocks. cbn [pyln.rate pyln.block_size Z.eqb].
  unfold pyln.step at 1. rewrite Reqb_false by lra.
  replace ((INR 5 / 2 - 2) / (2 * pyln.step)) with (IZR 1)
    by (unfold pyln.step; cbn [INR]; lra).
  rewrite round_half_even_IZR.
  change (1 + 1 <? 0)%Z with false. change (Z.to_nat (1 + 1)) with 2%nat.
  unfold pyln.block_energies. change (range 2) with [0; 1]%Z.
  cbn [seq map col nth].
  unfold pyln.block_energy. cbn [pyln.rate pyln.block_size].
  rewrite (trunc_eq 0) by (try lia; unfold pyln.step; lra).
  rewrite (trunc_eq 4) by (try lia; unfold pyln.step; lra).
  rewrite (trunc_eq 1) by (try lia; unfold pyln.step; lra).
  rewrite (trunc_eq 5) by (try lia; unfold pyln.step; lra).
  set (x0 := K_shelf * sample_for_lufs (-80)).
  set (x4 := K_shelf * sample_for_lufs (-20)).
  change (slice 0 4 [Fin x0; Fin (K_shelf * 0); Fin (K_shelf * 0);
                     Fin (K_shelf * 0); Fin x4])
    with [Fin x0; Fin (K_shelf * 0); Fin (K_shelf * 0); Fin (K_shelf * 0)].
  change (slice 1 5 [Fin x0; Fin (K_shelf * 0); Fin (K_shelf * 0);
                     Fin (K_shelf * 0); Fin x4])
    with [Fin (K_shelf * 0); Fin (K_shelf * 0); Fin (K_shelf * 0); Fin x4].
  cbn [map sum fold_left fmul fadd zero].
  pose proof (K_sample_for_lufs (-80)) as H80.
  pose proof (K_sample_for_lufs (-20)) as H20.
  fold x0 in H80. fold x4 in H20.
  do 4 f_equal.
  - f_equal. set (s := x0 * x0) in *. lra.
  - do 2 f_equal. set (s := x4 * x4) in *. lra.
Qed.

Lemma two_block_signal_loudness :
  call_integrated_loudness two_block_signal 2 2 = Ok (Fin (-20)).
Proof.
  rewrite call_integrated_loudness_eq. unfold measure.
  rewrite two_block_signal_powers. cbn [snd]. f_equal.
  change (Rpower 10 ((-80 + 0.691) / 10)) with (power_of_lufs (-80)).
  change (Rpower 10 ((-20 + 0.691) / 10)) with (power_of_lufs (-20)).
  rewrite <- (lufs_power_of_lufs (-20)) at 2.
  apply (gated_loudness_single_level
           [Fin (power_of_lufs (-80)); Fin (power_of_lufs (-20))]).
  - apply pow10_pos.
  - rewrite lufs_power_of_lufs. lra.
  - constructor; [left | constructor; [now right | constructor]].
    rewrite block_lufs_fin, lufs_power_of_lufs by apply pow10_pos.
    cbn. apply Rleb_false. lra.
  - right. now left.
Qed.

(** ** Counting notes *)

Lemma feq_sym a b : feq a b = feq b a.
Proof.
  destruct a, b; cbn; try reflexivity.
  unfold Reqb. destruct (Req_dec_T x x0), (Req_dec_T x0 x);
    try reflexivity; congruence.
Qed.

Lemma feq_trans a b c : feq a b = true -> feq b c = true -> feq a c = true.
Proof.
  destruct a, b, c; cbn; try discriminate; try reflexivity.
  rewrite !Reqb_spec. congruence.
Qed.

Lemma feq_other k' k k'' :
  feq k'' k' = true -> feq k'' k = feq k' k.
Proof.
  intros H. destruct (feq k' k) eqn:E.
  - eapply feq_trans; eauto.
  - destruct (feq k'' k) eqn:E'; [|reflexivity].
    rewrite <- E. symmetry. eapply feq_trans; [|exact E'].
    now rewrite feq_sym.
Qed.

Lemma counter_get_set c k' v k :
  counter_get (counter_set c k' v) k
  = if feq k' k then v else counter_get c k.
Proof.
  induction c as [|[k'' n] c IH]; cbn [counter_set counter_get].
  - reflexivity.
  - destruct (feq k'' k') eqn:E; cbn [counter_get].
    + rewrite (feq_other k' k k'' E). destruct (feq k' k); reflexivity.
    + rewrite IH. destruct (feq k'' k) eqn:E'; [|reflexivity].
      destruct (feq k' k) eqn:E''; [|reflexivity].
      exfalso. assert (feq k'' k' = true); [|congruence].
      eapply feq_trans; [exact E'|]. now rewrite feq_sym.
Qed.

Lemma counter_get_feq c k' k :
  feq k' k = true -> counter_get c k' = counter_get c k.
Proof.
  intros H. induction c as [|[k'' n] c IH]; [reflexivity|].
  cbn [counter_get].
  assert (E : feq k'' k' = feq k'' k).
  { destruct (feq k'' k') eqn:E1.
    - symmetry. eapply feq_trans; eauto.
    - destruct (feq k'' k) eqn:E2; [|reflexivity].
      exfalso. assert (feq k'' k' = true); [|congruence].
      eapply feq_trans; [exact E2|]. now rewrite feq_sym. }
  rewrite E. destruct (feq k'' k); [reflexivity | exact IH].
Qed.

Lemma counter_total_set c k v :
  counter_total (counter_set c k v)
  = (counter_total c + v - counter_get c k)%Z.
Proof.
  induction c as [|[k' n] c IH].
  - cbn. lia.
  - cbn [counter_get counter_set]. destruct (feq k' k) eqn:E.
    + cbn. lia.
    + unfold counter_total in *. cbn [fold_right snd]. rewrite IH. lia.
Qed.

Lemma counter_total_incr c k :
  counter_total (counter_incr c k) = (counter_total c + 1)%Z.
Proof. unfold counter_incr. rewrite counter_total_set. lia. Qed.

Lemma skipped_iff i :
  skipped i = true
  <-> i = PInf \/ i = NInf \/ i = NaN \/ (exists r, i = Fin r /\ r = 0).
Proof.
  unfold skipped. destruct i as [r| | |]; cbn.
  - rewrite Reqb_spec. split.
    + intros ->. right; right; right. eauto.
    + intros [H|[H|[H|[s [H ->]]]]]; try discriminate. now injection H.
  - split; auto.
  - split; auto.
  - split; auto.
Qed.

Lemma count_frames_get f0 k : forall c0,
  counter_get
    (fold_left (fun counter i =>
                  if skipped i then counter
                  else counter_incr counter (hz_to_midi i)) f0 c0) k
  = (counter_get c0 k
     + Z.of_nat (length (filter (fun i => feq (hz_to_midi i) k)
                                (surviving f0))))%Z.
Proof.
  unfold surviving. induction f0 as [|i f0 IH]; intros c0.
  - cbn. lia.
  - cbn [fold_left filter]. rewrite IH.
    destruct (skipped i); cbn [negb]; [reflexivity|].
    cbn [filter]. unfold counter_incr at 1. rewrite counter_get_set.
    destruct (feq (hz_to_midi i) k) eqn:E; cbn [length]; [|lia].
    rewrite (counter_get_feq c0 _ _ E). lia.
Qed.

Lemma count_frames_total f0 : forall c0,
  counter_total
    (fold_left (fun counter i =>
                  if skipped i then counter
                  else counter_incr counter (hz_to_midi i)) f0 c0)
  = (counter_total c0 + Z.of_nat (length (surviving f0)))%Z.
Proof.
  unfold surviving. induction f0 as [|i f0 IH]; intros c0.
  - cbn [fold_left filter length Z.of_nat]. lia.
  - cbn [fold_left filter]. rewrite IH.
    destruct (skipped i); cbn [negb]; [reflexivity|].
    rewrite counter_total_incr. cbn [length]. lia.
Qed.

(** ** C10 *)

(** C10 (count_midi_from_file).  The function fails exactly when the pitch
    extraction does; otherwise, for the extracted frames [f0], it returns a
    counter in which
    - a frame is skipped exactly when its frequency is infinite, NaN or 0;
    - a surviving frame adds exactly 1 to the count of its key
      [hz_to_midi(frequency)] and changes no other count;
    - the count of every key is the number of surviving frames with that
      key, and the counts add up to the number of surviving frames. *)
Theorem count_midi_from_file_counts :
  forall (pitch_frequencies : string -> result (list float64))
         (file : string),
    match count_midi_from_file pitch_frequencies file with
    | Raise e => pitch_frequencies file = Raise e
    | Ok counter =>
        exists f0,
          pitch_frequencies file = Ok f0
          /\ counter = count_frames f0
          /\ (forall i, In i (surviving f0) <->
                        In i f0 /\ isinf i = false /\ isnan i = false
                        /\ feq i zero = false)
          /\ (forall k, counter_get counter k
                        = Z.of_nat (length (filter
                                              (fun i => feq (hz_to_midi i) k)
                                              (surviving f0))))
          /\ counter_total counter = Z.of_nat (length (surviving f0))
    end
    /\ (forall i, skipped i = true
                  <-> i = PInf \/ i = NInf \/ i = NaN
                      \/ (exists r, i = Fin r /\ r = 0))
    /\ (forall c i k,
          counter_get (counter_incr c (hz_to_midi i)) k
          = (counter_get c k + if feq (hz_to_midi i) k then 1 else 0)%Z)
    /\ (forall c i,
          counter_total (counter_incr c (hz_to_midi i))
          = (counter_total c + 1)%Z).
Proof.
  intros pf file. split; [|split; [|split]].
  - unfold count_midi_from_file. destruct (pf file) as [f0|e]; [|reflexivity].
    exists f0. split; [reflexivity|]. split; [reflexivity|].
    split; [|split].
    + intros i. unfold surviving. rewrite filter_In. unfold skipped.
      destruct (isinf i), (isnan i), (feq i zero); cbn; intuition congruence.
    + intros k. unfold count_frames. rewrite count_frames_get. cbn. lia.
    + unfold count_frames. rewrite count_frames_total. cbn. lia.
  - apply skipped_iff.
  - intros c i k. unfold counter_incr. rewrite counter_get_set.
    destruct (feq (hz_to_midi i) k) eqn:E; [|lia].
    rewrite (counter_get_feq c _ _ E). lia.
  - intros c i. apply counter_total_incr.
Qed.

(** ** The meter on a one-sample signal at 1 Hz with the default block *)

Lemma slice_empty A (x : A) : slice 0 0 [x] = [].
Proof. reflexivity. Qed.

Lemma slice_whole A (x : A) : slice 0 1 [x] = [x].
Proof. reflexivity. Qed.

(** Blocks 0..5 end before the first sample boundary and are empty. *)
Lemma block_energy_default_empty y j :
  (0 <= j <= 5)%Z ->
  is_zero (pyln.block_energy
             {| pyln.rate := 1; pyln.block_size := pyln.default_block_size |}
             [Fin y] j).
Proof.
  intros [Hj0 Hj5]. apply IZR_le in Hj0, Hj5.
  unfold pyln.block_energy, pyln.default_block_size, pyln.step.
  cbn [pyln.rate pyln.block_size].
  rewrite (trunc_eq 0) by (try lia; lra).
  rewrite (trunc_eq 0) by (try lia; lra).
  rewrite slice_empty. cbn [map sum fold_left].
  apply is_zero_mul, is_zero_zero.
Qed.

(** Block 6 holds the sample. *)
Lemma block_energy_default_last y :
  pyln.block_energy
    {| pyln.rate := 1; pyln.block_size := pyln.default_block_size |}
    [Fin y] 6
  = Fin (5 / 2 * (y * y)).
Proof.
  unfold pyln.block_energy, pyln.default_block_size, pyln.step.
  cbn [pyln.rate pyln.block_size].
  rewrite (trunc_eq 0) by (try lia; lra).
  rewrite (trunc_eq 1) by (try lia; lra).
  rewrite slice_whole. cbn [map sum fold_left fmul fadd zero].
  f_equal. set (s := y * y). lra.
Qed.

Lemma is_zero_below_gate e :
  is_zero e -> fge (block_lufs e) pyln.Gamma_a = false.
Proof.
  intros [r [-> Hr]]. now rewrite block_lufs_zero.
Qed.

Lemma measure_copy_default_block y :
  y <> 0 ->
  -70 < lufs (5 / 2 * (K_shelf * y * (K_shelf * y))) ->
  measure_copy
    {| pyln.rate := 1; pyln.block_size := pyln.default_block_size |} (mono [y])
  = (mono [K_shelf * y],
     Ok (Fin (lufs (5 / 2 * (K_shelf * y * (K_shelf * y)))))).
Proof.
  intros Hy Hl. unfold measure_copy, pyln.valid_audio.
  cbn [pyln.rate pyln.block_size shape1 shape0 mono map length Nat.ltb Nat.leb].
  rewrite Rltb_false by (unfold pyln.default_block_size; cbn; lra).
  change (seq 0 1) with [0%nat].
  pose proof (kweighting_degenerate
                {| pyln.rate := 1;
                   pyln.block_size := pyln.default_block_size |}
                1500 38 [y]) as HK.
  cbn [pyln.rate mono map] in HK.
  rewrite HK by (try discriminate; lra).
  f_equal. unfold pyln.num_blocks. cbn [pyln.rate pyln.block_size Z.eqb].
  unfold pyln.step at 1, pyln.default_block_size at 1.
  rewrite Reqb_false by lra.
  replace ((INR 1 / 1 - pyln.default_block_size)
           / (pyln.default_block_size * pyln.step)) with (IZR 6)
    by (unfold pyln.step, pyln.default_block_size; cbn [INR]; lra).
  rewrite round_half_even_IZR.
  change (6 + 1 <? 0)%Z with false. change (Z.to_nat (6 + 1)) with 7%nat.
  unfold pyln.block_energies.
  change (range 7) with [0; 1; 2; 3; 4; 5; 6]%Z.
  cbn [seq map col nth].
  rewrite block_energy_default_last.
  set (m := {| pyln.rate := 1; pyln.block_size := pyln.default_block_size |}).
  set (p := 5 / 2 * (K_shelf * y * (K_shelf * y))).
  f_equal.
  apply (gated_loudness_single_level
           [pyln.block_energy m [Fin (K_shelf * y)] 0;
            pyln.block_energy m [Fin (K_shelf * y)] 1;
            pyln.block_energy m [Fin (K_shelf * y)] 2;
            pyln.block_energy m [Fin (K_shelf * y)] 3;
            pyln.block_energy m [Fin (K_shelf * y)] 4;
            pyln.block_energy m [Fin (K_shelf * y)] 5;
            Fin p] p).
  - unfold p. pose proof K_shelf_pos. assert (K_shelf * y <> 0) by nra. nra.
  - exact Hl.
  - repeat (constructor;
            [first [ now right
                   | left; apply is_zero_below_gate,
                                 block_energy_default_empty; lia ] |]).
    constructor.
  - do 6 right. now left.
Qed.

(** ** The file-based path on the one-sample buffer *)

Lemma range_step_single : range_step 1 chunk_size = [0%Z].
Proof. reflexivity. Qed.

Lemma slice_chunk_single A (x : A) : slice 0 (0 + chunk_size) [x] = [x].
Proof. reflexivity. Qed.

Lemma lookup_here p c F : sf.lookup p ((p, c) :: F) = Some c.
Proof. cbn [sf.lookup]. now rewrite String.eqb_refl. Qed.

Lemma raw_unit_sample_above_gate :
  -70 < lufs (5 / 2 * (K_shelf * 1 * (K_shelf * 1))).
Proof.
  assert (HK : 1 <= K_shelf * 1 * (K_shelf * 1)).
  { rewrite K_shelf_pow, !Rmult_1_r, <- Rpower_plus.
    apply pow10_ge_1. lra. }
  unfold lufs.
  assert (0 <= ln (5 / 2 * (K_shelf * 1 * (K_shelf * 1))) / ln 10)
    by (apply log10_nonneg; lra).
  lra.
Qed.

Lemma loudness_norm_file_unit_sample peak loudness block_size :
  call_loudness_norm_file [[Fin 1]] 1 peak loudness block_size
  = Ok [[Fin (Rpower 10 (peak / 20))]].
Proof.
  unfold call_loudness_norm_file, loudness_norm_file.
  unfold bind at 1. unfold sf.read at 1.
  cbn [files heap]. rewrite lookup_here.
  cbn [sf_frames sf_samplerate app length].
  unfold bind at 1. unfold pyln.new_Meter at 1, ret at 1.
  unfold bind at 1.
  rewrite (integrated_loudness_run [ [[Fin 1]] ] _ _ 0%nat [[Fin 1]] eq_refl).
  change [[Fin 1]] with (mono [1]) at 1 2 3.
  rewrite measure_copy_default_block
    by (try lra; apply raw_unit_sample_above_gate).
  cbn [fst snd app].
  set (L0 := lufs (5 / 2 * (K_shelf * 1 * (K_shelf * 1)))).
  unfold bind at 1.
  rewrite (normalize_loudness_run _ _ 0%nat [[Fin 1]])
    by (try reflexivity; discriminate).
  cbn [app length].
  assert (Hg : pyln.loudness_gain (Fin L0) loudness
               = Fin (Rpower 10 ((loudness + - L0) / 20))).
  { unfold pyln.loudness_gain. cbn [fsub fneg fadd].
    now rewrite fdiv_fin by lra. }
  rewrite Hg. pose proof (pow10_pos ((loudness + - L0) / 20)) as Hg0.
  set (g := Rpower 10 ((loudness + - L0) / 20)) in *.
  cbn [scale map fmul].
  unfold bind at 1.
  rewrite (normalize_peak_run _ _ 2%nat [[Fin (g * 1)]]) by reflexivity.
  rewrite peak_value_single by lra.
  cbn [app length].
  replace (Rpower 10 (peak / 20) / Rabs (g * 1) * (g * 1))
    with (Rpower 10 (peak / 20))
    by (rewrite Rabs_pos_eq by lra; field; lra).
  unfold bind at 1. unfold load at 1. cbn [heap files nth_error].
  unfold bind at 1. unfold sf.open_w at 1. cbn [heap files length].
  change (Z.of_nat 1) with 1%Z. rewrite range_step_single.
  cbn [for_each]. unfold bind at 1. unfold sf.write at 1.
  cbn [heap files]. rewrite lookup_here. cbn [sf_frames sf_samplerate app].
  unfold ret. cbn [files]. rewrite lookup_here. cbn [sf_frames].
  now rewrite slice_chunk_single.
Qed.

(** ** C7 *)

(** C7 (the two paths differ).  One sample [1.0] at 1 Hz with the default
    targets and block size.  The file-based path applies the loudness gain
    and then peak-normalises, so it writes the sample at the peak target
    [10^(-1/20)].  The in-memory path peak-normalises first and applies the
    loudness gain last, which for the default target of -23 LUFS is an
    attenuation: it returns a strictly smaller sample. *)
Theorem in_memory_and_file_paths_differ :
  exists v,
    call_loudness_norm [[Fin 1]] 1 default_peak default_loudness
      default_block_size = Ok [[Fin v]]
    /\ call_loudness_norm_file [[Fin 1]] 1 default_peak default_loudness
         default_block_size = Ok [[Fin (Rpower 10 (default_peak / 20))]]
    /\ v < Rpower 10 (default_peak / 20)
    /\ [[Fin v]] <> [[Fin (Rpower 10 (default_peak / 20))]].
Proof.
  pose proof (pow10_pos (default_peak / 20)) as HP.
  set (P := Rpower 10 (default_peak / 20)) in *.
  set (L := lufs (5 / 2 * (K_shelf * P * (K_shelf * P)))).
  assert (HKP : 1 <= K_shelf * P * (K_shelf * P)).
  { unfold P. rewrite K_shelf_peak_power. apply pow10_ge_1.
    unfold default_peak. lra. }
  assert (HL : -0.691 <= L).
  { unfold L, lufs.
    assert (0 <= ln (5 / 2 * (K_shelf * P * (K_shelf * P))) / ln 10)
      by (apply log10_nonneg; lra).
    lra. }
  assert (Hg : Rpower 10 ((default_loudness + - L) / 20) < 1).
  { rewrite <- (Rpower_O 10) by lra. apply Rpower_lt; [lra|].
    unfold default_loudness. lra. }
  pose proof (pow10_pos ((default_loudness + - L) / 20)) as Hg0.
  exists (Rpower 10 ((default_loudness + - L) / 20) * P).
  split; [|split; [|split]].
  - rewrite call_loudness_norm_eq. unfold loudness_norm_value.
    rewrite peak_value_one. fold P. unfold measure.
    change [[Fin P]] with (mono [P]).
    change default_block_size with pyln.default_block_size.
    rewrite measure_copy_default_block by (fold L; lra).
    cbn [snd]. fold L. unfold pyln.loudness_gain. cbn [fsub fneg fadd].
    rewrite fdiv_fin by lra. reflexivity.
  - apply loudness_norm_file_unit_sample.
  - nra.
  - intros H. injection H. nra.
Qed.

(** ** Linearity of the meter under a positive gain *)

Ltac fcases :=
  cbn; rdecide; cbn; rdecide;
  try reflexivity; try lra; try (exfalso; nra);
  try (f_equal; ring);
  try (exfalso;
       match goal with
       | H : ~ 0 < ?y, H' : ~ ?y < 0 |- _ =>
           assert (Hz : y = 0) by lra; try rewrite Hz in *; nra
       end).

Lemma fmul_comm a b : fmul a b = fmul b a.
Proof. destruct a, b; fcases. Qed.

Lemma fmul_pos_fadd k a b :
  0 < k -> fmul (Fin k) (fadd a b) = fadd (fmul (Fin k) a) (fmul (Fin k) b).
Proof. intros Hk. destruct a, b; fcases. Qed.

Lemma fmul_pos_fneg k a :
  0 < k -> fmul (Fin k) (fneg a) = fneg (fmul (Fin k) a).
Proof. intros Hk. destruct a; fcases. Qed.

Lemma fmul_pos_fsub k a b :
  0 < k -> fmul (Fin k) (fsub a b) = fsub (fmul (Fin k) a) (fmul (Fin k) b).
Proof.
  intros Hk. unfold fsub. now rewrite fmul_pos_fadd, fmul_pos_fneg.
Qed.

Lemma fmul_swap k b x :
  fmul (Fin k) (fmul b x) = fmul b (fmul (Fin k) x).
Proof.
  rewrite fmul_assoc, (fmul_comm (Fin k) b), <- fmul_assoc. reflexivity.
Qed.

Lemma fmul_swap_r k x b :
  fmul (Fin k) (fmul x b) = fmul (fmul (Fin k) x) b.
Proof. apply fmul_assoc. Qed.

Lemma fmul_pos_zero k : fmul (Fin k) zero = zero.
Proof. unfold zero. cbn. f_equal. ring. Qed.

Lemma fmul_square k x :
  fmul (fmul (Fin k) x) (fmul (Fin k) x) = fmul (Fin (k * k)) (fmul x x).
Proof.
  rewrite <- fmul_assoc, (fmul_comm x (fmul (Fin k) x)), <- fmul_assoc.
  rewrite fmul_assoc. cbn [fmul]. reflexivity.
Qed.

Lemma fdiv_pos_scale k s n :
  0 < k -> 0 <= n ->
  fdiv (fmul (Fin k) s) (Fin n) = fmul (Fin k) (fdiv s (Fin n)).
Proof.
  intros Hk Hn. destruct s; fcases; try (f_equal; field; lra).
Qed.

Lemma log10_scale c s :
  0 < c -> log10 (fmul (Fin c) s) = fadd (log10 s) (Fin (ln c / ln 10)).
Proof.
  intros Hc. pose proof ln10_pos as H10.
  destruct s as [r| | |]; cbn; rdecide; cbn; rdecide;
    try reflexivity; try lra; try (exfalso; nra).
  f_equal. rewrite ln_mult by lra. field. lra.
Qed.

Lemma fadd_shift_assoc u y d :
  fadd (Fin u) (fadd y (Fin d)) = fadd (fadd (Fin u) y) (Fin d).
Proof. destruct y; fcases. Qed.

Lemma fsub_shift x d e :
  fsub (fadd x (Fin d)) (Fin e) = fadd (fsub x (Fin e)) (Fin d).
Proof. unfold fsub. destruct x; fcases. Qed.

Lemma flt_shift a b d : flt (fadd a (Fin d)) (fadd b (Fin d)) = flt a b.
Proof. destruct a, b; fcases. Qed.

Lemma nan_to_num_scale k x :
  isinf x = false -> nan_to_num (fmul (Fin k) x) = fmul (Fin k) (nan_to_num x).
Proof. destruct x; cbn; try discriminate; intros _; f_equal; ring. Qed.

Lemma fold_fadd_scale k l :
  0 < k ->
  forall acc,
    fold_left fadd (map (fmul (Fin k)) l) (fmul (Fin k) acc)
    = fmul (Fin k) (fold_left fadd l acc).
Proof.
  intros Hk. induction l as [|x l IH]; intros acc; [reflexivity|].
  cbn [map fold_left]. rewrite <- fmul_pos_fadd by assumption. apply IH.
Qed.

Lemma sum_scale k l :
  0 < k -> sum (map (fmul (Fin k)) l) = fmul (Fin k) (sum l).
Proof.
  intros Hk. unfold sum. rewrite <- (fmul_pos_zero k) at 1.
  now apply fold_fadd_scale.
Qed.

Lemma mean_scale k l :
  0 < k -> mean (map (fmul (Fin k)) l) = fmul (Fin k) (mean l).
Proof.
  intros Hk. unfold mean. rewrite sum_scale, length_map by assumption.
  apply fdiv_pos_scale; [assumption | apply pos_INR].
Qed.

Lemma slice_map A B (f : A -> B) l u xs :
  slice l u (map f xs) = map f (slice l u xs).
Proof.
  unfold slice. rewrite length_map.
  now rewrite skipn_map, firstn_map.
Qed.

Lemma col_scale k ch a :
  col ch (scale (Fin k) a) = map (fmul (Fin k)) (col ch a).
Proof.
  unfold col, scale. rewrite !map_map. apply map_ext. intros f.
  rewrite <- (fmul_pos_zero k) at 1. apply map_nth.
Qed.

Lemma set_nth_map A B (f : A -> B) n x : forall l,
  set_nth n (f x) (map f l) = map f (set_nth n x l).
Proof.
  induction n as [|n IH]; intros [|y l]; cbn; try reflexivity.
  now rewrite IH.
Qed.

Lemma set_col_scale g ch : forall y a,
  set_col ch (map (fmul g) y) (scale g a) = scale g (set_col ch y a).
Proof.
  unfold scale. intros y a. revert y.
  induction a as [|f a IH]; intros [|v y]; cbn [map set_col]; try reflexivity.
  rewrite set_nth_map. f_equal. apply IH.
Qed.

Lemma biquad_state0_scale k z1 xn yn b1 a1 :
  0 < k ->
  fsub (fadd (fmul (Fin k) z1) (fmul (fmul (Fin k) xn) b1))
       (fmul (fmul (Fin k) yn) a1)
  = fmul (Fin k) (fsub (fadd z1 (fmul xn b1)) (fmul yn a1)).
Proof.
  intros Hk. rewrite fmul_pos_fsub, fmul_pos_fadd by assumption.
  now rewrite !fmul_swap_r.
Qed.

Lemma biquad_state1_scale k xn yn b2 a2 :
  0 < k ->
  fsub (fmul (fmul (Fin k) xn) b2) (fmul (fmul (Fin k) yn) a2)
  = fmul (Fin k) (fsub (fmul xn b2) (fmul yn a2)).
Proof.
  intros Hk. rewrite fmul_pos_fsub by assumption. now rewrite !fmul_swap_r.
Qed.

Lemma lfilter_from_scale k b0 b1 b2 a1 a2 x :
  0 < k ->
  forall z0 z1,
    pyln.lfilter_from b0 b1 b2 a1 a2
      (fmul (Fin k) z0) (fmul (Fin k) z1) (map (fmul (Fin k)) x)
    = map (fmul (Fin k)) (pyln.lfilter_from b0 b1 b2 a1 a2 z0 z1 x).
Proof.
  intros Hk. induction x as [|xn x IH]; intros z0 z1; [reflexivity|].
  cbn [map pyln.lfilter_from].
  assert (Hy : fadd (fmul (Fin k) z0) (fmul b0 (fmul (Fin k) xn))
               = fmul (Fin k) (fadd z0 (fmul b0 xn))).
  { now rewrite fmul_pos_fadd, fmul_swap. }
  rewrite Hy. set (yn := fadd z0 (fmul b0 xn)).
  rewrite biquad_state0_scale, biquad_state1_scale by assumption.
  f_equal. apply IH.
Qed.

Lemma lfilter_scale k c x :
  0 < k ->
  pyln.lfilter c (map (fmul (Fin k)) x)
  = map (fmul (Fin k)) (pyln.lfilter c x).
Proof.
  intros Hk. unfold pyln.lfilter.
  rewrite <- lfilter_from_scale by assumption.
  now rewrite fmul_pos_zero.
Qed.

Lemma apply_filter_scale k f x :
  0 < k ->
  pyln.apply_filter f (map (fmul (Fin k)) x)
  = match pyln.apply_filter f x with
    | Ok y => Ok (map (fmul (Fin k)) y)
    | Raise e => Raise e
    end.
Proof.
  intros Hk. unfold pyln.apply_filter.
  destruct (pyln.generate_coefficients f) as [c|e]; [|reflexivity].
  rewrite (lfilter_scale k c x Hk).
  f_equal. rewrite !map_map. apply map_ext. intros y.
  symmetry. apply fmul_swap.
Qed.

Lemma filter_channels_scale k f chs :
  0 < k ->
  forall d,
    filter_channels f chs (scale (Fin k) d)
    = (scale (Fin k) (fst (filter_channels f chs d)),
       snd (filter_channels f chs d)).
Proof.
  intros Hk. induction chs as [|ch chs IH]; intros d; [reflexivity|].
  cbn [filter_channels]. rewrite col_scale, apply_filter_scale by assumption.
  destruct (pyln.apply_filter f (col ch d)) as [y|e]; [|reflexivity].
  rewrite set_col_scale. apply IH.
Qed.

Lemma filter_stages_scale k fs chs :
  0 < k ->
  forall d,
    filter_stages fs chs (scale (Fin k) d)
    = (scale (Fin k) (fst (filter_stages fs chs d)),
       snd (filter_stages fs chs d)).
Proof.
  intros Hk. induction fs as [|f fs IH]; intros d; [reflexivity|].
  cbn [filter_stages]. rewrite filter_channels_scale by assumption.
  destruct (filter_channels f chs d) as [d' [[]|e]]; cbn [fst snd];
    [apply IH | reflexivity].
Qed.

Lemma block_energy_scale k m chan j :
  0 < k ->
  pyln.block_energy m (map (fmul (Fin k)) chan) j
  = fmul (Fin (k * k)) (pyln.block_energy m chan j).
Proof.
  intros Hk. unfold pyln.block_energy. rewrite slice_map, map_map.
  assert (Hkk : 0 < k * k) by nra.
  replace (map (fun x => fmul (fmul (Fin k) x) (fmul (Fin k) x))
               (slice _ _ chan))
    with (map (fmul (Fin (k * k)))
              (map (fun x => fmul x x) (slice
                 (trunc (pyln.block_size m * (IZR j * pyln.step)
                         * IZR (pyln.rate m)))
                 (trunc (pyln.block_size m * (IZR j * pyln.step + 1)
                         * IZR (pyln.rate m))) chan))).
  - rewrite sum_scale by assumption. symmetry. apply fmul_swap.
  - rewrite map_map. apply map_ext. intros x. symmetry. apply fmul_square.
Qed.

Lemma block_energies_scale k m d c nb :
  0 < k ->
  pyln.block_energies m (scale (Fin k) d) c nb
  = map (map (fmul (Fin (k * k)))) (pyln.block_energies m d c nb).
Proof.
  intros Hk. unfold pyln.block_energies. rewrite map_map.
  apply map_ext. intros i. rewrite map_map, col_scale.
  apply map_ext. intros j. now apply block_energy_scale.
Qed.

Lemma z_at_scale c z i j :
  pyln.z_at (map (map (fmul (Fin c))) z) i j = fmul (Fin c) (pyln.z_at z i j).
Proof.
  unfold pyln.z_at.
  change (@nil float64) with (map (fmul (Fin c)) []) at 1.
  rewrite map_nth. rewrite <- (fmul_pos_zero c) at 1. apply map_nth.
Qed.

Lemma loudness_of_scale c n v :
  0 < c ->
  pyln.loudness_of n (fun i => fmul (Fin c) (v i))
  = fadd (pyln.loudness_of n v) (Fin (10 * (ln c / ln 10))).
Proof.
  intros Hc. unfold pyln.loudness_of.
  replace (map (fun i => fmul (Fin (nth i pyln.G 0)) (fmul (Fin c) (v i)))
               (seq 0 n))
    with (map (fmul (Fin c))
              (map (fun i => fmul (Fin (nth i pyln.G 0)) (v i)) (seq 0 n))).
  - rewrite sum_scale, log10_scale by assumption.
    rewrite fmul_pos_fadd by lra. cbn [fmul].
    apply fadd_shift_assoc.
  - rewrite map_map. apply map_ext. intros i. apply fmul_swap.
Qed.

Lemma isinf_fadd a b :
  isinf a = false -> isinf b = false -> isinf (fadd a b) = false.
Proof. destruct a, b; cbn; congruence. Qed.

Lemma isinf_sum l :
  Forall (fun e => isinf e = false) l ->
  forall acc, isinf acc = false -> isinf (fold_left fadd l acc) = false.
Proof.
  induction 1 as [|x l Hx _ IH]; intros acc Hacc; [exact Hacc|].
  cbn [fold_left]. apply IH. now apply isinf_fadd.
Qed.

Lemma isinf_mean l :
  Forall (fun e => isinf e = false) l -> isinf (mean l) = false.
Proof.
  intros H. destruct l as [|x l]; [now rewrite mean_nil|].
  unfold mean, sum.
  pose proof (isinf_sum (x :: l) H zero eq_refl) as Hs.
  destruct (fold_left fadd (x :: l) zero) as [r| | |]; try discriminate;
    [|reflexivity].
  rewrite fdiv_fin; [reflexivity|].
  apply not_0_INR. cbn [length]. lia.
Qed.

Lemma isinf_z_at z i j :
  Forall (Forall (fun e => isinf e = false)) z ->
  isinf (pyln.z_at z i j) = false.
Proof.
  intros Hz. unfold pyln.z_at.
  assert (Hrow : Forall (fun e => isinf e = false) (nth i z [])).
  { destruct (nth_in_or_default i z []) as [Hin | ->]; [|constructor].
    eapply Forall_forall in Hz; eauto. }
  destruct (nth_in_or_default j (nth i z []) zero) as [Hin | ->];
    [|reflexivity].
  eapply Forall_forall in Hrow; eauto.
Qed.

Lemma z_avg_scale c z J i :
  0 < c ->
  pyln.z_avg (map (map (fmul (Fin c))) z) J i
  = fmul (Fin c) (pyln.z_avg z J i).
Proof.
  intros Hc. unfold pyln.z_avg. rewrite <- mean_scale by assumption.
  f_equal. rewrite map_map. apply map_ext. intros j. apply z_at_scale.
Qed.

Lemma block_loudness_scale c z n j :
  0 < c ->
  pyln.block_loudness (map (map (fmul (Fin c))) z) n j
  = fadd (pyln.block_loudness z n j) (Fin (10 * (ln c / ln 10))).
Proof.
  intros Hc. unfold pyln.block_loudness.
  rewrite <- loudness_of_scale by assumption.
  unfold pyln.loudness_of. do 4 f_equal.
  apply map_ext. intros i. now rewrite z_at_scale.
Qed.

Lemma loudness_of_ext n v w :
  (forall i, v i = w i) -> pyln.loudness_of n v = pyln.loudness_of n w.
Proof.
  intros H. unfold pyln.loudness_of. do 4 f_equal.
  apply map_ext. intros i. now rewrite H.
Qed.

(** Scaling every block power by [c > 0] shifts the integrated loudness by
    [10 log10 c], as long as no block crosses the absolute gate. *)
Lemma gated_loudness_scale c z n nb :
  0 < c ->
  Forall (Forall (fun e => isinf e = false)) z ->
  (forall j, (j < nb)%nat ->
             gate_stable (pyln.block_loudness z n j) (10 * (ln c / ln 10))) ->
  pyln.gated_loudness (map (map (fmul (Fin c))) z) n nb
  = fadd (pyln.gated_loudness z n nb) (Fin (10 * (ln c / ln 10))).
Proof.
  intros Hc Hz Hst.
  set (d := 10 * (ln c / ln 10)) in *.
  set (z' := map (map (fmul (Fin c))) z).
  assert (HJa : pyln.J_absolute z' n nb = pyln.J_absolute z n nb).
  { unfold pyln.J_absolute. apply filter_ext_in. intros j Hj.
    apply in_seq in Hj. unfold z'. rewrite block_loudness_scale by assumption.
    apply (Hst j). lia. }
  assert (HGr : pyln.Gamma_r z' n nb = fadd (pyln.Gamma_r z n nb) (Fin d)).
  { unfold pyln.Gamma_r. rewrite HJa.
    rewrite (loudness_of_ext n _
               (fun i => fmul (Fin c)
                              (pyln.z_avg z (pyln.J_absolute z n nb) i)))
      by (intros i; now apply z_avg_scale).
    rewrite loudness_of_scale by assumption. apply fsub_shift. }
  assert (HJg : pyln.J_gated z' n nb = pyln.J_gated z n nb).
  { unfold pyln.J_gated. apply filter_ext_in. intros j Hj.
    apply in_seq in Hj. rewrite HGr. unfold z'.
    rewrite block_loudness_scale by assumption. fold d.
    unfold fgt at 1 3. rewrite flt_shift.
    destruct (Hst j) as [_ ->]; [lia | reflexivity]. }
  unfold pyln.gated_loudness. rewrite HJg.
  rewrite (loudness_of_ext n _
             (fun i => fmul (Fin c)
                            (nan_to_num
                               (pyln.z_avg z (pyln.J_gated z n nb) i)))).
  - now apply loudness_of_scale.
  - intros i. unfold z'. rewrite z_avg_scale by assumption.
    apply nan_to_num_scale. unfold pyln.z_avg. apply isinf_mean.
    apply Forall_forall. intros e He. apply in_map_iff in He.
    destruct He as [j [<- _]]. now apply isinf_z_at.
Qed.

Lemma isfinite_sum l :
  Forall (fun e => isfinite e = true) l ->
  forall acc, isfinite acc = true -> isfinite (fold_left fadd l acc) = true.
Proof.
  induction 1 as [|x l Hx _ IH]; intros acc Hacc; [exact Hacc|].
  cbn [fold_left]. apply IH. destruct acc, x; try discriminate. reflexivity.
Qed.

Lemma col_finite d i :
  all_finite d -> Forall (fun e => isfinite e = true) (col i d).
Proof.
  unfold all_finite, col. intros H. apply Forall_forall. intros e He.
  apply in_map_iff in He. destruct He as [f [<- Hf]].
  destruct (nth_in_or_default i f zero) as [Hin | ->]; [|reflexivity].
  eapply Forall_forall in H; [exact H|].
  apply in_concat. eauto.
Qed.

Lemma block_energy_finite m chan j :
  Forall (fun e => isfinite e = true) chan ->
  isinf (pyln.block_energy m chan j) = false.
Proof.
  intros H. unfold pyln.block_energy, sum.
  assert (Hs : isfinite
                 (fold_left fadd
                    (map (fun x => fmul x x)
                       (slice
                          (trunc (pyln.block_size m * (IZR j * pyln.step)
                                  * IZR (pyln.rate m)))
                          (trunc (pyln.block_size m * (IZR j * pyln.step + 1)
                                  * IZR (pyln.rate m))) chan)) zero) = true).
  { apply isfinite_sum; [|reflexivity].
    apply Forall_forall. intros e He. apply in_map_iff in He.
    destruct He as [x [<- Hx]].
    pose proof (slice_Forall _ _ (trunc (pyln.block_size m * (IZR j * pyln.step)
                                  * IZR (pyln.rate m)))
                  (trunc (pyln.block_size m * (IZR j * pyln.step + 1)
                          * IZR (pyln.rate m))) _ H) as Hsl.
    eapply Forall_forall in Hsl; [|exact Hx]. cbv beta in Hsl.
    destruct x; try discriminate. reflexivity. }
  destruct (fold_left fadd _ zero); try discriminate. reflexivity.
Qed.

Lemma block_energies_finite m d c nb :
  all_finite d ->
  Forall (Forall (fun e => isinf e = false)) (pyln.block_energies m d c nb).
Proof.
  intros H. unfold pyln.block_energies. apply Forall_forall. intros row Hrow.
  apply in_map_iff in Hrow. destruct Hrow as [i [<- _]].
  apply Forall_forall. intros e He. apply in_map_iff in He.
  destruct He as [j [<- _]]. apply block_energy_finite. now apply col_finite.
Qed.

Lemma ln_square k : 0 < k -> 10 * (ln (k * k) / ln 10) = 20 * (ln k / ln 10).
Proof.
  intros Hk. rewrite ln_mult by assumption. pose proof ln10_pos. field. lra.
Qed.

(** The raw meter under an input gain [k > 0]: the measured loudness moves
    by [20 log10 k] when the K-weighted signal is finite and no block
    crosses the absolute gate. *)
Lemma measure_scale k m a :
  0 < k ->
  all_finite (kweighted m a) ->
  (forall j, (j < num_blocks_nat m a)%nat ->
             gate_stable (raw_block_loudness m a j) (20 * (ln k / ln 10))) ->
  measure m (scale (Fin k) a)
  = match measure m a with
    | Ok L => Ok (fadd L (Fin (20 * (ln k / ln 10))))
    | Raise e => Raise e
    end.
Proof.
  intros Hk Hfin Hst. unfold measure, measure_copy, pyln.valid_audio.
  rewrite shape0_scale, shape1_scale.
  destruct (5 <? shape1 a)%nat; [reflexivity|].
  destruct (Rltb _ _); [reflexivity|].
  rewrite filter_stages_scale by assumption.
  unfold kweighted in Hfin.
  unfold raw_block_loudness, block_powers, kweighted, num_blocks_nat in Hst.
  destruct (filter_stages (pyln.filters m) (seq 0 (shape1 a)) a)
    as [d' [[]|e]]; cbn [fst snd] in *; [|reflexivity].
  destruct (pyln.num_blocks m (shape0 a)) as [nb|e]; [|reflexivity].
  destruct (nb <? 0)%Z; [reflexivity|].
  f_equal. rewrite block_energies_scale by assumption.
  rewrite <- ln_square by assumption.
  apply gated_loudness_scale.
  - nra.
  - now apply block_energies_finite.
  - intros j Hj. rewrite ln_square by assumption. now apply Hst.
Qed.

(** ** The raw meter at 1 Hz: above and below the absolute gate *)

Lemma gated_loudness_below_gate p :
  0 < p -> lufs p < -70 -> pyln.gated_loudness [[Fin p]] 1 1 = NInf.
Proof.
  intros Hp Hl.
  change 1%nat with (length [Fin p]) at 2. rewrite gated_loudness_mono.
  assert (Hge : fge (block_lufs (Fin p)) pyln.Gamma_a = false).
  { rewrite block_lufs_fin by assumption. cbn. apply Rleb_false. lra. }
  cbn [filter]. rewrite Hge, (fgt_fge _ _ Hge), andb_false_r.
  rewrite mean_nil. cbn [nan_to_num]. now apply block_lufs_zero.
Qed.

Lemma measure_copy_unit_block_quiet y :
  y <> 0 ->
  lufs (K_shelf * y * (K_shelf * y)) < -70 ->
  measure_copy {| pyln.rate := 1; pyln.block_size := 1 |} (mono [y])
  = (mono [K_shelf * y], Ok NInf).
Proof.
  intros Hy Hl. rewrite measure_copy_unit_block_power. do 2 f_equal.
  apply gated_loudness_below_gate; [now apply K_shelf_square_pos | exact Hl].
Qed.

Lemma K_quiet_sample : K_shelf * quiet_sample = Rpower 10 (-71.309 / 20).
Proof. unfold quiet_sample. pose proof K_shelf_pos. field. lra. Qed.

Lemma quiet_sample_pos : 0 < quiet_sample.
Proof.
  unfold quiet_sample. apply Rdiv_lt_0_compat;
    [apply pow10_pos | apply K_shelf_pos].
Qed.

Lemma gain_6dB_pos : 0 < gain_6dB.
Proof. apply pow10_pos. Qed.

Lemma gain_6dB_decibels : 20 * (ln gain_6dB / ln 10) = 6.02.
Proof. unfold gain_6dB. rewrite log10_pow10. lra. Qed.

Lemma integrated_loudness_quiet :
  call_integrated_loudness [[Fin quiet_sample]] 1 1 = Ok NInf.
Proof.
  rewrite call_integrated_loudness_eq. unfold measure.
  change [[Fin quiet_sample]] with (mono [quiet_sample]).
  pose proof quiet_sample_pos.
  rewrite measure_copy_unit_block_quiet; [reflexivity | lra |].
  rewrite K_quiet_sample, <- Rpower_plus, lufs_pow10. lra.
Qed.

Lemma integrated_loudness_quiet_amplified :
  call_integrated_loudness (scale (Fin gain_6dB) [[Fin quiet_sample]]) 1 1
  = Ok (Fin (-65.98)).
Proof.
  rewrite call_integrated_loudness_eq. unfold measure.
  change (scale (Fin gain_6dB) [[Fin quiet_sample]])
    with (mono [gain_6dB * quiet_sample]).
  pose proof quiet_sample_pos. pose proof gain_6dB_pos.
  assert (HK : K_shelf * (gain_6dB * quiet_sample)
               * (K_shelf * (gain_6dB * quiet_sample))
               = Rpower 10 (-65.289 / 10)).
  { replace (K_shelf * (gain_6dB * quiet_sample))
      with (gain_6dB * (K_shelf * quiet_sample)) by ring.
    rewrite K_quiet_sample. unfold gain_6dB. rewrite <- !Rpower_plus.
    f_equal. lra. }
  rewrite measure_copy_unit_block; [| nra | rewrite HK, lufs_pow10; lra].
  cbn [snd]. rewrite HK, lufs_pow10. do 2 f_equal. lra.
Qed.

Lemma kweighted_unit y :
  kweighted {| pyln.rate := 1; pyln.block_size := 1 |} (mono [y])
  = mono [K_shelf * y].
Proof.
  unfold kweighted. change (seq 0 (shape1 (mono [y]))) with [0%nat].
  pose proof (kweighting_degenerate
                {| pyln.rate := 1; pyln.block_size := 1 |} 1500 38 [y]) as HK.
  cbn [pyln.rate mono map] in HK. cbn [mono map].
  now rewrite HK by (try discriminate; lra).
Qed.

Lemma num_blocks_nat_unit y :
  num_blocks_nat {| pyln.rate := 1; pyln.block_size := 1 |} (mono [y]) = 1%nat.
Proof.
  unfold num_blocks_nat, pyln.num_blocks.
  cbn [pyln.rate pyln.block_size Z.eqb shape0 mono map length].
  unfold pyln.step at 1. rewrite Reqb_false by lra.
  replace ((INR 1 / 1 - 1) / (1 * pyln.step)) with (IZR 0)
    by (unfold pyln.step; cbn [INR]; lra).
  now rewrite round_half_even_IZR.
Qed.

Lemma raw_block_loudness_unit y :
  y <> 0 ->
  raw_block_loudness {| pyln.rate := 1; pyln.block_size := 1 |} (mono [y]) 0
  = Fin (lufs (K_shelf * y * (K_shelf * y))).
Proof.
  intros Hy. unfold raw_block_loudness, block_powers.
  rewrite kweighted_unit, num_blocks_nat_unit.
  change (shape1 (mono [y])) with 1%nat.
  unfold pyln.block_energies, range. cbn [seq map Z.of_nat col nth mono].
  unfold pyln.block_energy. cbn [pyln.rate pyln.block_size].
  rewrite (trunc_eq 0) by (try lia; unfold pyln.step; lra).
  rewrite (trunc_eq 1) by (try lia; unfold pyln.step; lra).
  change (slice 0 1 [Fin (K_shelf * y)]) with [Fin (K_shelf * y)].
  cbn [map sum fold_left fmul fadd zero].
  rewrite block_loudness_mono. cbn [nth].
  rewrite block_lufs_fin.
  - do 2 f_equal. field.
  - pose proof (K_shelf_square_pos y Hy). lra.
Qed.

Lemma gate_stable_above l d :
  -70 < l -> -70 < l + d -> gate_stable (Fin l) d.
Proof.
  intros H1 H2. unfold gate_stable, fge, fgt, pyln.Gamma_a. cbn.
  now rewrite !Rleb_true, !Rltb_true by lra.
Qed.

(** ** C8 *)

(** C8, counterexample.  At 1 Hz with a block of one second, the sample
    [quiet_sample] makes one block of -72 LUFS: it fails the absolute gate
    and the raw meter reports [-inf].  The same buffer with 6.02 dB of gain
    makes a block of -65.98 LUFS, which the meter reports.  The raw
    measurement has not moved by 6.02 dB. *)
Lemma raw_meter_not_gain_consistent :
  call_integrated_loudness [[Fin quiet_sample]] 1 1 = Ok NInf
  /\ call_integrated_loudness (scale (Fin gain_6dB) [[Fin quiet_sample]]) 1 1
     = Ok (Fin (-65.98))
  /\ 20 * (ln gain_6dB / ln 10) = 6.02.
Proof.
  split; [exact integrated_loudness_quiet|].
  split; [exact integrated_loudness_quiet_amplified | exact gain_6dB_decibels].
Qed.

(** C8, as amended.  For every buffer and every finite gain [k > 0],
    scaling the input by [k] changes nothing inside [loudness_norm]: the
    peak-normalised samples, the loudness measured on them and the returned
    buffer are the same as for the unscaled input.  The raw meter moves by
    exactly [20 log10 k] dB (6.02 dB for a gain of 6.02 dB) provided the
    K-weighted signal is finite and no block crosses the -70 LUFS absolute
    gate under the gain. *)
Theorem gain_consistency :
  forall (a : ndarray) (k : R) (rate : Z) (peak loudness block_size : R),
    0 < k ->
    peak_value (scale (Fin k) a) peak = peak_value a peak
    /\ measured_loudness (scale (Fin k) a) rate peak block_size
       = measured_loudness a rate peak block_size
    /\ call_loudness_norm (scale (Fin k) a) rate peak loudness block_size
       = call_loudness_norm a rate peak loudness block_size
    /\ (let m := {| pyln.rate := rate; pyln.block_size := block_size |} in
        all_finite (kweighted m a) ->
        (forall j, (j < num_blocks_nat m a)%nat ->
                   gate_stable (raw_block_loudness m a j)
                               (20 * (ln k / ln 10))) ->
        call_integrated_loudness (scale (Fin k) a) rate block_size
        = match call_integrated_loudness a rate block_size with
          | Ok L => Ok (fadd L (Fin (20 * (ln k / ln 10))))
          | Raise e => Raise e
          end)
    /\ 20 * (ln gain_6dB / ln 10) = 6.02.
Proof.
  intros a k rate peak loudness block_size Hk.
  pose proof (peak_value_scale k a peak Hk) as Hpk.
  split; [exact Hpk|]. split; [|split; [|split]].
  - now rewrite !measured_loudness_eq, Hpk.
  - rewrite !call_loudness_norm_eq. unfold loudness_norm_value.
    now rewrite Hpk.
  - intros m Hfin Hst. rewrite !call_integrated_loudness_eq.
    now apply measure_scale.
  - exact gain_6dB_decibels.
Qed.

(** The amended statement on the buffer [[1.0]] with a gain of 6.02 dB at
    1 Hz; the block sits at 3.309 LUFS, far above the gate, and the raw
    measurement moves from 3.309 to 9.329 LUFS. *)
Lemma gain_consistency_witness :
  (peak_value (scale (Fin gain_6dB) [[Fin 1]]) (-1)
   = peak_value [[Fin 1]] (-1)
   /\ measured_loudness (scale (Fin gain_6dB) [[Fin 1]]) 1 (-1) 1
      = measured_loudness [[Fin 1]] 1 (-1) 1
   /\ call_loudness_norm (scale (Fin gain_6dB) [[Fin 1]]) 1 (-1) (-23) 1
      = call_loudness_norm [[Fin 1]] 1 (-1) (-23) 1)
  /\ call_integrated_loudness (scale (Fin gain_6dB) [[Fin 1]]) 1 1
     = Ok (Fin (3.309 + 6.02)).
Proof.
  destruct (gain_consistency [[Fin 1]] gain_6dB 1 (-1) (-23) 1 gain_6dB_pos)
    as [H1 [H2 [H3 [H4 H5]]]].
  split; [split; [exact H1 | split; [exact H2 | exact H3]]|].
  cbv zeta in H4. rewrite H4.
  - rewrite integrated_loudness_unit_sample. cbn [fadd]. now rewrite H5.
  - change [[Fin 1]] with (mono [1]). rewrite kweighted_unit.
    repeat constructor.
  - intros j Hj. change [[Fin 1]] with (mono [1]) in *.
    rewrite num_blocks_nat_unit in Hj.
    assert (j = 0%nat) by lia. subst j.
    rewrite raw_block_loudness_unit by lra. rewrite H5.
    replace (K_shelf * 1 * (K_shelf * 1)) with (Rpower 10 (2 / 5))
      by (rewrite K_shelf_pow, !Rmult_1_r, <- Rpower_plus; f_equal; lra).
    rewrite lufs_pow10. apply gate_stable_above; lra.
Defined.

(** ** C6 *)

Lemma block_powers_unit y :
  block_powers {| pyln.rate := 1; pyln.block_size := 1 |} (mono [y])
  = [[Fin (K_shelf * y * (K_shelf * y))]].
Proof.
  unfold block_powers. rewrite kweighted_unit, num_blocks_nat_unit.
  change (shape1 (mono [y])) with 1%nat.
  unfold pyln.block_energies, range. cbn [seq map Z.of_nat col nth mono].
  unfold pyln.block_energy. cbn [pyln.rate pyln.block_size].
  rewrite (trunc_eq 0) by (try lia; unfold pyln.step; lra).
  rewrite (trunc_eq 1) by (try lia; unfold pyln.step; lra).
  change (slice 0 1 [Fin (K_shelf * y)]) with [Fin (K_shelf * y)].
  cbn [map sum fold_left fmul fadd zero].
  do 3 f_equal. field.
Qed.

Lemma K_gate_sample :
  K_shelf * gate_sample * (K_shelf * gate_sample) = Rpower 10 (-6.9309).
Proof.
  unfold gate_sample. pose proof K_shelf_pos.
  replace (K_shelf * (Rpower 10 (-69.309 / 20) / K_shelf))
    with (Rpower 10 (-69.309 / 20)) by (field; lra).
  rewrite <- Rpower_plus. f_equal. lra.
Qed.

Lemma gate_sample_loudness :
  block_lufs (Fin (K_shelf * gate_sample * (K_shelf * gate_sample)))
  = Fin (-70).
Proof.
  rewrite K_gate_sample, block_lufs_fin by apply pow10_pos.
  rewrite lufs_pow10. f_equal. lra.
Qed.

Lemma block_at_gate_measures_minus_inf :
  call_integrated_loudness (mono [gate_sample]) 1 1 = Ok NInf.
Proof.
  rewrite call_integrated_loudness_eq. unfold measure.
  rewrite measure_copy_unit_block_power. cbn [snd]. f_equal.
  change 1%nat with (length [Fin (K_shelf * gate_sample
                                  * (K_shelf * gate_sample))]) at 2.
  rewrite gated_loudness_mono. cbn [filter].
  rewrite gate_sample_loudness.
  assert (H1 : fge (Fin (-70)) pyln.Gamma_a = true)
    by (cbn; apply Rleb_true; lra).
  assert (H2 : fgt (Fin (-70)) pyln.Gamma_a = false)
    by (cbn; apply Rltb_false; lra).
  rewrite H1, H2, andb_false_r. rewrite mean_nil. cbn [nan_to_num].
  now apply block_lufs_zero.
Qed.

Lemma spec_gated_loudness_single p :
  0 < p -> -70 <= lufs p -> spec_gated_loudness [[Fin p]] 1 1 = Fin (lufs p).
Proof.
  intros Hp Hl.
  assert (Hb : pyln.block_loudness [[Fin p]] 1 0 = Fin (lufs p)).
  { rewrite block_loudness_mono. cbn [nth]. now apply block_lufs_fin. }
  assert (H70 : flt (Fin (lufs p)) (Fin (-70)) = false)
    by (cbn; apply Rltb_false; lra).
  assert (Hs : spec_absolute_survivors [[Fin p]] 1 1 = [0%nat]).
  { unfold spec_absolute_survivors. cbn [seq filter]. now rewrite Hb, H70. }
  assert (Ht : spec_relative_threshold [[Fin p]] 1 1 = Fin (lufs p - 10)).
  { unfold spec_relative_threshold. rewrite Hs, loudness_of_mono.
    cbn [map pyln.z_at nth]. unfold mean, sum. cbn [fold_left length INR].
    cbn [fadd zero]. rewrite fdiv_fin by lra.
    replace ((0 + p) / 1) with p by field.
    rewrite block_lufs_fin by assumption. reflexivity. }
  unfold spec_gated_loudness, spec_survivors. cbn [seq filter].
  rewrite Hb, Ht, H70.
  replace (flt (Fin (lufs p)) (Fin (lufs p - 10))) with false
    by (symmetry; cbn; apply Rltb_false; lra).
  cbn [negb andb]. rewrite loudness_of_mono.
  cbn [map pyln.z_at nth]. unfold mean, sum. cbn [fold_left length INR].
  cbn [fadd zero]. rewrite fdiv_fin by lra.
  replace ((0 + p) / 1) with p by field.
  now apply block_lufs_fin.
Qed.

(** C6, counterexample.  One sample at 1 Hz with a block of one second,
    chosen so that its only block measures exactly -70 LUFS.  The block is
    not below -70 LUFS, so by the claim neither gate discards it (the
    relative threshold is -80 LUFS) and the integrated loudness is that of
    the block, -70 LUFS.  The meter returns [-inf]: its second pass keeps
    only the blocks strictly above -70 LUFS. *)
Lemma block_at_the_gate_is_dropped :
  raw_block_loudness {| pyln.rate := 1; pyln.block_size := 1 |}
    (mono [gate_sample]) 0 = Fin (-70)
  /\ flt (Fin (-70)) (Fin (-70)) = false
  /\ spec_integrated_loudness (mono [gate_sample]) 1 1 = Fin (-70)
  /\ call_integrated_loudness (mono [gate_sample]) 1 1 = Ok NInf
  /\ Ok NInf <> Ok (Fin (-70)).
Proof.
  assert (Hp : 0 < K_shelf * gate_sample * (K_shelf * gate_sample))
    by (rewrite K_gate_sample; apply pow10_pos).
  assert (Hl : lufs (K_shelf * gate_sample * (K_shelf * gate_sample)) = -70).
  { rewrite K_gate_sample, lufs_pow10. lra. }
  split; [|split; [|split; [|split; [|discriminate]]]].
  - unfold raw_block_loudness. rewrite block_powers_unit.
    change (shape1 (mono [gate_sample])) with 1%nat.
    rewrite block_loudness_mono. cbn [nth]. apply gate_sample_loudness.
  - cbn. apply Rltb_false. lra.
  - unfold spec_integrated_loudness. rewrite block_powers_unit.
    rewrite num_blocks_nat_unit.
    change (shape1 (mono [gate_sample])) with 1%nat.
    rewrite spec_gated_loudness_single by (try assumption; lra).
    now rewrite Hl.
  - exact block_at_gate_measures_minus_inf.
Qed.

(** *** The meter as two-pass gating over block powers *)

Lemma nth_map_seq A (f : nat -> A) (d : A) n i :
  (i < n)%nat -> nth i (map f (seq 0 n)) d = f i.
Proof.
  intros Hi. rewrite (nth_indep _ d (f 0%nat)) by (now rewrite length_map, length_seq).
  rewrite map_nth. f_equal. now rewrite seq_nth.
Qed.

Lemma z_at_block_energies m (d : ndarray) c nb i j :
  (i < c)%nat -> (j < nb)%nat ->
  pyln.z_at (pyln.block_energies m d c nb) i j
  = pyln.block_energy m (col i d) (Z.of_nat j).
Proof.
  intros Hi Hj. unfold pyln.z_at, pyln.block_energies, range.
  rewrite (nth_map_seq _ _ [] c i Hi), map_map.
  now rewrite (nth_map_seq _ _ zero nb j Hj).
Qed.

Lemma measure_is_gated m (a : ndarray) :
  0 < IZR (pyln.rate m) -> 0 < pyln.block_size m ->
  (shape1 a <= 5)%nat ->
  pyln.block_size m * IZR (pyln.rate m) <= INR (shape0 a) ->
  measure m a
  = Ok (pyln.gated_loudness (block_powers m a) (shape1 a) (num_blocks_nat m a))
  /\ (1 <= num_blocks_nat m a)%nat.
Proof.
  intros Hr Hb Hc5 Hlen.
  unfold measure, measure_copy, pyln.valid_audio, block_powers,
    num_blocks_nat, kweighted.
  apply Nat.ltb_ge in Hc5. rewrite Hc5. rewrite Rltb_false by lra.
  assert (Hr0 : pyln.rate m <> 0%Z) by (intros E; rewrite E in Hr; lra).
  pose proof (filter_stages_ok _ (seq 0 (shape1 a)) (filters_rate m Hr0) a)
    as Hok.
  destruct (filter_stages (pyln.filters m) (seq 0 (shape1 a)) a) as [d' r].
  cbn [fst snd] in *. subst r.
  destruct (num_blocks_positive m (shape0 a) Hr Hb Hlen) as [nb [-> Hnb]].
  assert (Hnb' : (nb <? 0)%Z = false) by (apply Z.ltb_ge; lia).
  rewrite Hnb'. split; [reflexivity | lia].
Qed.

Lemma two_block_signal_block_powers :
  block_powers {| pyln.rate := 2; pyln.block_size := 2 |} two_block_signal
  = [[Fin (power_of_lufs (-80)); Fin (power_of_lufs (-20))]]
  /\ num_blocks_nat {| pyln.rate := 2; pyln.block_size := 2 |}
       two_block_signal = 2%nat.
Proof.
  assert (Hnb : num_blocks_nat {| pyln.rate := 2; pyln.block_size := 2 |}
                  two_block_signal = 2%nat).
  { unfold num_blocks_nat, pyln.num_blocks, two_block_signal.
    cbn [pyln.rate pyln.block_size Z.eqb shape0 mono map length].
    unfold pyln.step at 1. rewrite Reqb_false by lra.
    replace ((INR 5 / 2 - 2) / (2 * pyln.step)) with (IZR 1)
      by (unfold pyln.step; cbn [INR]; lra).
    now rewrite round_half_even_IZR. }
  split; [|exact Hnb].
  unfold block_powers. rewrite Hnb. unfold kweighted, two_block_signal.
  change (seq 0 (shape1 (mono _))) with [0%nat].
  pose proof (kweighting_degenerate
                {| pyln.rate := 2; pyln.block_size := 2 |} 750 19
                [sample_for_lufs (-80); 0; 0; 0; sample_for_lufs (-20)]) as HK.
  cbn [pyln.rate mono map] in HK. cbn [mono map].
  rewrite HK by (try discriminate; lra). cbn [fst shape1 length].
  unfold pyln.block_energies. change (range 2) with [0; 1]%Z.
  cbn [seq map col nth].
  unfold pyln.block_energy. cbn [pyln.rate pyln.block_size].
  rewrite (trunc_eq 0) by (try lia; unfold pyln.step; lra).
  rewrite (trunc_eq 4) by (try lia; unfold pyln.step; lra).
  rewrite (trunc_eq 1) by (try lia; unfold pyln.step; lra).
  rewrite (trunc_eq 5) by (try lia; unfold pyln.step; lra).
  set (x0 := K_shelf * sample_for_lufs (-80)).
  set (x4 := K_shelf * sample_for_lufs (-20)).
  change (slice 0 4 [Fin x0; Fin (K_shelf * 0); Fin (K_shelf * 0);
                     Fin (K_shelf * 0); Fin x4])
    with [Fin x0; Fin (K_shelf * 0); Fin (K_shelf * 0); Fin (K_shelf * 0)].
  change (slice 1 5 [Fin x0; Fin (K_shelf * 0); Fin (K_shelf * 0);
                     Fin (K_shelf * 0); Fin x4])
    with [Fin (K_shelf * 0); Fin (K_shelf * 0); Fin (K_shelf * 0); Fin x4].
  cbn [map sum fold_left fmul fadd zero].
  pose proof (K_sample_for_lufs (-80)) as H80.
  pose proof (K_sample_for_lufs (-20)) as H20.
  fold x0 in H80. fold x4 in H20. unfold power_of_lufs.
  do 2 f_equal.
  - f_equal. set (s := x0 * x0) in *. lra.
  - do 2 f_equal. set (s := x4 * x4) in *. lra.
Qed.

Lemma two_block_signal_blocks :
  raw_block_loudness {| pyln.rate := 2; pyln.block_size := 2 |}
    two_block_signal 0 = Fin (-80)
  /\ raw_block_loudness {| pyln.rate := 2; pyln.block_size := 2 |}
       two_block_signal 1 = Fin (-20).
Proof.
  unfold raw_block_loudness.
  destruct two_block_signal_block_powers as [-> _].
  change (shape1 two_block_signal) with 1%nat.
  rewrite !block_loudness_mono. cbn [nth].
  rewrite !block_lufs_fin, !lufs_power_of_lufs by apply pow10_pos.
  split; reflexivity.
Qed.

(** *** Agreement with the procedure of the specification off the thresholds *)

Lemma fle_negb_flt a b :
  isnan a = false -> isnan b = false -> fle b a = negb (flt a b).
Proof.
  destruct a as [x| | |], b as [y| | |]; cbn; try discriminate;
    try reflexivity.
  intros _ _. unfold Rleb, Rltb.
  destruct (Rle_dec y x), (Rlt_dec x y); cbn; try reflexivity; lra.
Qed.

Lemma flt_negb_flt a b :
  isnan a = false -> isnan b = false -> a <> b -> flt b a = negb (flt a b).
Proof.
  destruct a as [x| | |], b as [y| | |]; cbn; try discriminate;
    try reflexivity; intros _ _ Hne; try (now elim Hne).
  unfold Rltb. destruct (Rlt_dec y x), (Rlt_dec x y); cbn;
    try reflexivity; try lra.
  exfalso. apply Hne. f_equal. lra.
Qed.

Lemma mean_finite l :
  l <> [] -> Forall (fun e => isfinite e = true) l ->
  nan_to_num (mean l) = mean l.
Proof.
  intros Hne Hf. unfold mean, sum.
  pose proof (isfinite_sum l Hf zero eq_refl) as Hs.
  destruct (fold_left fadd l zero) as [s| | |]; try discriminate.
  rewrite fdiv_fin; [reflexivity|].
  destruct l; [now elim Hne|]. cbn [length]. rewrite S_INR.
  pose proof (pos_INR (length l)). lra.
Qed.

Lemma gated_agrees_with_spec z c nb :
  (forall i j, isfinite (pyln.z_at z i j) = true) ->
  (forall j, (j < nb)%nat ->
             isnan (pyln.block_loudness z c j) = false
             /\ pyln.block_loudness z c j <> Fin (-70)
             /\ pyln.block_loudness z c j <> pyln.Gamma_r z c nb) ->
  pyln.J_absolute z c nb = [] \/ isnan (pyln.Gamma_r z c nb) = false ->
  pyln.gated_loudness z c nb = spec_gated_loudness z c nb.
Proof.
  intros Hfin Hoff HGr.
  assert (Habs : pyln.J_absolute z c nb = spec_absolute_survivors z c nb).
  { unfold pyln.J_absolute, spec_absolute_survivors. apply filter_ext_in.
    intros j Hj. apply in_seq in Hj. destruct (Hoff j) as [Hn _]; [lia|].
    unfold fge, pyln.Gamma_a. now apply fle_negb_flt. }
  assert (Hthr : pyln.Gamma_r z c nb = spec_relative_threshold z c nb).
  { unfold pyln.Gamma_r, spec_relative_threshold. now rewrite Habs. }
  assert (HJ : pyln.J_gated z c nb = spec_survivors z c nb).
  { unfold pyln.J_gated, spec_survivors. apply filter_ext_in.
    intros j Hj. apply in_seq in Hj.
    destruct (Hoff j) as [Hn [H70 Hr]]; [lia|].
    rewrite <- Hthr. unfold fgt, pyln.Gamma_a.
    rewrite (flt_negb_flt _ (Fin (-70)) Hn eq_refl H70).
    destruct HGr as [Hempty | HGr].
    - assert (Hout : fge (pyln.block_loudness z c j) pyln.Gamma_a = false).
      { destruct (fge (pyln.block_loudness z c j) pyln.Gamma_a) eqn:E;
          [|reflexivity].
        exfalso. assert (Hin : In j (pyln.J_absolute z c nb)).
        { unfold pyln.J_absolute. apply filter_In. split; [|exact E].
          apply in_seq. lia. }
        rewrite Hempty in Hin. exact Hin. }
      unfold fge, pyln.Gamma_a in Hout.
      rewrite (fle_negb_flt _ (Fin (-70)) Hn eq_refl) in Hout.
      rewrite Hout. now rewrite andb_false_r.
    - rewrite (flt_negb_flt _ _ Hn HGr Hr). apply andb_comm. }
  unfold pyln.gated_loudness, spec_gated_loudness. rewrite <- HJ.
  destruct (pyln.J_gated z c nb) as [|j0 J] eqn:EJ.
  - apply loudness_of_zero. intros i. unfold pyln.z_avg. cbn [map].
    rewrite mean_nil. apply is_zero_zero.
  - apply loudness_of_ext. intros i. unfold pyln.z_avg.
    apply mean_finite; [discriminate|].
    apply Forall_map, Forall_forall. intros j _. apply Hfin.
Qed.

(** C6, as amended.  On every buffer the meter accepts (positive rate and
    block size, at most five channels, at least one block of frames) the
    integrated loudness is the result of a two-pass gating over the block
    powers [z] of the K-weighted signal, [z[i,j]] being the mean square of
    channel [i] over block [j] and [l j = -0.691 + 10 log10 (sum_i G_i
    z[i,j])] the loudness of block [j]:
    - the first pass keeps the blocks with [l j >= -70] and sets the
      relative threshold [Gamma_r] to the loudness of their mean power
      minus 10;
    - the second pass keeps exactly the blocks with [l j > -70] and
      [l j > Gamma_r];
    - the result is [-0.691 + 10 log10] of the channel-weighted mean power
      of the blocks kept by the second pass, and [-inf] when it keeps
      none.
    A block exactly at -70 LUFS or exactly at the relative threshold is
    thus left out of the result.  When the block powers are finite and no
    block sits exactly on a threshold, the result is that of the procedure
    as the specification words it.  For the two-block signal, with one
    block at -80 LUFS and one at -20 LUFS, the meter returns -20 LUFS. *)
Theorem integrated_loudness_two_pass_gating :
  forall (a : ndarray) (rate : Z) (block_size : R),
    (0 < rate)%Z -> 0 < block_size ->
    (shape1 a <= 5)%nat ->
    block_size * IZR rate <= INR (shape0 a) ->
    let m := {| pyln.rate := rate; pyln.block_size := block_size |} in
    let c := shape1 a in
    let nb := num_blocks_nat m a in
    let z := block_powers m a in
    let l := fun j => pyln.loudness_of c (fun i => pyln.z_at z i j) in
    let J1 := filter (fun j => fle (Fin (-70)) (l j)) (seq 0 nb) in
    let Gamma_r :=
      fsub (pyln.loudness_of c
              (fun i => mean (map (fun j => pyln.z_at z i j) J1)))
           (Fin 10) in
    let J2 := filter (fun j => flt Gamma_r (l j) && flt (Fin (-70)) (l j))
                     (seq 0 nb) in
    call_integrated_loudness a rate block_size
    = Ok (pyln.loudness_of c
            (fun i => nan_to_num
                        (mean (map (fun j => pyln.z_at z i j) J2))))
    /\ (1 <= nb)%nat
    /\ (forall i j, (i < c)%nat -> (j < nb)%nat ->
                    pyln.z_at z i j
                    = pyln.block_energy m (col i (kweighted m a))
                        (Z.of_nat j))
    /\ (forall j, In j J1 <->
                  (j < nb)%nat /\ fle (Fin (-70)) (l j) = true)
    /\ (forall j, In j J2 <->
                  (j < nb)%nat
                  /\ flt (Fin (-70)) (l j) = true
                  /\ flt Gamma_r (l j) = true)
    /\ (J2 = [] -> call_integrated_loudness a rate block_size = Ok NInf)
    /\ ((forall i j, isfinite (pyln.z_at z i j) = true) ->
        (forall j, (j < nb)%nat ->
                   isnan (l j) = false
                   /\ l j <> Fin (-70) /\ l j <> Gamma_r) ->
        J1 = [] \/ isnan Gamma_r = false ->
        call_integrated_loudness a rate block_size
        = Ok (spec_integrated_loudness a rate block_size))
    /\ (forall p, 0 < p ->
                  pyln.loudness_of 1 (fun _ => Fin p)
                  = Fin (-0.691 + 10 * (ln p / ln 10)))
    /\ raw_block_loudness {| pyln.rate := 2; pyln.block_size := 2 |}
         two_block_signal 0 = Fin (-80)
    /\ raw_block_loudness {| pyln.rate := 2; pyln.block_size := 2 |}
         two_block_signal 1 = Fin (-20)
    /\ call_integrated_loudness two_block_signal 2 2 = Ok (Fin (-20)).
Proof.
  intros a rate block_size Hrate Hb Hc5 Hlen m c nb z l J1 Gamma_r J2.
  assert (Hr : 0 < IZR (pyln.rate m)) by (apply IZR_lt in Hrate; exact Hrate).
  destruct (measure_is_gated m a Hr Hb Hc5 Hlen) as [Hm Hnb].
  assert (Hmain : call_integrated_loudness a rate block_size
                  = Ok (pyln.loudness_of c
                          (fun i => nan_to_num
                                      (mean (map (fun j => pyln.z_at z i j)
                                                 J2))))).
  { rewrite call_integrated_loudness_eq. fold m. rewrite Hm. reflexivity. }
  split; [exact Hmain|]. split; [exact Hnb|]. split; [|split; [|split; [|split;
    [|split; [|split; [|split; [|split]]]]]]].
  - intros i j Hi Hj. unfold z, block_powers.
    now apply z_at_block_energies.
  - intros j. unfold J1. rewrite filter_In, in_seq. split.
    + intros [Hj H]. split; [lia | exact H].
    + intros [Hj H]. split; [lia | exact H].
  - intros j. unfold J2. rewrite filter_In, in_seq, andb_true_iff. split.
    + intros [Hj [H1 H2]]. split; [lia|]. split; [exact H2 | exact H1].
    + intros [Hj [H1 H2]]. split; [lia|]. split; [exact H2 | exact H1].
  - intros HJ. rewrite Hmain, HJ. f_equal.
    apply loudness_of_zero. intros i. cbn [map]. rewrite mean_nil.
    apply is_zero_zero.
  - intros Hfin Hoff HGr. rewrite call_integrated_loudness_eq. fold m.
    rewrite Hm. f_equal. unfold spec_integrated_loudness. fold m.
    apply gated_agrees_with_spec; assumption.
  - intros p Hp. change (pyln.loudness_of 1 (fun _ => Fin p))
      with (block_lufs (Fin p)).
    now rewrite block_lufs_fin.
  - apply two_block_signal_blocks.
  - apply two_block_signal_blocks.
  - exact two_block_signal_loudness.
Qed.

(** C6 as amended, on the two-block signal. *)
Lemma integrated_loudness_two_pass_gating_witness :
  let a := two_block_signal in
  let m := {| pyln.rate := 2; pyln.block_size := 2 |} in
  let c := shape1 a in
  let nb := num_blocks_nat m a in
  let z := block_powers m a in
  let l := fun j => pyln.loudness_of c (fun i => pyln.z_at z i j) in
  let J1 := filter (fun j => fle (Fin (-70)) (l j)) (seq 0 nb) in
  let Gamma_r :=
    fsub (pyln.loudness_of c
            (fun i => mean (map (fun j => pyln.z_at z i j) J1)))
         (Fin 10) in
  let J2 := filter (fun j => flt Gamma_r (l j) && flt (Fin (-70)) (l j))
                   (seq 0 nb) in
  call_integrated_loudness a 2 2
  = Ok (pyln.loudness_of c
          (fun i => nan_to_num (mean (map (fun j => pyln.z_at z i j) J2))))
  /\ (1 <= nb)%nat
  /\ (forall j, In j J1 <-> (j < nb)%nat /\ fle (Fin (-70)) (l j) = true)
  /\ (forall j, In j J2 <->
                (j < nb)%nat
                /\ flt (Fin (-70)) (l j) = true
                /\ flt Gamma_r (l j) = true).
Proof.
  intros a m c nb z l J1 Gamma_r J2.
  destruct (integrated_loudness_two_pass_gating two_block_signal 2 2)
    as [H1 [H2 [_ [H4 [H5 _]]]]].
  - lia.
  - lra.
  - cbn. lia.
  - cbn. lra.
  - split; [exact H1|]. split; [exact H2|]. split; [exact H4 | exact H5].
Defined.

(** * Further properties of the code *)

(** ** Writing in chunks *)

Lemma chunks_concat A (C : nat) : forall (cnt : nat) (a : list A),
  (length a <= cnt * C)%nat ->
  concat (map (fun k => firstn C (skipn (k * C) a)) (seq 0 cnt)) = a.
Proof.
  induction cnt as [|cnt IH]; intros a Hlen.
  - cbn in Hlen. destruct a; [reflexivity | cbn in Hlen; lia].
  - cbn [seq map concat]. rewrite <- seq_shift, map_map.
    change (skipn (0 * C) a) with a.
    transitivity (firstn C a ++ skipn C a); [|apply firstn_skipn].
    f_equal. transitivity
      (concat (map (fun k => firstn C (skipn (k * C) (skipn C a)))
                   (seq 0 cnt))).
    + f_equal. apply map_ext. intros k. rewrite skipn_skipn.
      do 2 f_equal. cbn [Nat.mul]. lia.
    + apply IH. rewrite length_skipn. cbn [Nat.mul] in Hlen. lia.
Qed.

Lemma firstn_min A (n : nat) (l : list A) :
  firstn (Nat.min n (length l)) l = firstn n l.
Proof. now rewrite <- firstn_firstn, firstn_all. Qed.

Lemma slice_chunk A (c : Z) (a : list A) (k : nat) :
  (0 < c)%Z ->
  slice (Z.of_nat k * c) (Z.of_nat k * c + c) a
  = firstn (Z.to_nat c) (skipn (k * Z.to_nat c) a).
Proof.
  intros Hc. unfold slice, clamp_index.
  assert (H1 : (Z.of_nat k * c <? 0)%Z = false) by (apply Z.ltb_ge; nia).
  assert (H2 : (Z.of_nat k * c + c <? 0)%Z = false) by (apply Z.ltb_ge; nia).
  rewrite H1, H2.
  assert (Hk : Z.to_nat (Z.of_nat k * c) = (k * Z.to_nat c)%nat).
  { rewrite Z2Nat.inj_mul, Nat2Z.id by lia. reflexivity. }
  destruct (Z_le_gt_dec (Z.of_nat k * c) (Z.of_nat (length a))) as [Hle|Hgt].
  - rewrite (Z.min_l _ _ Hle), Hk.
    rewrite <- (firstn_min _ (Z.to_nat c)). f_equal.
    rewrite length_skipn. lia.
  - rewrite !Z.min_r by lia. rewrite Z.sub_diag. cbn [Z.to_nat firstn].
    rewrite skipn_all2 by lia. now destruct (Z.to_nat c).
Qed.

Lemma range_step_count (n c : Z) :
  (0 <= n)%Z -> (0 < c)%Z ->
  (Z.to_nat n <= Z.to_nat ((n + c - 1) / c) * Z.to_nat c)%nat.
Proof.
  intros Hn Hc.
  pose proof (Z.div_mod (n + c - 1) c ltac:(lia)) as Hdm.
  pose proof (Z.mod_pos_bound (n + c - 1) c Hc) as Hmod.
  assert (Hq : (0 <= (n + c - 1) / c)%Z) by (apply Z.div_pos; lia).
  rewrite <- Z2Nat.inj_mul by lia. apply Z2Nat.inj_le; nia.
Qed.

Lemma chunked_concat A (c : Z) (a : list A) :
  (0 < c)%Z ->
  concat (map (fun i => slice i (i + c) a)
              (range_step (Z.of_nat (length a)) c)) = a.
Proof.
  intros Hc. unfold range_step, range. rewrite !map_map.
  erewrite map_ext; [|intros k; apply (slice_chunk _ c a k Hc)].
  apply chunks_concat.
  pose proof (range_step_count (Z.of_nat (length a)) c ltac:(lia) Hc) as H.
  now rewrite Nat2Z.id in H.
Qed.

(** ** Running [loudness_norm_file] *)

Lemma lookup_other p q c F :
  String.eqb q p = false -> sf.lookup p ((q, c) :: F) = sf.lookup p F.
Proof. intros H. cbn [sf.lookup]. now rewrite H. Qed.

(** The writing loop appends the chunks, in order, to the file opened for
    writing; no other path is affected and no array is touched. *)
Lemma write_chunks_run out (f : Z -> ndarray) (h : list ndarray) :
  forall (idx : list Z) F c,
    sf.lookup out F = Some c ->
    exists F',
      for_each idx (fun i => sf.write out (f i)) {| heap := h; files := F |}
      = ({| heap := h; files := F' |}, Ok tt)
      /\ sf.lookup out F'
         = Some {| sf_frames := sf_frames c ++ concat (map f idx);
                   sf_samplerate := sf_samplerate c |}
      /\ (forall p, String.eqb out p = false ->
                    sf.lookup p F' = sf.lookup p F).
Proof.
  induction idx as [|i idx IH]; intros F c Hc.
  - exists F. cbn [for_each map concat]. rewrite app_nil_r.
    split; [reflexivity|]. split; [now destruct c | reflexivity].
  - cbn [for_each]. unfold bind at 1. unfold sf.write at 1.
    cbn [heap files]. rewrite Hc.
    set (c1 := {| sf_frames := sf_frames c ++ f i;
                  sf_samplerate := sf_samplerate c |}).
    destruct (IH ((out, c1) :: F) c1 (lookup_here out c1 F))
      as [F' [Hrun [Hout Hoth]]].
    exists F'. split; [exact Hrun|]. split.
    + rewrite Hout. cbn [c1 sf_frames sf_samplerate map concat].
      now rewrite app_assoc.
    + intros p Hp. rewrite (Hoth p Hp). now apply lookup_other.
Qed.

Lemma normalize_loudness_run_gen (h : list ndarray) F data (d : ndarray)
    L target :
  nth_error h data = Some d ->
  pyln.normalize_loudness data L target {| heap := h; files := F |} =
  ({| heap := h ++ [scale (pyln.loudness_gain L target) d]; files := F |},
   match amax_abs (scale (pyln.loudness_gain L target) d) with
   | Ok _ => Ok (length h)
   | Raise e => Raise e
   end).
Proof.
  intros Hd. unfold pyln.normalize_loudness, bind, load, lift, alloc, ret.
  cbn [heap files]. rewrite Hd.
  now destruct (amax_abs (scale (pyln.loudness_gain L target) d)).
Qed.

Lemma loudness_norm_file_missing (h : list ndarray) F inp out
    peak loudness block_size :
  sf.lookup inp F = None ->
  loudness_norm_file inp out peak loudness block_size
    {| heap := h; files := F |}
  = ({| heap := h; files := F |}, Raise RuntimeError).
Proof.
  intros Hin. unfold loudness_norm_file.
  unfold bind at 1. unfold sf.read at 1. cbn [heap files]. now rewrite Hin.
Qed.

(** [loudness_norm_file] from a disk on which the input path holds [c]:
    the outcome and the disk afterwards. *)
Lemma loudness_norm_file_run (h : list ndarray) F inp out c
    peak loudness block_size :
  sf.lookup inp F = Some c ->
  let run := loudness_norm_file inp out peak loudness block_size
               {| heap := h; files := F |} in
  match loudness_norm_file_value (sf_frames c) (sf_samplerate c)
          peak loudness with
  | Raise e => snd run = Raise e /\ files (fst run) = F
  | Ok a3 =>
      snd run = Ok tt
      /\ sf.lookup out (files (fst run))
         = Some {| sf_frames := a3; sf_samplerate := sf_samplerate c |}
      /\ (forall p, String.eqb out p = false ->
                    sf.lookup p (files (fst run)) = sf.lookup p F)
  end.
Proof.
  intros Hin run.
  assert (Hrun : run = loudness_norm_file inp out peak loudness block_size
                         {| heap := h; files := F |}) by reflexivity.
  clearbody run. unfold loudness_norm_file in Hrun.
  unfold loudness_norm_file_value, measure.
  unfold bind at 1 in Hrun. unfold sf.read at 1 in Hrun.
  cbn [heap files] in Hrun. rewrite Hin in Hrun.
  destruct c as [a rate]. cbn [sf_frames sf_samplerate] in *.
  unfold bind at 1 in Hrun. unfold pyln.new_Meter at 1, ret at 1 in Hrun.
  unfold bind at 1 in Hrun.
  rewrite (integrated_loudness_run (h ++ [a]) F _ (length h) a
             (nth_error_snoc _ h a)) in Hrun.
  destruct (snd (measure_copy _ a)) as [L|e]; [|subst run; split; reflexivity].
  unfold bind at 1 in Hrun.
  rewrite (normalize_loudness_run_gen _ F (length h) a) in Hrun.
  2:{ rewrite <- app_assoc. cbn [app]. rewrite nth_error_app2 by lia.
      now rewrite Nat.sub_diag. }
  set (a2 := scale (pyln.loudness_gain L loudness) a) in *.
  unfold peak_value.
  destruct (amax_abs a2) as [p|e] eqn:Hp; [|subst run; split; reflexivity].
  unfold bind at 1 in Hrun.
  set (h2 := (h ++ [a]) ++ [fst (measure_copy _ a)]) in *.
  rewrite (normalize_peak_run (h2 ++ [a2]) F (length h2) a2 peak
             (nth_error_snoc _ h2 a2)) in Hrun.
  unfold peak_value in Hrun. rewrite Hp in Hrun.
  set (a3 := scale (pyln.peak_gain p peak) a2) in *.
  unfold bind at 1 in Hrun. unfold load at 1 in Hrun.
  cbn [heap files] in Hrun.
  rewrite (nth_error_snoc _ (h2 ++ [a2]) a3) in Hrun.
  unfold bind at 1 in Hrun. unfold sf.open_w at 1 in Hrun.
  cbn [heap files] in Hrun.
  set (c0 := {| sf_frames := []; sf_samplerate := rate |}) in *.
  destruct (write_chunks_run out (fun i => slice i (i + chunk_size) a3)
              ((h2 ++ [a2]) ++ [a3])
              (range_step (Z.of_nat (length a3)) chunk_size)
              ((out, c0) :: F) c0 (lookup_here out c0 F))
    as [F' [Hw [Hout Hoth]]].
  rewrite Hw in Hrun. subst run. cbn [fst snd files].
  split; [reflexivity|]. split.
  - rewrite Hout. cbn [c0 sf_frames sf_samplerate app].
    now rewrite chunked_concat by (unfold chunk_size; lia).
  - intros q Hq. rewrite (Hoth q Hq). now apply lookup_other.
Qed.

(** ** The one-sample input file *)

(** The decoded input of the examples: one sample [1.0] at 1 Hz. *)
Lemma unit_file_loudness :
  call_integrated_loudness [[Fin 1]] 1 pyln.default_block_size
  = Ok (Fin (lufs (5 / 2 * (K_shelf * 1 * (K_shelf * 1))))).
Proof.
  rewrite call_integrated_loudness_eq. unfold measure.
  change [[Fin 1]] with (mono [1]).
  now rewrite measure_copy_default_block
    by (try lra; apply raw_unit_sample_above_gate).
Qed.

Lemma loudness_gain_fin L target :
  pyln.loudness_gain (Fin L) target = Fin (Rpower 10 ((target - L) / 20)).
Proof.
  unfold pyln.loudness_gain. cbn [fsub fneg fadd].
  rewrite fdiv_fin by lra. reflexivity.
Qed.



(** X6 (the writing loop).  For every positive chunk size, opening a file
    and writing the slices [a[i : i + c]] for [i] in [range(0, len(a), c)]
    leaves the file holding exactly the frames of [a], each once and in
    order, the last chunk being the shorter remainder; no array is
    touched. *)
Theorem chunked_write_round_trip :
  forall (w : world) (path : string) (samplerate c : Z) (a : ndarray),
    (0 < c)%Z ->
    let run := (sf.open_w path samplerate ;;;
                for_each (range_step (Z.of_nat (length a)) c)
                  (fun i => sf.write path (slice i (i + c) a))) w in
    snd run = Ok tt
    /\ sf.lookup path (files (fst run))
       = Some {| sf_frames := a; sf_samplerate := samplerate |}
    /\ heap (fst run) = heap w.
Proof.
  intros [h F] path samplerate c a Hc run. subst run.
  unfold bind, sf.open_w. cbn [heap files].
  set (c0 := {| sf_frames := []; sf_samplerate := samplerate |}).
  destruct (write_chunks_run path (fun i => slice i (i + c) a) h
              (range_step (Z.of_nat (length a)) c)
              ((path, c0) :: F) c0 (lookup_here path c0 F))
    as [F' [Hw [Hout _]]].
  rewrite Hw. cbn [fst snd files heap].
  split; [reflexivity|]. split; [|reflexivity].
  rewrite Hout. cbn [c0 sf_frames sf_samplerate app].
  now rewrite chunked_concat.
Qed.

(** X6 with five frames written in chunks of two. *)
Lemma chunked_write_witness :
  let a := [[Fin 1]; [Fin 2]; [Fin 3]; [Fin 4]; [Fin 5]] in
  let run := (sf.open_w "out.wav" 8000 ;;;
              for_each (range_step (Z.of_nat (length a)) 2)
                (fun i => sf.write "out.wav" (slice i (i + 2) a)))
               {| heap := []; files := [] |} in
  range_step (Z.of_nat (length a)) 2 = [0; 2; 4]%Z
  /\ snd run = Ok tt
  /\ sf.lookup "out.wav" (files (fst run))
     = Some {| sf_frames := a; sf_samplerate := 8000 |}
  /\ heap (fst run) = [].
Proof.
  intros a. split; [reflexivity|].
  apply (chunked_write_round_trip
           {| heap := []; files := [] |} "out.wav" 8000 2 a).
  lia.
Defined.

(** ** Silence through the meter: values that are NaN or zero *)



















(** ** Further properties of [loudness_norm] *)

Lemma pow10_log10 k : 0 < k -> Rpower 10 (ln k / ln 10) = k.
Proof.
  intros Hk. unfold Rpower. pose proof ln10_pos.
  replace (ln k / ln 10 * ln 10) with (ln k) by (field; lra).
  now apply exp_ln.
Qed.

Lemma peak_value_finite a M target :
  amax_abs a = Ok (Fin M) -> 0 < M ->
  peak_value a target = Ok (scale (Fin (Rpower 10 (target / 20) / M)) a).
Proof.
  intros HM Hpos. unfold peak_value. rewrite HM.
  unfold pyln.peak_gain. cbn [pow10]. now rewrite fdiv_fin by lra.
Qed.

(** X8 (loudness_norm reaches the target).  Let [a1] be the
    peak-normalised input and [l] the finite loudness the meter reads on
    it.  If the K-weighted signal is finite and the gain of
    [loudness - l] dB moves no block across the -70 LUFS absolute gate,
    then the buffer [loudness_norm] returns measures exactly [loudness]
    LUFS on the same meter. *)
Theorem loudness_norm_reaches_target :
  forall (a a1 : ndarray) (rate : Z) (peak loudness block_size l : R),
    peak_value a peak = Ok a1 ->
    call_integrated_loudness a1 rate block_size = Ok (Fin l) ->
    all_finite (kweighted {| pyln.rate := rate;
                             pyln.block_size := block_size |} a1) ->
    (forall j,
        (j < num_blocks_nat {| pyln.rate := rate;
                               pyln.block_size := block_size |} a1)%nat ->
        gate_stable
          (raw_block_loudness {| pyln.rate := rate;
                                 pyln.block_size := block_size |} a1 j)
          (loudness - l)) ->
    exists out,
      call_loudness_norm a rate peak loudness block_size = Ok out
      /\ call_integrated_loudness out rate block_size = Ok (Fin loudness).
Proof.
  intros a a1 rate peak loudness block_size l Hpk HL Hfin Hst.
  set (m := {| pyln.rate := rate; pyln.block_size := block_size |}) in *.
  rewrite call_integrated_loudness_eq in HL. fold m in HL.
  rewrite call_loudness_norm_eq. unfold loudness_norm_value.
  rewrite Hpk. fold m. rewrite HL. eexists. split; [reflexivity|].
  rewrite call_integrated_loudness_eq. fold m.
  rewrite loudness_gain_fin.
  pose proof (pow10_pos ((loudness - l) / 20)) as Hk.
  assert (Hd : 20 * (ln (Rpower 10 ((loudness - l) / 20)) / ln 10)
               = loudness - l) by (rewrite log10_pow10; lra).
  rewrite measure_scale; [| exact Hk | exact Hfin | now rewrite Hd].
  rewrite HL, Hd. cbn [fadd]. do 2 f_equal. lra.
Qed.

(** X8 on the buffer [[1.0]] at 1 Hz with a block of one second and the
    default targets: the peak-normalised sample measures 2.309 LUFS and
    the returned buffer measures -23 LUFS. *)
Lemma loudness_norm_reaches_target_witness :
  exists out,
    call_loudness_norm [[Fin 1]] 1 (-1) (-23) 1 = Ok out
    /\ call_integrated_loudness out 1 1 = Ok (Fin (-23)).
Proof.
  pose proof (pow10_pos (-1 / 20)) as HP.
  assert (HK : K_shelf * Rpower 10 (-1 / 20) * (K_shelf * Rpower 10 (-1 / 20))
               = Rpower 10 (2 / 5 + -1 / 10)) by apply K_shelf_peak_power.
  apply (loudness_norm_reaches_target
           [[Fin 1]] (mono [Rpower 10 (-1 / 20)]) 1 (-1) (-23) 1 2.309).
  - apply peak_value_one.
  - rewrite call_integrated_loudness_eq. unfold measure.
    rewrite measure_copy_unit_block; [| lra | rewrite HK, lufs_pow10; lra].
    cbn [snd]. rewrite HK, lufs_pow10. do 2 f_equal. lra.
  - rewrite kweighted_unit. repeat constructor.
  - intros j Hj. rewrite num_blocks_nat_unit in Hj.
    assert (j = 0%nat) by lia. subst j.
    rewrite raw_block_loudness_unit by lra.
    rewrite HK, lufs_pow10. apply gate_stable_above; lra.
Defined.

(** X9 (loudness_norm is idempotent).  On a finite, non-silent buffer for
    which the meter reads a finite loudness on the peak-normalised
    samples, [loudness_norm] returns a buffer on which a second call with
    the same arguments returns that same buffer. *)
Theorem loudness_norm_idempotent :
  forall (a : ndarray) (rate : Z) (peak loudness block_size l : R),
    all_finite a -> ~ silent a ->
    measured_loudness a rate peak block_size = Ok (Fin l) ->
    exists out,
      call_loudness_norm a rate peak loudness block_size = Ok out
      /\ call_loudness_norm out rate peak loudness block_size = Ok out.
Proof.
  intros a rate peak loudness block_size l Hfin Hns HL.
  destruct (amax_abs_finite a Hfin Hns) as [M [HM HMpos]].
  pose proof (peak_value_finite a M peak HM HMpos) as Hpk.
  pose proof (pow10_pos (peak / 20)) as HP.
  assert (Hk : 0 < Rpower 10 (peak / 20) / M)
    by (apply Rdiv_lt_0_compat; lra).
  rewrite measured_loudness_eq, Hpk in HL.
  exists (scale (Fin (Rpower 10 ((loudness - l) / 20)))
            (scale (Fin (Rpower 10 (peak / 20) / M)) a)).
  rewrite !call_loudness_norm_eq. unfold loudness_norm_value.
  rewrite Hpk, HL, loudness_gain_fin. split; [reflexivity|].
  rewrite peak_value_scale by apply pow10_pos.
  rewrite peak_value_scale by exact Hk.
  rewrite Hpk, HL, loudness_gain_fin. reflexivity.
Qed.

(** X9 on the buffer [[1.0]] at 1 Hz with a block of one second. *)
Lemma loudness_norm_idempotent_witness :
  exists out,
    call_loudness_norm [[Fin 1]] 1 (-1) (-23) 1 = Ok out
    /\ call_loudness_norm out 1 (-1) (-23) 1 = Ok out.
Proof.
  apply (loudness_norm_idempotent [[Fin 1]] 1 (-1) (-23) 1 (3.309 + -1)).
  - repeat constructor.
  - intros H. inversion H as [|? ? H1 _]. injection H1. lra.
  - apply measured_loudness_unit_sample. lra.
Defined.

(** X10 (loudness_norm, the peak target).  Let the input have the finite
    peak [M > 0] and let the meter read the finite loudness [l0] on the
    input as given.  If the K-weighted input is finite and the peak gain
    [10^(peak/20) / M] moves no block across the -70 LUFS absolute gate,
    then [loudness_norm] returns the input multiplied by
    [10^((loudness - l0)/20)]: the result of a plain loudness
    normalisation, on which [peak] has no influence. *)
Theorem loudness_norm_peak_target_cancels :
  forall (a : ndarray) (rate : Z) (peak loudness block_size M l0 : R),
    amax_abs a = Ok (Fin M) -> 0 < M ->
    call_integrated_loudness a rate block_size = Ok (Fin l0) ->
    all_finite (kweighted {| pyln.rate := rate;
                             pyln.block_size := block_size |} a) ->
    (forall j,
        (j < num_blocks_nat {| pyln.rate := rate;
                               pyln.block_size := block_size |} a)%nat ->
        gate_stable
          (raw_block_loudness {| pyln.rate := rate;
                                 pyln.block_size := block_size |} a j)
          (20 * (ln (Rpower 10 (peak / 20) / M) / ln 10))) ->
    call_loudness_norm a rate peak loudness block_size
    = Ok (scale (Fin (Rpower 10 ((loudness - l0) / 20))) a).
Proof.
  intros a rate peak loudness block_size M l0 HM HMpos HL Hfin Hst.
  set (m := {| pyln.rate := rate; pyln.block_size := block_size |}) in *.
  pose proof (pow10_pos (peak / 20)) as HP.
  set (k := Rpower 10 (peak / 20) / M) in *.
  assert (Hk : 0 < k) by (apply Rdiv_lt_0_compat; lra).
  rewrite call_integrated_loudness_eq in HL. fold m in HL.
  rewrite call_loudness_norm_eq. unfold loudness_norm_value.
  rewrite (peak_value_finite a M peak HM HMpos). fold k. fold m.
  rewrite (measure_scale k m a Hk Hfin Hst), HL.
  cbn [fadd]. rewrite loudness_gain_fin, scale_scale. cbn [fmul].
  do 3 f_equal.
  rewrite <- (pow10_log10 k Hk) at 2. rewrite <- Rpower_plus.
  f_equal. pose proof ln10_pos. field. lra.
Qed.

(** X10 on the buffer [[1.0]] at 1 Hz with a block of one second: the raw
    loudness is 3.309 LUFS and the result is the sample
    [10^((-23 - 3.309)/20)], for a peak target of -1 dB as for any
    other. *)
Lemma loudness_norm_peak_target_witness :
  call_loudness_norm [[Fin 1]] 1 (-1) (-23) 1
  = Ok (scale (Fin (Rpower 10 ((-23 - 3.309) / 20))) [[Fin 1]]).
Proof.
  apply (loudness_norm_peak_target_cancels [[Fin 1]] 1 (-1) (-23) 1 1 3.309).
  - cbn. now rewrite Rabs_R1.
  - lra.
  - exact integrated_loudness_unit_sample.
  - change [[Fin 1]] with (mono [1]). rewrite kweighted_unit.
    repeat constructor.
  - intros j Hj. change [[Fin 1]] with (mono [1]) in *.
    rewrite num_blocks_nat_unit in Hj.
    assert (j = 0%nat) by lia. subst j.
    rewrite raw_block_loudness_unit by lra.
    replace (K_shelf * 1 * (K_shelf * 1)) with (Rpower 10 (2 / 5))
      by (rewrite K_shelf_pow, !Rmult_1_r, <- Rpower_plus; f_equal; lra).
    rewrite lufs_pow10.
    replace (Rpower 10 (-1 / 20) / 1) with (Rpower 10 (-1 / 20)) by field.
    rewrite log10_pow10. apply gate_stable_above; lra.
Defined.

(** ** [loudness_norm_file] on a container that can fail and that encodes *)

Lemma loudness_norm_file_buffer_missing (h : list ndarray) F inp
    peak loudness :
  sf.lookup inp F = None ->
  loudness_norm_file_buffer inp peak loudness {| heap := h; files := F |}
  = ({| heap := h; files := F |}, Raise RuntimeError).
Proof.
  intros Hin. unfold loudness_norm_file_buffer.
  unfold bind at 1. unfold sf.read at 1. cbn [heap files]. now rewrite Hin.
Qed.

(** The computation before the output is opened: it leaves the disk alone
    and ends as [loudness_norm_file_value] on the decoded input does, a
    returned location holding the array to be written. *)
Lemma loudness_norm_file_buffer_run (h : list ndarray) F inp c
    peak loudness :
  sf.lookup inp F = Some c ->
  let run := loudness_norm_file_buffer inp peak loudness
               {| heap := h; files := F |} in
  files (fst run) = F
  /\ match loudness_norm_file_value (sf_frames c) (sf_samplerate c)
             peak loudness with
     | Raise e => snd run = Raise e
     | Ok a3 =>
         exists l, snd run = Ok (l, sf_samplerate c)
                   /\ nth_error (heap (fst run)) l = Some a3
     end.
Proof.
  intros Hin run.
  assert (Hrun : run = loudness_norm_file_buffer inp peak loudness
                         {| heap := h; files := F |}) by reflexivity.
  clearbody run. unfold loudness_norm_file_buffer in Hrun.
  unfold loudness_norm_file_value, measure.
  unfold bind at 1 in Hrun. unfold sf.read at 1 in Hrun.
  cbn [heap files] in Hrun. rewrite Hin in Hrun.
  destruct c as [a rate]. cbn [sf_frames sf_samplerate] in *.
  unfold bind at 1 in Hrun. unfold pyln.new_Meter at 1, ret at 1 in Hrun.
  unfold bind at 1 in Hrun.
  rewrite (integrated_loudness_run (h ++ [a]) F _ (length h) a
             (nth_error_snoc _ h a)) in Hrun.
  destruct (snd (measure_copy _ a)) as [L|e]; [|subst run; split; reflexivity].
  unfold bind at 1 in Hrun.
  rewrite (normalize_loudness_run_gen _ F (length h) a) in Hrun.
  2:{ rewrite <- app_assoc. cbn [app]. rewrite nth_error_app2 by lia.
      now rewrite Nat.sub_diag. }
  set (a2 := scale (pyln.loudness_gain L loudness) a) in *.
  unfold peak_value.
  destruct (amax_abs a2) as [p|e] eqn:Hp; [|subst run; split; reflexivity].
  unfold bind at 1 in Hrun.
  set (h2 := (h ++ [a]) ++ [fst (measure_copy _ a)]) in *.
  rewrite (normalize_peak_run (h2 ++ [a2]) F (length h2) a2 peak
             (nth_error_snoc _ h2 a2)) in Hrun.
  unfold peak_value in Hrun. rewrite Hp in Hrun.
  unfold ret in Hrun. subst run. cbn [fst snd files heap].
  split; [reflexivity|]. eexists. split; [reflexivity|].
  apply nth_error_snoc.
Qed.

Lemma encode_app k path a b :
  encode k path (a ++ b) = encode k path a ++ encode k path b.
Proof. unfold encode. apply map_app. Qed.

(** When no write fails, the loop leaves in the file the stored image of
    the chunks, in order, after what it held; no other path is affected. *)
Lemma write_chunks_ok k path :
  (forall c chunk, write_error k path c chunk = None) ->
  forall chunks c F,
    sf.lookup path F = Some c ->
    exists F',
      write_chunks k path c chunks F = (F', None)
      /\ sf.lookup path F' = Some (extend k path c (concat chunks))
      /\ (forall q, String.eqb path q = false ->
                    sf.lookup q F' = sf.lookup q F).
Proof.
  intros Hw. induction chunks as [|chunk chunks IH]; intros c F Hc.
  - exists F. cbn [write_chunks concat]. split; [reflexivity|].
    split; [|reflexivity]. rewrite Hc. f_equal. unfold extend, encode.
    cbn [map]. rewrite app_nil_r. now destruct c.
  - cbn [write_chunks]. rewrite Hw.
    destruct (IH (extend k path c chunk)
                 ((path, extend k path c chunk) :: F)
                 (lookup_here _ _ _)) as [F' [Hrun [Hout Hoth]]].
    exists F'. split; [exact Hrun|]. split.
    + rewrite Hout. f_equal. unfold extend. cbn [sf_frames sf_samplerate concat].
      now rewrite encode_app, app_assoc.
    + intros q Hq. rewrite (Hoth q Hq). now apply lookup_other.
Qed.

(** Whatever the writes do, the loop ends normally or with an exception of
    the output side. *)
Lemma loudness_norm_file_on_run k (h : list ndarray) F inp out c
    peak loudness block_size :
  sf.lookup inp F = Some c ->
  let run := loudness_norm_file_on k inp out peak loudness block_size
               {| heap := h; files := F |} in
  match loudness_norm_file_value (sf_frames c) (sf_samplerate c)
          peak loudness with
  | Raise e => snd run = Raising e /\ files (fst run) = F
  | Ok a3 =>
      (snd run = Completed \/ exists e, snd run = RaisingOutput e)
      /\ (open_error k out (sf_samplerate c) (shape1 a3) = None ->
          (forall c' chunk, write_error k out c' chunk = None) ->
          snd run = Completed
          /\ sf.lookup out (files (fst run))
             = Some {| sf_frames := encode k out a3;
                       sf_samplerate := sf_samplerate c |}
          /\ (forall q, String.eqb out q = false ->
                        sf.lookup q (files (fst run)) = sf.lookup q F))
  end.
Proof.
  intros Hin run.
  assert (Hrun : run = loudness_norm_file_on k inp out peak loudness
                         block_size {| heap := h; files := F |})
    by reflexivity.
  clearbody run. unfold loudness_norm_file_on in Hrun.
  pose proof (loudness_norm_file_buffer_run h F inp c peak loudness Hin)
    as Hbuf.
  cbv zeta in Hbuf.
  destruct (loudness_norm_file_buffer inp peak loudness _) as [w1 r].
  cbn [fst snd] in Hbuf. destruct Hbuf as [HF Hr].
  destruct (loudness_norm_file_value _ _ peak loudness) as [a3|e].
  - destruct Hr as [l [-> Hl]]. rewrite Hl in Hrun.
    destruct (open_error k out (sf_samplerate c) (shape1 a3))
      as [[e created]|] eqn:Hopen.
    + subst run. cbn [fst snd]. split; [right; eauto | discriminate].
    + set (c0 := {| sf_frames := []; sf_samplerate := sf_samplerate c |}) in *.
      destruct (write_chunks k out c0 _ _) as [F' r'] eqn:Hwr.
      subst run. cbn [fst snd files]. split.
      * destruct r'; [right; eauto | now left].
      * intros _ Hw.
        destruct (write_chunks_ok k out Hw
                    (map (fun i => slice i (i + chunk_size) a3)
                         (range_step (Z.of_nat (length a3)) chunk_size))
                    c0 ((out, c0) :: files w1) (lookup_here _ _ _))
          as [F'' [Hrun [Hout Hoth]]].
        rewrite Hrun in Hwr. injection Hwr as <- <-.
        split; [reflexivity|]. split.
        -- rewrite Hout. unfold extend. cbn [c0 sf_frames sf_samplerate app].
           now rewrite chunked_concat by (unfold chunk_size; lia).
        -- intros q Hq. rewrite (Hoth q Hq), <- HF. now apply lookup_other.
  - rewrite Hr in Hrun. subst run. cbn [fst snd]. split; [reflexivity|exact HF].
Qed.

Lemma loudness_norm_file_on_missing k (h : list ndarray) F inp out
    peak loudness block_size :
  sf.lookup inp F = None ->
  loudness_norm_file_on k inp out peak loudness block_size
    {| heap := h; files := F |}
  = ({| heap := h; files := F |}, Raising RuntimeError).
Proof.
  intros Hin. unfold loudness_norm_file_on.
  now rewrite (loudness_norm_file_buffer_missing h F inp _ _ Hin).
Qed.

(** On the lossless container the function is [loudness_norm_file] as
    modelled with [sf.open_w] and [sf.write]. *)
Lemma encode_lossless path frames : encode lossless path frames = frames.
Proof.
  unfold encode. cbn [stored lossless].
  rewrite (map_ext _ (fun f => f)) by (intros f; apply map_id).
  apply map_id.
Qed.

Lemma write_chunks_lossless out (f : Z -> ndarray) (h : list ndarray) :
  forall (idx : list Z) c F,
    sf.lookup out F = Some c ->
    for_each idx (fun i => sf.write out (f i)) {| heap := h; files := F |}
    = ({| heap := h;
          files := fst (write_chunks lossless out c (map f idx) F) |}, Ok tt)
    /\ snd (write_chunks lossless out c (map f idx) F) = None.
Proof.
  induction idx as [|i idx IH]; intros c F Hc; [split; reflexivity|].
  cbn [for_each map write_chunks]. unfold bind at 1. unfold sf.write at 1.
  cbn [heap files write_error lossless]. rewrite Hc.
  assert (He : extend lossless out c (f i)
               = {| sf_frames := sf_frames c ++ f i;
                    sf_samplerate := sf_samplerate c |}).
  { unfold extend. now rewrite encode_lossless. }
  rewrite He. apply IH. apply lookup_here.
Qed.

Lemma loudness_norm_file_lossless inp out peak loudness block_size w :
  loudness_norm_file_on lossless inp out peak loudness block_size w
  = (fst (loudness_norm_file inp out peak loudness block_size w),
     match snd (loudness_norm_file inp out peak loudness block_size w) with
     | Ok _ => Completed
     | Raise e => Raising e
     end).
Proof.
  destruct (loudness_norm_file inp out peak loudness block_size w)
    as [w' r] eqn:H.
  cbn [fst snd]. unfold loudness_norm_file in H.
  unfold loudness_norm_file_on, loudness_norm_file_buffer.
  unfold bind at 1 in H. unfold bind at 1.
  destruct (sf.read inp w) as [w1 [[audio rate]|e]];
    [|injection H as <- <-; reflexivity].
  unfold bind at 1 in H. unfold bind at 1.
  unfold pyln.new_Meter, ret at 1 in H. unfold pyln.new_Meter, ret at 1.
  unfold bind at 1 in H. unfold bind at 1.
  destruct (pyln.integrated_loudness _ audio w1) as [w2 [L|e]];
    [|injection H as <- <-; reflexivity].
  unfold bind at 1 in H. unfold bind at 1.
  destruct (pyln.normalize_loudness audio L loudness w2) as [w3 [a2|e]];
    [|injection H as <- <-; reflexivity].
  unfold bind at 1 in H. unfold bind at 1.
  destruct (pyln.normalize_peak a2 peak w3) as [[h4 F4] [a3|e]];
    [|injection H as <- <-; reflexivity].
  unfold ret. unfold bind at 1 in H. unfold load at 1 in H.
  cbn [heap files] in *.
  destruct (nth_error h4 a3) as [a|]; [|injection H as <- <-; reflexivity].
  cbn [open_error lossless]. unfold bind at 1 in H.
  unfold sf.open_w at 1 in H. cbn [heap files] in H.
  set (c0 := {| sf_frames := []; sf_samplerate := rate |}) in *.
  destruct (write_chunks_lossless out (fun i => slice i (i + chunk_size) a)
              h4 (range_step (Z.of_nat (length a)) chunk_size) c0
              ((out, c0) :: F4) (lookup_here _ _ _)) as [Hrun Hnone].
  rewrite Hrun in H. injection H as <- <-.
  destruct (write_chunks lossless out c0 _ _) as [F' r]. cbn [fst snd] in *.
  now rewrite Hnone.
Qed.


(** ** The file written by [loudness_norm_file] *)



(** X2 (loudness_norm_file, failure before the output is opened).  On any
    container, when the call ends with an exception of the computation
    (input missing or undecodable, buffer rejected by the meter, buffer
    without samples), the disk is as it was: the output is opened only
    after the computation has succeeded.  An output file can be created,
    truncated or left partly written only by a call that returns or that
    fails inside soundfile's open or write. *)
Theorem loudness_norm_file_early_failure_leaves_disk :
  forall (k : container) (w : world) (input_file output_file : string)
         (peak loudness block_size : R) (e : exn),
    snd (loudness_norm_file_on k input_file output_file peak loudness
           block_size w) = Raising e ->
    files (fst (loudness_norm_file_on k input_file output_file peak
                  loudness block_size w)) = files w.
Proof.
  intros k [h F] inp out peak loudness block_size e.
  destruct (sf.lookup inp F) as [c|] eqn:Hin.
  - pose proof (loudness_norm_file_on_run k h F inp out c peak loudness
                  block_size Hin) as Hrun.
    cbv zeta in Hrun.
    destruct (loudness_norm_file_value _ _ _ _) as [a3|e'].
    + destruct Hrun as [[Hc | [e' He']] _]; intros H; rewrite H in *;
        discriminate.
    + intros _. apply Hrun.
  - now rewrite (loudness_norm_file_on_missing k h F inp out _ _ _ Hin).
Qed.

Lemma short_file_value peak loudness :
  loudness_norm_file_value [[Fin 1]] 4 peak loudness = Raise ValueError.
Proof.
  unfold loudness_norm_file_value, measure.
  rewrite measure_short; [reflexivity | cbn; lia |].
  unfold pyln.default_block_size. cbn. lra.
Qed.

(** X2 on a disk holding an input of one frame at 4 Hz, shorter than a
    block, and an earlier output: the call raises [ValueError] and the
    earlier output is still there. *)
Lemma loudness_norm_file_early_failure_witness :
  let w := {| heap := [];
              files := [("in.wav"%string,
                         {| sf_frames := [[Fin 1]]; sf_samplerate := 4 |});
                        ("out.wav"%string,
                         {| sf_frames := [[Fin 0.5]; [Fin 0.25]];
                            sf_samplerate := 4 |})] |} in
  let run := loudness_norm_file_on lossless "in.wav" "out.wav" (-1) (-23)
               0.4 w in
  snd run = Raising ValueError
  /\ files (fst run) = files w.
Proof.
  intros w run.
  assert (H : snd run = Raising ValueError).
  { pose proof (loudness_norm_file_on_run lossless [] (files w) "in.wav"
                  "out.wav" {| sf_frames := [[Fin 1]]; sf_samplerate := 4 |}
                  (-1) (-23) 0.4 eq_refl) as Hrun.
    cbv zeta in Hrun. cbn [sf_frames sf_samplerate] in Hrun.
    rewrite short_file_value in Hrun. apply Hrun. }
  split; [exact H|].
  exact (loudness_norm_file_early_failure_leaves_disk
           lossless w "in.wav" "out.wav" (-1) (-23) 0.4 ValueError H).
Defined.









(** ** Counters built by [count_midi_from_file] *)

Lemma counter_set_keys (P : float64 -> Prop) c k v :
  Forall (fun kv => P (fst kv)) c -> P k ->
  Forall (fun kv => P (fst kv)) (counter_set c k v).
Proof.
  intros Hc Hk. induction Hc as [|[k' n] c Hk' Hc IH]; cbn [counter_set].
  - constructor; [exact Hk | constructor].
  - destruct (feq k' k); (constructor; [exact Hk' | assumption]).
Qed.

Lemma distinct_keys_set c k v :
  distinct_keys c -> distinct_keys (counter_set c k v).
Proof.
  induction c as [|[k' n] c IH]; cbn [counter_set distinct_keys].
  - intros _. split; [constructor | exact I].
  - intros [Hk' Hc]. destruct (feq k' k) eqn:E; cbn [distinct_keys].
    + split; assumption.
    + split; [|now apply IH].
      now apply (counter_set_keys (fun x => feq k' x = false)).
Qed.

Lemma positive_counts_set c k v :
  positive_counts c -> (1 <= v)%Z -> positive_counts (counter_set c k v).
Proof.
  unfold positive_counts. intros Hc Hv.
  induction Hc as [|[k' n] c Hn Hc IH]; cbn [counter_set].
  - constructor; [exact Hv | constructor].
  - destruct (feq k' k); (constructor; [solve [exact Hn | exact Hv] | assumption]).
Qed.

Lemma counter_get_nonneg c k : positive_counts c -> (0 <= counter_get c k)%Z.
Proof.
  unfold positive_counts. induction 1 as [|[k' n] c Hn _ IH];
    cbn [counter_get]; [lia|].
  destruct (feq k' k); [cbn [snd] in Hn; lia | exact IH].
Qed.

Lemma counter_set_length c k v :
  (length (counter_set c k v) <= S (length c))%nat.
Proof.
  induction c as [|[k' n] c IH]; cbn [counter_set length]; [lia|].
  destruct (feq k' k); cbn [length]; lia.
Qed.

Lemma count_frames_invariant f0 : forall c0,
  distinct_keys c0 -> positive_counts c0 ->
  let c := fold_left (fun counter i =>
                        if skipped i then counter
                        else counter_incr counter (hz_to_midi i)) f0 c0 in
  distinct_keys c /\ positive_counts c
  /\ (length c <= length c0 + length (surviving f0))%nat.
Proof.
  unfold surviving. induction f0 as [|i f0 IH]; intros c0 Hd Hp.
  - cbn. repeat split; try assumption. lia.
  - cbn [fold_left filter]. destruct (skipped i); cbn [negb].
    + now apply IH.
    + destruct (IH (counter_incr c0 (hz_to_midi i))) as [H1 [H2 H3]].
      * now apply distinct_keys_set.
      * apply positive_counts_set; [exact Hp|].
        pose proof (counter_get_nonneg c0 (hz_to_midi i) Hp). lia.
      * cbv zeta. split; [exact H1|]. split; [exact H2|].
        pose proof (counter_set_length c0 (hz_to_midi i)
                      (counter_get c0 (hz_to_midi i) + 1)) as Hl.
        unfold counter_incr in *. cbn [length]. lia.
Qed.

(** X11 (count_midi_from_file, shape of the result).  A returned counter
    has no two keys that compare equal, every count in it is at least 1,
    and it has at most as many items as there are frames that were not
    skipped. *)
Theorem count_midi_from_file_well_formed :
  forall (pitch_frequencies : string -> result (list float64))
         (file : string),
    match count_midi_from_file pitch_frequencies file with
    | Raise e => pitch_frequencies file = Raise e
    | Ok counter =>
        exists f0,
          pitch_frequencies file = Ok f0
          /\ distinct_keys counter
          /\ positive_counts counter
          /\ (length counter <= length (surviving f0))%nat
    end.
Proof.
  intros pf file. unfold count_midi_from_file.
  destruct (pf file) as [f0|e]; [|reflexivity].
  exists f0. split; [reflexivity|].
  apply (count_frames_invariant f0 []); [exact I | constructor].
Qed.

(** Keys of frames with a negative frequency. *)
Lemma hz_to_midi_isnan i :
  skipped i = false ->
  isnan (hz_to_midi i) = flt i zero && negb (isinf i).
Proof.
  unfold skipped, hz_to_midi. destruct i as [x| | |]; cbn; try discriminate.
  intros Hx. rewrite (Rltb_true 0 440) by lra.
  unfold Reqb in *. destruct (Req_dec_T x 0) as [E|E]; [discriminate|].
  unfold Rltb.
  destruct (Rlt_dec 0 x), (Rlt_dec x 0); cbn; try reflexivity; lra.
Qed.

Lemma nan_items_set_nan c v :
  nan_items (counter_set c NaN v) = nan_items c ++ [(NaN, v)].
Proof.
  induction c as [|[k' n] c IH]; cbn [counter_set]; [reflexivity|].
  replace (feq k' NaN) with false by (now destruct k').
  unfold nan_items in *. cbn [filter fst]. rewrite IH.
  now destruct (isnan k').
Qed.

Lemma nan_items_set_other c k v :
  isnan k = false -> nan_items (counter_set c k v) = nan_items c.
Proof.
  intros Hk. induction c as [|[k' n] c IH]; cbn [counter_set].
  - unfold nan_items. cbn [filter fst]. now rewrite Hk.
  - destruct (feq k' k) eqn:E.
    + assert (Hk' : isnan k' = false) by (destruct k'; try reflexivity;
                                           discriminate).
      unfold nan_items. cbn [filter fst]. now rewrite Hk'.
    + unfold nan_items in *. cbn [filter fst]. now rewrite IH.
Qed.

Lemma counter_get_nan c : counter_get c NaN = 0%Z.
Proof.
  induction c as [|[k' n] c IH]; [reflexivity|]. cbn [counter_get].
  replace (feq k' NaN) with false by (now destruct k'). exact IH.
Qed.

Lemma isnan_eq k : isnan k = true -> k = NaN.
Proof. destruct k; try discriminate; reflexivity. Qed.

Lemma count_frames_nan_items f0 : forall c0,
  nan_items
    (fold_left (fun counter i =>
                  if skipped i then counter
                  else counter_incr counter (hz_to_midi i)) f0 c0)
  = nan_items c0 ++ repeat (NaN, 1%Z) (length (negative_frames f0)).
Proof.
  unfold negative_frames. induction f0 as [|i f0 IH]; intros c0.
  - cbn. now rewrite app_nil_r.
  - cbn [fold_left filter]. destruct (skipped i) eqn:Hs.
    + rewrite IH. apply skipped_iff in Hs.
      destruct Hs as [-> | [-> | [-> | [r [-> ->]]]]]; cbn;
        try reflexivity.
      now rewrite Rltb_false by lra.
    + rewrite IH, <- (hz_to_midi_isnan i Hs).
      destruct (isnan (hz_to_midi i)) eqn:Hn.
      * apply isnan_eq in Hn. rewrite Hn. unfold counter_incr.
        rewrite nan_items_set_nan, counter_get_nan, <- app_assoc.
        reflexivity.
      * unfold counter_incr. now rewrite nan_items_set_other.
Qed.

(** X12 (count_midi_from_file, negative frequencies).  A frame with a
    finite negative frequency is not skipped: [np.log2] maps it to NaN, a
    key that equals no key.  So the NaN items of a returned counter are
    exactly one item of count 1 per negative frame. *)
Theorem count_midi_from_file_negative_frames :
  forall (pitch_frequencies : string -> result (list float64))
         (file : string),
    match count_midi_from_file pitch_frequencies file with
    | Raise e => pitch_frequencies file = Raise e
    | Ok counter =>
        exists f0,
          pitch_frequencies file = Ok f0
          /\ nan_items counter
             = repeat (NaN, 1%Z) (length (negative_frames f0))
          /\ (forall i, In i (negative_frames f0) <->
                        In i f0 /\ exists x, i = Fin x /\ x < 0)
    end.
Proof.
  intros pf file. unfold count_midi_from_file.
  destruct (pf file) as [f0|e]; [|reflexivity].
  exists f0. split; [reflexivity|]. split.
  - unfold count_frames. now rewrite count_frames_nan_items.
  - intros i. unfold negative_frames. rewrite filter_In.
    split; intros [Hin H]; (split; [exact Hin|]).
    + destruct i as [x| | |]; cbn in H; try discriminate.
      exists x. split; [reflexivity|].
      rewrite andb_true_r in H. unfold Rltb in H.
      now destruct (Rlt_dec x 0).
    + destruct H as [x [-> Hx]]. cbn. now rewrite Rltb_true.
Qed.

(** ** Merging counters *)

Lemma counter_get_absent c k :
  Forall (fun kv => feq (fst kv) k = false) c -> counter_get c k = 0%Z.
Proof.
  induction 1 as [|[k' n] c Hk _ IH]; [reflexivity|].
  cbn [counter_get]. cbn [fst] in Hk. now rewrite Hk.
Qed.

Lemma counter_get_add c k' n k :
  counter_get (counter_add c k' n) k
  = (counter_get c k + if feq k' k then n else 0)%Z.
Proof.
  unfold counter_add. rewrite counter_get_set.
  destruct (feq k' k) eqn:E; [|lia].
  now rewrite (counter_get_feq c _ _ E).
Qed.

Lemma fold_add_get o : forall c k,
  distinct_keys o ->
  counter_get
    (fold_left (fun acc kv => counter_add acc (fst kv) (snd kv)) o c) k
  = (counter_get c k + counter_get o k)%Z.
Proof.
  induction o as [|[k' n] o IH]; intros c k Hd.
  - cbn. lia.
  - destruct Hd as [Hk' Hd]. cbn [fold_left fst snd counter_get].
    rewrite (IH _ _ Hd), counter_get_add.
    destruct (feq k' k) eqn:E; [|lia].
    rewrite (counter_get_absent o k); [lia|].
    eapply Forall_impl; [|exact Hk']. intros [k'' m] H. cbn [fst] in *.
    destruct (feq k'' k) eqn:E'; [|reflexivity].
    rewrite <- H. symmetry. eapply feq_trans; [exact E|]. now rewrite feq_sym.
Qed.

Lemma fold_add_well_formed o : forall c,
  positive_counts o -> distinct_keys c -> positive_counts c ->
  distinct_keys
    (fold_left (fun acc kv => counter_add acc (fst kv) (snd kv)) o c)
  /\ positive_counts
       (fold_left (fun acc kv => counter_add acc (fst kv) (snd kv)) o c).
Proof.
  induction o as [|[k n] o IH]; intros c Ho Hd Hp; [now split|].
  inversion Ho as [|? ? Hn Ho']; subst. cbn [fold_left fst snd].
  apply IH; [exact Ho' | now apply distinct_keys_set |].
  apply positive_counts_set; [exact Hp|].
  pose proof (counter_get_nonneg c k Hp). cbn [snd] in Hn. lia.
Qed.

Lemma keep_positive_id c : positive_counts c -> keep_positive c = c.
Proof.
  unfold keep_positive, positive_counts.
  induction 1 as [|kv c Hn _ IH]; [reflexivity|]. cbn [filter].
  replace (0 <? snd kv)%Z with true by (symmetry; apply Z.ltb_lt; lia).
  now rewrite IH.
Qed.

(** [counter += other] on counters as [count_midi_from_file] builds them:
    the counts are added key by key and nothing is deleted. *)
Lemma counter_iadd_spec c o :
  distinct_keys c -> positive_counts c ->
  distinct_keys o -> positive_counts o ->
  distinct_keys (counter_iadd c o)
  /\ positive_counts (counter_iadd c o)
  /\ (forall k, counter_get (counter_iadd c o) k
                = (counter_get c k + counter_get o k)%Z).
Proof.
  intros Hdc Hpc Hdo Hpo. unfold counter_iadd.
  destruct (fold_add_well_formed o c Hpo Hdc Hpc) as [Hd Hp].
  rewrite (keep_positive_id _ Hp).
  split; [exact Hd|]. split; [exact Hp|].
  intros k. now apply fold_add_get.
Qed.

Lemma all_frames_cons pf f files :
  all_frames pf (f :: files)
  = match pf f with Ok f0 => f0 | Raise _ => [] end ++ all_frames pf files.
Proof. reflexivity. Qed.

Lemma surviving_app f0 f1 : surviving (f0 ++ f1) = surviving f0 ++ surviving f1.
Proof. unfold surviving. apply filter_app. Qed.

(** The frames with a given key, over a list of files. *)
Lemma frames_with_key_perm pf k files order :
  Permutation files order ->
  length (filter (fun i => feq (hz_to_midi i) k)
                 (surviving (all_frames pf files)))
  = length (filter (fun i => feq (hz_to_midi i) k)
                   (surviving (all_frames pf order))).
Proof.
  induction 1 as [|f l l' _ IH|f g l|l l' l'' _ IH1 _ IH2].
  - reflexivity.
  - rewrite !all_frames_cons, !surviving_app, !filter_app, !length_app.
    now rewrite IH.
  - rewrite !all_frames_cons, !surviving_app, !filter_app, !length_app. lia.
  - now rewrite IH1.
Qed.

Lemma collect_ok pf tasks : forall c0,
  distinct_keys c0 -> positive_counts c0 ->
  (forall f, In f tasks -> exists f0, pf f = Ok f0) ->
  exists counter,
    collect pf tasks c0 = Ok counter
    /\ distinct_keys counter /\ positive_counts counter
    /\ (forall k, counter_get counter k
                  = (counter_get c0 k
                     + Z.of_nat (length (filter
                                           (fun i => feq (hz_to_midi i) k)
                                           (surviving (all_frames pf tasks)))))%Z).
Proof.
  induction tasks as [|f tasks IH]; intros c0 Hd Hp Hall.
  - exists c0. cbn. repeat split; try assumption. intros k. lia.
  - cbn [collect]. unfold count_midi_from_file.
    destruct (Hall f (or_introl eq_refl)) as [f0 Hf0].
    rewrite all_frames_cons, Hf0.
    destruct (count_frames_invariant f0 [] I (Forall_nil _))
      as [Hd0 [Hp0 _]]. cbv zeta in Hd0, Hp0.
    fold (count_frames f0) in Hd0, Hp0.
    destruct (counter_iadd_spec c0 (count_frames f0) Hd Hp Hd0 Hp0)
      as [Hd1 [Hp1 Hget]].
    destruct (IH (counter_iadd c0 (count_frames f0)) Hd1 Hp1) as
      [counter [Hc [Hd2 [Hp2 Hk]]]].
    { intros g Hg. apply Hall. now right. }
    exists counter. split; [exact Hc|]. split; [exact Hd2|].
    split; [exact Hp2|]. intros k.
    rewrite Hk, Hget. unfold count_frames at 1. rewrite count_frames_get.
    rewrite surviving_app, filter_app, length_app. cbn [counter_get]. lia.
Qed.

(** X13 (frequency, collecting the counters).  When every listed file can
    be analysed, the collecting loop ends with a counter whose count for
    any key is the number of non-skipped frames with that key in all the
    files together, in whatever order the tasks complete; its keys are
    pairwise distinct and its counts positive. *)
Theorem collect_counts_all_files :
  forall (pitch_frequencies : string -> result (list float64))
         (files order : list string),
    Permutation files order ->
    (forall f, In f files -> exists f0, pitch_frequencies f = Ok f0) ->
    exists counter,
      collect pitch_frequencies order [] = Ok counter
      /\ distinct_keys counter
      /\ positive_counts counter
      /\ (forall k,
             counter_get counter k
             = Z.of_nat (length (filter (fun i => feq (hz_to_midi i) k)
                                        (surviving (all_frames
                                                      pitch_frequencies
                                                      files))))).
Proof.
  intros pf files order Hperm Hall.
  destruct (collect_ok pf order [] I (Forall_nil _))
    as [counter [Hc [Hd [Hp Hk]]]].
  { intros f Hf. apply Hall. eapply Permutation_in; [|exact Hf].
    now apply Permutation_sym. }
  exists counter. split; [exact Hc|]. split; [exact Hd|]. split; [exact Hp|].
  intros k. rewrite Hk. cbn [counter_get].
  now rewrite (frames_with_key_perm pf k files order Hperm).
Qed.

(** X13 with two files completing in the reverse order. *)
Lemma collect_counts_witness :
  let pf := fun f : string =>
              if String.eqb f "a.wav" then Ok [Fin 440; Fin 0]
              else Ok [Fin 220; Fin 440] in
  exists counter,
    collect pf ["b.wav"; "a.wav"]%string [] = Ok counter
    /\ distinct_keys counter
    /\ positive_counts counter
    /\ (forall k,
           counter_get counter k
           = Z.of_nat (length (filter (fun i => feq (hz_to_midi i) k)
                                      (surviving (all_frames pf
                                                    ["a.wav"; "b.wav"]%string))))).
Proof.
  intros pf.
  apply (collect_counts_all_files pf ["a.wav"; "b.wav"]%string
           ["b.wav"; "a.wav"]%string).
  - apply perm_swap.
  - intros f _. unfold pf. destruct (String.eqb f "a.wav"); eexists; reflexivity.
Defined.

(** The first task to fail, in completion order, ends the loop with its
    exception. *)
Lemma collect_fails pf tasks : forall c0,
  (exists f, In f tasks /\ exists e, pf f = Raise e) ->
  exists f e, In f tasks /\ pf f = Raise e /\ collect pf tasks c0 = Raise e.
Proof.
  induction tasks as [|g tasks IH]; intros c0 [f [Hin [e He]]];
    [now elim Hin|].
  cbn [collect]. unfold count_midi_from_file.
  destruct (pf g) as [f0|e'] eqn:Hg.
  - destruct Hin as [-> | Hin]; [congruence|].
    destruct (IH (counter_iadd c0 (count_frames f0))) as [f' [e'' [H1 [H2 H3]]]];
      [now exists f; eauto|].
    exists f', e''. split; [now right|]. split; assumption.
  - exists g, e'. split; [now left|]. split; [exact Hg | reflexivity].
Qed.

(** ** Sorting by count *)

Lemma insert_stable_perm A (lt : A -> A -> bool) x l :
  Permutation (x :: l) (insert_stable lt x l).
Proof.
  induction l as [|y l IH]; cbn [insert_stable]; [apply Permutation_refl|].
  destruct (lt y x); [|apply Permutation_refl].
  eapply perm_trans; [apply perm_swap|]. now apply perm_skip.
Qed.

Lemma sorted_stable_perm A (lt : A -> A -> bool) l :
  Permutation l (sorted_stable lt l).
Proof.
  unfold sorted_stable. induction l as [|x l IH]; cbn [fold_right];
    [constructor|].
  eapply perm_trans; [apply perm_skip, IH | apply insert_stable_perm].
Qed.

Lemma insert_by_count_sorted (x : float64 * Z) l :
  StronglySorted (fun y x => (snd x <= snd y)%Z) l ->
  StronglySorted (fun y x => (snd x <= snd y)%Z)
    (insert_stable by_count_desc x l).
Proof.
  induction 1 as [|y l Hs IH Hy]; cbn [insert_stable].
  - repeat constructor.
  - unfold by_count_desc at 1. destruct (snd x <? snd y)%Z eqn:E.
    + apply Z.ltb_lt in E. constructor; [exact IH|].
      eapply Permutation_Forall; [apply insert_stable_perm|].
      constructor; [lia | exact Hy].
    + apply Z.ltb_ge in E. constructor; [now constructor|].
      constructor; [exact E|].
      eapply Forall_impl; [|exact Hy]. intros z Hz. cbv beta in *. lia.
Qed.

Lemma sorted_by_count_sorted c :
  StronglySorted (fun y x => (snd x <= snd y)%Z) (sorted_by_count c).
Proof.
  unfold sorted_by_count, sorted_stable.
  induction c as [|x c IH]; cbn [fold_right]; [constructor|].
  now apply insert_by_count_sorted.
Qed.

Lemma to_notes_counts mtn cents midi : forall notes,
  to_notes mtn cents midi = Ok notes -> map snd notes = map snd midi.
Proof.
  unfold to_notes. induction midi as [|[k n] midi IH]; intros notes;
    cbn [traverse].
  - intros H; injection H as <-. reflexivity.
  - cbn [fst snd]. destruct (mtn cents k) as [note|e]; [|discriminate].
    destruct (traverse _ midi) as [ns|e]; [|discriminate].
    intros H; injection H as <-. cbn [map snd]. f_equal. now apply IH.
Qed.

Lemma StronglySorted_counts (notes : list (string * Z))
    (midi : list (float64 * Z)) :
  map snd notes = map snd midi ->
  StronglySorted (fun y x => (snd x <= snd y)%Z) midi ->
  StronglySorted (fun y x => (snd x <= snd y)%Z) notes.
Proof.
  intros Heq Hs. revert notes Heq.
  induction Hs as [|y midi Hs IH Hy]; intros notes Heq.
  - destruct notes; [constructor | discriminate].
  - destruct notes as [|z notes]; [discriminate|].
    cbn [map] in Heq. injection Heq as Hz Heq.
    constructor; [now apply IH|].
    assert (Hc : Forall (fun c => (c <= snd z)%Z) (map snd notes)).
    { rewrite Heq, Hz. apply Forall_map. exact Hy. }
    rewrite Forall_map in Hc. exact Hc.
Qed.

(** ** The [frequency] command *)

Lemma not_plot_found n labels heights :
  ~ In (Plot labels heights) [InfoFound n].
Proof. intros [H|[]]; discriminate. Qed.

Lemma not_plot_notes n (notes : list (string * Z)) labels heights :
  ~ In (Plot labels heights)
       ([InfoFound n] ++ map (fun nc => InfoNote (fst nc) (snd nc)) notes).
Proof.
  intros H. apply in_app_or in H. destruct H as [H|H].
  - now apply not_plot_found in H.
  - apply in_map_iff in H. destruct H as [nc [H _]]. discriminate.
Qed.

(** X14 (frequency, the report).  With [--no-visualize] and without
    [--detail], when the collecting loop ends with [counter] and every key
    has a note name, the command returns having logged the number of files
    and then one line per item of the counter, carrying the item's count,
    the most frequent first. *)
Theorem frequency_reports_counts :
  forall (list_files : string -> bool -> list string)
         (pitch_frequencies : string -> result (list float64))
         (as_completed : list string -> list string)
         (midi_to_note : bool -> float64 -> result string)
         (input_dir : string) (recursive : bool) (num_workers : Z)
         (counter : Counter) (notes : list (string * Z)),
    (0 < num_workers)%Z ->
    collect pitch_frequencies
      (as_completed (list_files input_dir recursive)) [] = Ok counter ->
    to_notes midi_to_note false (sorted_by_count counter) = Ok notes ->
    frequency list_files pitch_frequencies as_completed midi_to_note
      input_dir recursive false num_workers false
    = (InfoFound (length (list_files input_dir recursive))
       :: map (fun nc => InfoNote (fst nc) (snd nc)) notes,
       Returned)
    /\ length notes = length counter
    /\ Permutation (map snd counter) (map snd notes)
    /\ StronglySorted (fun y x => (snd x <= snd y)%Z) notes.
Proof.
  intros lf pf ac mtn input_dir recursive num_workers counter notes
         Hnw Hc Hn.
  pose proof (to_notes_counts mtn false _ notes Hn) as Hcounts.
  split; [|split; [|split]].
  - unfold frequency, ProcessPoolExecutor.
    replace (num_workers <=? 0)%Z with false
      by (symmetry; apply Z.leb_gt; lia).
    rewrite Hc, Hn. reflexivity.
  - rewrite <- (length_map snd notes), Hcounts, length_map.
    symmetry. apply Permutation_length, sorted_stable_perm.
  - rewrite Hcounts. apply Permutation_map, sorted_stable_perm.
  - eapply StronglySorted_counts; [exact Hcounts|].
    apply sorted_by_count_sorted.
Qed.

Lemma count_frames_one x :
  0 < x -> count_frames [Fin x; Fin 0] = [(hz_to_midi (Fin x), 1%Z)].
Proof.
  intros Hx. unfold count_frames. cbn [fold_left].
  assert (H0 : skipped (Fin 0) = true) by (cbn; now rewrite Reqb_true).
  assert (H1 : skipped (Fin x) = false) by (cbn; now rewrite Reqb_false by lra).
  now rewrite H0, H1.
Qed.

(** X14 on one file with a frame at 440 Hz and an unvoiced frame. *)
Lemma frequency_reports_counts_witness :
  let lf := fun (_ : string) (_ : bool) => ["a.wav"%string] in
  let pf := fun _ : string => Ok [Fin 440; Fin 0] in
  let ac := fun l : list string => l in
  let mtn := fun (_ : bool) (_ : float64) => Ok "A4"%string in
  frequency lf pf ac mtn "dir" true false 4 false
  = ([InfoFound 1; InfoNote "A4" 1], Returned)
  /\ length [("A4"%string, 1%Z)] = length [(hz_to_midi (Fin 440), 1%Z)]
  /\ Permutation (map snd [(hz_to_midi (Fin 440), 1%Z)])
                 (map snd [("A4"%string, 1%Z)])
  /\ StronglySorted (fun y x : string * Z => (snd x <= snd y)%Z)
       [("A4"%string, 1%Z)].
Proof.
  intros lf pf ac mtn.
  apply (frequency_reports_counts lf pf ac mtn "dir" true 4
           [(hz_to_midi (Fin 440), 1%Z)] [("A4"%string, 1%Z)]).
  - lia.
  - unfold lf, ac, pf. cbn [collect]. unfold count_midi_from_file.
    cbn [collect]. rewrite count_frames_one by lra. reflexivity.
  - reflexivity.
Defined.

(** X15 (frequency, the bar chart).  Whatever the arguments, the command
    never draws the chart: without [--detail] the visualising branch
    starts by calling [notes.items()] on a list, so with [visualize] set
    the command always ends in an exception; with [--detail] the branch is
    empty, and nothing but the number of files is logged. *)
Theorem frequency_never_plots :
  forall (list_files : string -> bool -> list string)
         (pitch_frequencies : string -> result (list float64))
         (as_completed : list string -> list string)
         (midi_to_note : bool -> float64 -> result string)
         (input_dir : string) (recursive visualize : bool)
         (num_workers : Z) (detail : bool),
    let run := frequency list_files pitch_frequencies as_completed
                 midi_to_note input_dir recursive visualize num_workers
                 detail in
    (forall labels heights, ~ In (Plot labels heights) (fst run))
    /\ (visualize = true -> detail = false -> exists e, snd run = Raised e)
    /\ (detail = true ->
        fst run = [InfoFound (length (list_files input_dir recursive))]).
Proof.
  intros lf pf ac mtn input_dir recursive visualize num_workers detail run.
  subst run. unfold frequency, list_items.
  destruct (ProcessPoolExecutor num_workers) as [[]|e]; cbn [fst snd];
    [|split; [intros; apply not_plot_found | split; eauto]].
  destruct (collect pf (ac (lf input_dir recursive)) []) as [counter|e];
    cbn [fst snd];
    [|split; [intros; apply not_plot_found | split; eauto]].
  destruct (to_notes mtn detail (sorted_by_count counter)) as [notes|e];
    cbn [fst snd];
    [|split; [intros; apply not_plot_found | split; eauto]].
  destruct detail, visualize; cbn [negb fst snd];
    try destruct (key_notes mtn) as [kn|e]; cbn [fst snd];
    (split; [intros; first [apply not_plot_found | apply not_plot_notes]|]);
    (split; [intros; try discriminate; eauto | intros; try discriminate;
                                                reflexivity]).
Qed.

(** X16 (frequency, a file that cannot be analysed).  With a positive
    number of workers, if the pitch analysis of some listed file raises,
    the command raises the exception of one such file (the first to
    complete) and logs nothing but the number of files: no count is
    reported, of that file or of any other. *)
Theorem frequency_unreadable_file_aborts :
  forall (list_files : string -> bool -> list string)
         (pitch_frequencies : string -> result (list float64))
         (as_completed : list string -> list string)
         (midi_to_note : bool -> float64 -> result string)
         (input_dir : string) (recursive visualize : bool)
         (num_workers : Z) (detail : bool),
    (0 < num_workers)%Z ->
    Permutation (list_files input_dir recursive)
                (as_completed (list_files input_dir recursive)) ->
    (exists f, In f (list_files input_dir recursive)
               /\ exists e, pitch_frequencies f = Raise e) ->
    exists f e,
      In f (list_files input_dir recursive)
      /\ pitch_frequencies f = Raise e
      /\ frequency list_files pitch_frequencies as_completed midi_to_note
           input_dir recursive visualize num_workers detail
         = ([InfoFound (length (list_files input_dir recursive))],
            Raised (Propagated e)).
Proof.
  intros lf pf ac mtn input_dir recursive visualize num_workers detail
         Hnw Hperm [f [Hin He]].
  destruct (collect_fails pf (ac (lf input_dir recursive)) [])
    as [f' [e' [Hin' [He' Hc]]]].
  { exists f. split; [|exact He]. eapply Permutation_in; eauto. }
  exists f', e'. split.
  - eapply Permutation_in; [apply Permutation_sym; exact Hperm | exact Hin'].
  - split; [exact He'|]. unfold frequency, ProcessPoolExecutor.
    replace (num_workers <=? 0)%Z with false
      by (symmetry; apply Z.leb_gt; lia).
    now rewrite Hc.
Qed.

(** X16 with two files of which the second cannot be read. *)
Lemma frequency_unreadable_file_witness :
  let lf := fun (_ : string) (_ : bool) => ["a.wav"; "b.wav"]%string in
  let pf := fun f : string =>
              if String.eqb f "a.wav" then Ok [Fin 440]
              else Raise RuntimeError in
  let ac := fun l : list string => rev l in
  let mtn := fun (_ : bool) (_ : float64) => Ok "A4"%string in
  exists f e,
    In f ["a.wav"; "b.wav"]%string
    /\ pf f = Raise e
    /\ frequency lf pf ac mtn "dir" true true 4 false
       = ([InfoFound 2], Raised (Propagated e)).
Proof.
  intros lf pf ac mtn.
  apply (frequency_unreadable_file_aborts lf pf ac mtn "dir" true true 4
           false).
  - lia.
  - apply Permutation_rev.
  - exists "b.wav"%string. split; [right; now left|].
    exists RuntimeError. reflexivity.
Defined.

(** ** The two paths compared *)

Lemma call_loudness_norm_file_eq a rate peak loudness block_size :
  call_loudness_norm_file a rate peak loudness block_size
  = loudness_norm_file_value a rate peak loudness.
Proof.
  unfold call_loudness_norm_file.
  set (c := {| sf_frames := a; sf_samplerate := rate |}).
  pose proof (loudness_norm_file_run [] [("in.wav"%string, c)]
                "in.wav" "out.wav" c peak loudness block_size
                (lookup_here "in.wav" c [])) as Hrun.
  cbv zeta in Hrun. cbn [c sf_frames sf_samplerate] in Hrun.
  destruct (loudness_norm_file "in.wav" "out.wav" peak loudness block_size _)
    as [w r].
  cbn [fst snd] in Hrun.
  destruct (loudness_norm_file_value a rate peak loudness) as [a3|e].
  - destruct Hrun as [-> [-> _]]. reflexivity.
  - destruct Hrun as [-> _]. reflexivity.
Qed.

Lemma map_fixed A (g : A -> A) (l : list A) :
  map g l = l -> forall y, In y l -> g y = y.
Proof.
  induction l as [|z l IH]; intros Hm y Hy; [now elim Hy|].
  cbn [map] in Hm. injection Hm as Hz Hm.
  destruct Hy as [<- | Hy]; [exact Hz | now apply IH].
Qed.

Lemma scale_fixed g (a : ndarray) f x :
  scale g a = a -> In f a -> In x f -> fmul g x = x.
Proof.
  intros H Hf Hx. unfold scale in H.
  pose proof (map_fixed _ _ a H f Hf) as Hrow.
  exact (map_fixed _ _ f Hrow x Hx).
Qed.

Lemma fmul_one x : fmul (Fin 1) x = x.
Proof.
  destruct x as [v| | |]; cbn; try reflexivity.
  - f_equal. ring.
  - unfold inf_times. now rewrite Rltb_true by lra.
  - unfold inf_times. now rewrite Rltb_true by lra.
Qed.

Lemma scale_one (a : ndarray) : scale (Fin 1) a = a.
Proof.
  unfold scale. rewrite <- (map_id a) at 2. apply map_ext. intros f.
  rewrite <- (map_id f) at 2. apply map_ext. intros x. apply fmul_one.
Qed.

Lemma nonzero_sample_flat l :
  Forall (fun x => isfinite x = true) l ->
  ~ Forall (fun x => x = Fin 0) l ->
  exists v, In (Fin v) l /\ v <> 0.
Proof.
  induction 1 as [|x l Hx _ IH]; intros Hns; [elim Hns; constructor|].
  destruct x as [v| | |]; try discriminate.
  destruct (Req_dec_T v 0) as [-> | Hv].
  - destruct IH as [u [Hu Hu0]].
    + intros Hl. apply Hns. now constructor.
    + exists u. split; [now right | exact Hu0].
  - exists v. split; [now left | exact Hv].
Qed.

Lemma nonzero_sample (a : ndarray) :
  all_finite a -> ~ silent a ->
  exists f v, In f a /\ In (Fin v) f /\ v <> 0.
Proof.
  intros Hfin Hns.
  destruct (nonzero_sample_flat (concat a) Hfin Hns) as [v [Hv Hv0]].
  apply in_concat in Hv. destruct Hv as [f [Hf Hvf]].
  exists f, v. repeat split; assumption.
Qed.

(** X17 (the two paths).  On a finite, non-silent buffer for which both
    meters read a finite loudness ([l] on the peak-normalised samples with
    the caller's block size, and some value on the samples as given with
    the default block), the file-based path writes the peak-normalised
    buffer and the in-memory path returns that buffer multiplied by
    [10^((loudness - l)/20)]: the two agree exactly when that gain
    is 1, that is when [loudness = l]. *)
Theorem in_memory_is_file_path_times_loudness_gain :
  forall (a : ndarray) (rate : Z) (peak loudness block_size l l0 : R),
    all_finite a -> ~ silent a ->
    measured_loudness a rate peak block_size = Ok (Fin l) ->
    call_integrated_loudness a rate pyln.default_block_size = Ok (Fin l0) ->
    exists a1,
      call_loudness_norm_file a rate peak loudness block_size = Ok a1
      /\ call_loudness_norm a rate peak loudness block_size
         = Ok (scale (Fin (Rpower 10 ((loudness - l) / 20))) a1)
      /\ (call_loudness_norm a rate peak loudness block_size = Ok a1
          <-> loudness = l).
Proof.
  intros a rate peak loudness block_size l l0 Hfin Hns HL HL0.
  destruct (amax_abs_finite a Hfin Hns) as [M [HM HMpos]].
  pose proof (peak_value_finite a M peak HM HMpos) as Hpk.
  pose proof (pow10_pos (peak / 20)) as HP.
  assert (Hk : 0 < Rpower 10 (peak / 20) / M)
    by (apply Rdiv_lt_0_compat; lra).
  set (k := Rpower 10 (peak / 20) / M) in *.
  rewrite measured_loudness_eq, Hpk in HL.
  rewrite call_integrated_loudness_eq in HL0.
  exists (scale (Fin k) a).
  assert (Hmem : call_loudness_norm a rate peak loudness block_size
                 = Ok (scale (Fin (Rpower 10 ((loudness - l) / 20)))
                         (scale (Fin k) a))).
  { rewrite call_loudness_norm_eq. unfold loudness_norm_value.
    now rewrite Hpk, HL, loudness_gain_fin. }
  split; [|split; [exact Hmem|]].
  - rewrite call_loudness_norm_file_eq. unfold loudness_norm_file_value.
    rewrite HL0, loudness_gain_fin.
    rewrite peak_value_scale by apply pow10_pos. exact Hpk.
  - rewrite Hmem. split.
    + intros H. injection H as H.
      destruct (nonzero_sample a Hfin Hns) as [f [v [Hf [Hv Hv0]]]].
      assert (Hg : Rpower 10 ((loudness - l) / 20) = 1).
      { pose proof (scale_fixed _ _ (map (fmul (Fin k)) f) (Fin (k * v)) H)
          as Hpt.
        cbn [fmul] in Hpt.
        assert (Hkv : k * v <> 0) by nra.
        apply Rmult_eq_reg_r with (k * v); [|exact Hkv].
        rewrite Rmult_1_l.
        assert (E : Fin (Rpower 10 ((loudness - l) / 20) * (k * v))
                    = Fin (k * v)); [|now injection E].
        apply Hpt.
        - unfold scale. apply in_map_iff. exists f. split; [reflexivity|exact Hf].
        - apply in_map_iff. exists (Fin v). split; [reflexivity | exact Hv]. }
      destruct (Rtotal_order loudness l) as [Hlt | [Heq | Hgt]];
        [|exact Heq|].
      * exfalso. assert (Rpower 10 ((loudness - l) / 20) < 1).
        { rewrite <- (Rpower_O 10) by lra. apply Rpower_lt; lra. }
        lra.
      * exfalso. assert (1 < Rpower 10 ((loudness - l) / 20)).
        { rewrite <- (Rpower_O 10) by lra. apply Rpower_lt; lra. }
        lra.
    + intros ->. f_equal.
      replace ((l - l) / 20) with 0 by lra. rewrite Rpower_O by lra.
      apply scale_one.
Qed.

(** X17 on the buffer [[1.0]] at 1 Hz with a block of one second for the
    in-memory path. *)
Lemma in_memory_is_file_path_witness :
  exists a1,
    call_loudness_norm_file [[Fin 1]] 1 (-1) (-23) 1 = Ok a1
    /\ call_loudness_norm [[Fin 1]] 1 (-1) (-23) 1
       = Ok (scale (Fin (Rpower 10 ((-23 - (3.309 + -1)) / 20))) a1)
    /\ (call_loudness_norm [[Fin 1]] 1 (-1) (-23) 1 = Ok a1
        <-> -23 = 3.309 + -1).
Proof.
  apply (in_memory_is_file_path_times_loudness_gain
           [[Fin 1]] 1 (-1) (-23) 1 (3.309 + -1)
           (lufs (5 / 2 * (K_shelf * 1 * (K_shelf * 1))))).
  - repeat constructor.
  - intros H. inversion H as [|? ? H1 _]. injection H1. lra.
  - apply measured_loudness_unit_sample. lra.
  - exact unit_file_loudness.
Defined.
